(** * generate-og-images: a shallow embedding and its verified properties

    The script builds two 1200x630 social-preview images: a diagonal
    colour gradient, one decorative shape and three centred lines of text,
    saved as JPEG files.  This development embeds the script in Rocq:

    - Python [float] is IEEE-754 binary64, modelled by the Standard
      Library's executable specification [SpecFloat] at precision 53;
    - Python exceptions are values of an error type, threaded through a
      state-and-error monad whose state is the object heap (PIL images are
      mutable objects reached through references) and the trace of calls
      into the outside world (PIL drawing calls, file writes, [print]);
    - what lies outside the repository (font files, the rasterisers of
      PIL, the file system) is a record of environment parameters. *)

From Stdlib Require Import ZArith Lia List String Ascii Bool SpecFloat.
From stdpp Require Import base option list gmap strings pretty.

Local Open Scope Z_scope.

(* ================================================================== *)
(** * Part I: definitions                                              *)
(* ================================================================== *)

(** ** Exceptions and results *)

Inductive exn : Set :=
  | ImportError
  | ValueError
  | ZeroDivisionError
  | OverflowError
  | IndexError
  | OSError.

Inductive result (A : Type) : Type :=
  | Ok (a : A)
  | Raise (e : exn).
Arguments Ok {A} a.
Arguments Raise {A} e.

#[export] Instance result_ret : MRet result := λ A a, Ok a.
#[export] Instance result_bind : MBind result := λ A B f m,
  match m with
  | Ok a => f a
  | Raise e => Raise e
  end.

(** ** Python floats: IEEE-754 binary64 *)

Module F64.

Definition prec : Z := 53.
Definition emax : Z := 1024.

Abbreviation float := spec_float.

Definition add : float → float → float := SFadd prec emax.
Definition mul : float → float → float := SFmul prec emax.

(** [float(z)] for a Python int: the nearest double, ties to even;
    [OverflowError] when it is out of range. *)
Definition of_int_core (z : Z) : float := binary_normalize prec emax z 0 false.

Definition of_int (z : Z) : result float :=
  match of_int_core z with
  | S754_infinity _ => Raise OverflowError
  | f => Ok f
  end.

(** [a / b] on Python ints ([int.__truediv__]): the correctly rounded
    double nearest to the exact quotient.  [SFdiv_core_binary] divides
    two integer mantissas and reports where the exact quotient lies;
    with both exponents 0 the mantissas are the integers themselves, and
    [binary_round_aux] rounds to nearest-even.  For operands below 2^53
    this is the double division of the converted operands. *)
Definition truediv_core (a b : Z) : float :=
  let '(q, e, l) := SFdiv_core_binary prec emax (Z.abs a) 0 (Z.abs b) 0 in
  binary_round_aux prec emax (xorb (a <? 0) (b <? 0)) q e l.

Definition truediv (a b : Z) : result float :=
  if b =? 0 then Raise ZeroDivisionError
  else if a =? 0 then Ok (S754_zero (b <? 0))
  else match truediv_core a b with
       | S754_infinity _ => Raise OverflowError
       | f => Ok f
       end.

(** Truncation toward zero of a finite double. *)
Definition trunc (f : float) : Z :=
  match f with
  | S754_finite s m e =>
      cond_Zopp s (match e with
                   | Z0 => Zpos m
                   | Zpos k => Zpos m * 2 ^ Zpos k
                   | Zneg k => Zpos m / 2 ^ Zpos k
                   end)
  | _ => 0
  end.

(** [int(f)] on a Python float. *)
Definition to_int (f : float) : result Z :=
  match f with
  | S754_nan => Raise ValueError
  | S754_infinity _ => Raise OverflowError
  | _ => Ok (trunc f)
  end.

(** Round-half-even quotient of two integers, [K > 0]. *)
Definition rne_div (N K : Z) : Z :=
  match 2 * (N mod K) ?= K with
  | Lt => N / K
  | Gt => N / K + 1
  | Eq => if Z.even (N / K) then N / K else N / K + 1
  end.

(** [round(f)] on a Python float: nearest integer, ties to even. *)
Definition round_half_even (f : float) : Z :=
  match f with
  | S754_finite s m e =>
      cond_Zopp s (match e with
                   | Z0 => Zpos m
                   | Zpos k => Zpos m * 2 ^ Zpos k
                   | Zneg k => rne_div (Zpos m) (2 ^ Zpos k)
                   end)
  | _ => 0
  end.

Definition round_to_int (f : float) : result Z :=
  match f with
  | S754_nan => Raise ValueError
  | S754_infinity _ => Raise OverflowError
  | _ => Ok (round_half_even f)
  end.

Definition is_finite (f : float) : bool :=
  match f with
  | S754_zero _ | S754_finite _ _ _ => true
  | _ => false
  end.

(** A finite double in canonical form (the only form the operations
    produce). *)
Definition fin_ok (f : float) : Prop :=
  is_finite f = true ∧ valid_binary prec emax f = true.

(** *** Exact values

    Every finite double is an integer multiple of 2^-1074, and a product
    of two of them a multiple of 2^-2148.  [ival f] is the exact value of
    [f] counted in units of 2^-2148, so that the real number [f] is
    [ival f / U] and [1.0] is [U]. *)
Definition U : Z := 2 ^ 2148.
Definition OV : Z := 2 ^ 3171.          (* 2^1023, in units *)

Definition ival (f : float) : Z :=
  match f with
  | S754_finite s m e => cond_Zopp s (Zpos m * 2 ^ (e + 2148))
  | _ => 0
  end.

(** [f] is finite and its exact value is the rational [n / d]. *)
Definition exactly (f : float) (n d : Z) : Prop :=
  fin_ok f ∧ ival f * d = n * U.

(** *** Correct rounding, relationally

    [Rnd X D v]: the non-negative rational [X / D] (in units) rounds to
    [v] (in units) in binary64, to nearest with ties to even.  [E] is the
    exponent of the unit in the last place: the mantissa
    [X / (D * 2^E)] has 53 bits, or fewer at the bottom of the
    subnormal range. *)
Definition Rnd (X D v : Z) : Prop :=
  ∃ E, 1074 <= E ∧ v = rne_div X (D * 2 ^ E) * 2 ^ E ∧
       (E = 1074 ∨ 2 ^ (52 + E) * D <= X) ∧ X < 2 ^ (53 + E) * D.

Definition SRnd (X D v : Z) : Prop :=
  (0 <= X ∧ Rnd X D v) ∨ (X <= 0 ∧ Rnd (- X) D (- v)).

Definition rounds (X D : Z) (f : float) : Prop :=
  fin_ok f ∧ SRnd X D (ival f).

(** *** The shift-and-round machinery of [SpecFloat]

    A shift record [mrs] stands for the rational [N / K] when its
    mantissa is the integer part and its round and sticky bits locate
    the fractional part against one half. *)
Definition loc_rs (N K : Z) : bool * bool :=
  if N mod K =? 0 then (false, false)
  else match 2 * (N mod K) ?= K with
       | Lt => (false, true)
       | Eq => (true, false)
       | Gt => (true, true)
       end.

Definition represents (N K : Z) (mrs : shr_record) : Prop :=
  shr_m mrs = N / K ∧ (shr_r mrs, shr_s mrs) = loc_rs N K.

(** What [binary_round_aux] returns, given the rounded mantissa [mr]
    at exponent [E]. *)
Definition bra_result (s : bool) (mr E : Z) : float :=
  if mr =? 0 then S754_zero s
  else if mr <? 2 ^ 53 then
    (if E <=? emax - prec then S754_finite s (Z.to_pos mr) E else S754_infinity s)
  else
    (if E + 1 <=? emax - prec then S754_finite s (Z.to_pos (2 ^ 52)) (E + 1)
     else S754_infinity s).

End F64.

(** ** Colours *)

Definition rgb : Type := Z * Z * Z.

(** The value of one hexadecimal digit. *)
Definition hex_digit (c : ascii) : option Z :=
  let n := Z.of_nat (nat_of_ascii c) in
  if (48 <=? n) && (n <=? 57) then Some (n - 48)
  else if (97 <=? n) && (n <=? 102) then Some (n - 87)
  else if (65 <=? n) && (n <=? 70) then Some (n - 55)
  else None.

Fixpoint int16_digits (acc : Z) (s : string) : result Z :=
  match s with
  | EmptyString => Ok acc
  | String c s' =>
      match hex_digit c with
      | Some d => int16_digits (16 * acc + d) s'
      | None => Raise ValueError
      end
  end.

(** [int(s, 16)]: [ValueError] on the empty string and on a character
    that is no hexadecimal digit.  (Python also accepts a sign, blanks
    around the number and underscores between digits; a ['#rrggbb']
    colour has none of these.) *)
Definition int16 (s : string) : result Z :=
  match s with
  | EmptyString => Raise ValueError
  | _ => int16_digits 0 s
  end.

(** [int(color[1:3], 16), int(color[3:5], 16), int(color[5:7], 16)];
    [substring n m s] is the slice [s[n:n+m]], shorter when [s] ends
    early, as in Python. *)
Definition hex_channels (color : string) : result rgb :=
  r ← int16 (substring 1 2 color);
  g ← int16 (substring 3 2 color);
  b ← int16 (substring 5 2 color);
  mret (r, g, b).

Definition is_hex_digit (c : ascii) : bool :=
  match hex_digit c with Some _ => true | None => false end.

(** The ['#rrggbb'] colour syntax. *)
Definition is_hex_color (s : string) : bool :=
  match s with
  | String c0 (String c1 (String c2 (String c3 (String c4 (String c5 (String c6 EmptyString)))))) =>
      Ascii.eqb c0 "#" &&
      is_hex_digit c1 && is_hex_digit c2 && is_hex_digit c3 &&
      is_hex_digit c4 && is_hex_digit c5 && is_hex_digit c6
  | _ => false
  end.

(** PIL's [ImageColor.getrgb], for the one colour syntax this program
    uses; PIL's other syntaxes (names, ['#rgb'], [rgb(...)], ...) are not
    modelled and count as rejected. *)
Definition getrgb (color : string) : result rgb :=
  if is_hex_color color then hex_channels color else Raise ValueError.

Definition clip8 (v : Z) : Z := Z.max 0 (Z.min 255 v).

(** ** Images, fonts, the environment *)

(** A PIL image of mode RGB: its size and one colour per coordinate. *)
Record image : Type := Image {
  im_width : Z;
  im_height : Z;
  im_pixels : gmap (Z * Z) rgb
}.

Definition bbox : Type := Z * Z * Z * Z.

(** A loaded font: what the program asks of it is the bounding box of a
    string drawn at the origin. *)
Record font : Type := Font {
  font_name : string;
  font_size : Z;
  font_bbox : string → bbox
}.

(** What the run depends on and the repository does not contain. *)
Record env : Type := Env {
  pil_installed : bool;                       (* can PIL be imported?       *)
  truetype : string → Z → option font;        (* None: the load raises      *)
  load_default : font;
  writable : string → bool;                   (* can this path be written?  *)
  paint_ellipse : bbox → string → Z → image → gmap (Z * Z) rgb;
  paint_rectangle : bbox → string → Z → image → gmap (Z * Z) rgb;
  paint_text : F64.float → Z → string → string → font → image → gmap (Z * Z) rgb
}.

(** ** The world: object heap and trace of outside calls *)

Definition loc : Set := nat.

Inductive event : Type :=
  | EvPrint (line : string)
  | EvNew (l : loc) (width height : Z)
  | EvEllipse (l : loc) (box : bbox) (outline : string) (width : Z)
  | EvRectangle (l : loc) (box : bbox) (outline : string) (width : Z)
  | EvText (l : loc) (x : F64.float) (y : Z) (text fill : string) (f : font)
  | EvSave (l : loc) (path format : string) (quality : Z) (optimize : bool) (content : image).

Record world : Type := World {
  w_heap : gmap loc image;
  w_log : list event
}.

Definition M (A : Type) : Type := world → result A * world.

#[export] Instance M_ret : MRet M := λ A a w, (Ok a, w).
#[export] Instance M_bind : MBind M := λ A B f m w,
  match m w with
  | (Ok a, w') => f a w'
  | (Raise e, w') => (Raise e, w')
  end.

Definition lift {A} (r : result A) : M A := λ w, (r, w).

Definition emit (ev : event) : M unit :=
  λ w, (Ok tt, World (w_heap w) (w_log w ++ [ev])).

Fixpoint for_ {A} (xs : list A) (body : A → M unit) : M unit :=
  match xs with
  | [] => mret tt
  | x :: xs' => body x;; for_ xs' body
  end.

(** [range(n)] *)
Definition range (n : Z) : list Z := Z.of_nat <$> seq 0 (Z.to_nat n).

(** ** PIL operations *)

Definition all_coords (width height : Z) : list (Z * Z) :=
  x ← range width; y ← range height; [(x, y)].

(** The pixel store of a new image: the fill colour at every coordinate. *)
Definition filled (width height : Z) (fill : rgb) : gmap (Z * Z) rgb :=
  gset_to_gmap fill (list_to_set (all_coords width height)).

(** [Image.new('RGB', (width, height), color)]: a fresh image object. *)
Definition image_new (width height : Z) (color : string) : M loc := λ w,
  if (width <? 0) || (height <? 0) then (Raise ValueError, w)
  else match getrgb color with
       | Raise e => (Raise e, w)
       | Ok fill =>
           let l := fresh (dom (w_heap w)) in
           (Ok l, World (<[l := Image width height (filled width height fill)]> (w_heap w))
                        (w_log w ++ [EvNew l width height]))
       end.

(** Pixel access normalises a negative index once, then checks the
    range. *)
Definition wrap_index (size i : Z) : Z := if i <? 0 then size + i else i.

Definition in_image (im : image) (x y : Z) : bool :=
  (0 <=? x) && (x <? im_width im) && (0 <=? y) && (y <? im_height im).

(** [pixels[x, y] = (r, g, b)] where [pixels = image.load()] aliases
    the image at [img]; channels are stored as bytes. *)
Definition putpixel (img : loc) (x y : Z) (px : rgb) : M unit := λ w,
  match w_heap w !! img with
  | None => (Raise ValueError, w)
  | Some im =>
      let x' := wrap_index (im_width im) x in
      let y' := wrap_index (im_height im) y in
      if in_image im x' y' then
        let '(r, g, b) := px in
        (Ok tt, World (<[img := Image (im_width im) (im_height im)
                                      (<[(x', y') := (clip8 r, clip8 g, clip8 b)]> (im_pixels im))]>
                         (w_heap w))
                      (w_log w))
      else (Raise IndexError, w)
  end.

(** [pixels[x, y]] *)
Definition getpixel (im : image) (x y : Z) : result rgb :=
  let x' := wrap_index (im_width im) x in
  let y' := wrap_index (im_height im) y in
  if in_image im x' y' then
    match im_pixels im !! (x', y') with
    | Some px => Ok px
    | None => Raise IndexError
    end
  else Raise IndexError.

(** A drawing call repaints the pixels of the image in place and leaves
    its size alone. *)
Definition repaint (img : loc) (paint : image → gmap (Z * Z) rgb) (ev : event) : M unit := λ w,
  match w_heap w !! img with
  | None => (Raise ValueError, w)
  | Some im =>
      (Ok tt, World (<[img := Image (im_width im) (im_height im) (paint im)]> (w_heap w))
                    (w_log w ++ [ev]))
  end.

(** [draw.ellipse(box, outline=..., width=...)] with [draw = ImageDraw.Draw(img)] *)
Definition draw_ellipse (E : env) (img : loc) (box : bbox) (outline : string) (width : Z) : M unit :=
  repaint img (paint_ellipse E box outline width) (EvEllipse img box outline width).

Definition draw_rectangle (E : env) (img : loc) (box : bbox) (outline : string) (width : Z) : M unit :=
  repaint img (paint_rectangle E box outline width) (EvRectangle img box outline width).

(** [draw.text((x, y), text, fill=..., font=...)] *)
Definition draw_text (E : env) (img : loc) (x : F64.float) (y : Z) (text fill : string) (f : font) : M unit :=
  repaint img (paint_text E x y text fill f) (EvText img x y text fill f).

(** [img.save(path, format, quality=..., optimize=...)]: the file gets
    the canvas as it is now; an unwritable path raises. *)
Definition save (E : env) (img : loc) (path format : string) (quality : Z) (optimize : bool) : M unit := λ w,
  match w_heap w !! img with
  | None => (Raise ValueError, w)
  | Some im =>
      if writable E path
      then (Ok tt, World (w_heap w) (w_log w ++ [EvSave img path format quality optimize im]))
      else (Raise OSError, w)
  end.

Definition print (line : string) : M unit := emit (EvPrint line).

(** [os.path.join(a, b)] *)
Definition ends_with_slash (a : string) : bool :=
  match String.rev a with
  | String "/" _ => true
  | _ => false
  end.

Definition path_join (a b : string) : string :=
  if String.prefix "/" b then b
  else if (String.length a =? 0)%nat || ends_with_slash a then a +:+ b
  else a +:+ "/" +:+ b.

(** ** The script *)

(** Brand colours *)
Definition DARK_BG : string := "#0f0f23".
Definition ACCENT_PURPLE : string := "#8b5cf6".
Definition ACCENT_CYAN : string := "#06b6d4".
Definition WHITE : string := "#ffffff".
Definition LIGHT_GRAY : string := "#e5e7eb".

(** Image dimensions *)
Definition WIDTH : Z := 1200.
Definition HEIGHT : Z := 630.

(** [int(c1 + (c2 - c1) * ratio)] *)
Definition lerp (c1 c2 : Z) (ratio : F64.float) : result Z :=
  d ← F64.of_int (c2 - c1);
  c ← F64.of_int c1;
  F64.to_int (F64.add c (F64.mul d ratio)).

(** The body of the two loops, up to the pixel assignment. *)
Definition gradient_pixel (width height : Z) (color1 color2 : string) (x y : Z) : result rgb :=
  ratio ← F64.truediv (x + y) (width + height);
  '(r1, g1, b1) ← hex_channels color1;
  '(r2, g2, b2) ← hex_channels color2;
  r ← lerp r1 r2 ratio;
  g ← lerp g1 g2 ratio;
  b ← lerp b1 b2 ratio;
  mret (r, g, b).

Definition create_gradient_background (width height : Z) (color1 color2 : string) : M loc :=
  image ← image_new width height color1;
  for_ (range width) (λ x,
    for_ (range height) (λ y,
      px ← lift (gradient_pixel width height color1 color2 x y);
      putpixel image x y px));;
  mret image.

Definition bold_ttf : string := "/usr/share/fonts/truetype/dejavu/DejaVuSans-Bold.ttf".
Definition regular_ttf : string := "/usr/share/fonts/truetype/dejavu/DejaVuSans.ttf".

(** [try: three truetype loads; except: three default fonts].  One
    failed load replaces all three fonts. *)
Definition load_fonts (E : env) (title_size subtitle_size tagline_size : Z) : font * font * font :=
  match truetype E bold_ttf title_size,
        truetype E regular_ttf subtitle_size,
        truetype E regular_ttf tagline_size with
  | Some title_font, Some subtitle_font, Some tagline_font =>
      (title_font, subtitle_font, tagline_font)
  | _, _, _ => (load_default E, load_default E, load_default E)
  end.

(** [bbox[2] - bbox[0]] of [draw.textbbox((0, 0), text, font=f)] *)
Definition text_width (f : font) (text : string) : Z :=
  let '(x0, _, x1, _) := font_bbox f text in x1 - x0.

Definition create_og_image (E : env) : M loc :=
  img ← create_gradient_background WIDTH HEIGHT DARK_BG ACCENT_CYAN;
  let '(title_font, subtitle_font, tagline_font) := load_fonts E 90 48 36 in
  let circle_radius := 120 in
  draw_ellipse E img
    (WIDTH - circle_radius * 2 - 50, HEIGHT - circle_radius * 2 - 30, WIDTH - 50, HEIGHT - 30)
    ACCENT_PURPLE 3;;
  let title := "JustLayMe" in
  let title_width := text_width title_font title in
  title_x ← lift (F64.truediv (WIDTH - title_width) 2);
  draw_text E img title_x 150 title WHITE title_font;;
  let subtitle := "Unfiltered AI Conversations" in
  let subtitle_width := text_width subtitle_font subtitle in
  subtitle_x ← lift (F64.truediv (WIDTH - subtitle_width) 2);
  draw_text E img subtitle_x 280 subtitle ACCENT_CYAN subtitle_font;;
  let tagline := "Chat Without Restrictions" in
  let tagline_width := text_width tagline_font tagline in
  tagline_x ← lift (F64.truediv (WIDTH - tagline_width) 2);
  draw_text E img tagline_x 370 tagline LIGHT_GRAY tagline_font;;
  mret img.

Definition create_twitter_image (E : env) : M loc :=
  img ← create_gradient_background WIDTH HEIGHT DARK_BG ACCENT_PURPLE;
  let '(title_font, subtitle_font, tagline_font) := load_fonts E 85 42 32 in
  draw_rectangle E img (50, 50, 100, 100) ACCENT_PURPLE 3;;
  let title := "JustLayMe" in
  let title_width := text_width title_font title in
  title_x ← lift (F64.truediv (WIDTH - title_width) 2);
  draw_text E img title_x 120 title WHITE title_font;;
  let subtitle := "Unfiltered AI Conversations" in
  let subtitle_width := text_width subtitle_font subtitle in
  subtitle_x ← lift (F64.truediv (WIDTH - subtitle_width) 2);
  draw_text E img subtitle_x 250 subtitle ACCENT_PURPLE subtitle_font;;
  let tagline := "Chat Without Restrictions" in
  let tagline_width := text_width tagline_font tagline in
  tagline_x ← lift (F64.truediv (WIDTH - tagline_width) 2);
  draw_text E img tagline_x 340 tagline WHITE tagline_font;;
  mret img.

Definition nl : string := String "010" EmptyString.
Definition dq : string := String "034" EmptyString.

Definition output_dir : string := "/home/fastl/JustLayMe-react/public".
Definition og_path : string := path_join output_dir "og-image.jpg".
Definition twitter_path : string := path_join output_dir "twitter-image.jpg".

Definition meta (attr key content : string) : string :=
  "  <meta " +:+ attr +:+ "=" +:+ dq +:+ key +:+ dq +:+ " content=" +:+ dq +:+ content +:+ dq +:+ " />".

Definition usage_hint : list string :=
  [ nl +:+ "Images generated successfully!";
    "Dimensions: " +:+ pretty WIDTH +:+ "x" +:+ pretty HEIGHT +:+ " pixels";
    "Format: JPEG (90% quality)";
    nl +:+ "Add to your HTML head:";
    meta "property" "og:image" "https://yourdomain.com/og-image.jpg";
    meta "property" "og:image:width" "1200";
    meta "property" "og:image:height" "630";
    meta "name" "twitter:image" "https://yourdomain.com/twitter-image.jpg" ].

Definition main (E : env) : M unit :=
  print "Generating OG and Twitter Card images...";;
  og_img ← create_og_image E;
  save E og_img og_path "JPEG" 90 true;;
  print ("Created: " +:+ og_path);;
  twitter_img ← create_twitter_image E;
  save E twitter_img twitter_path "JPEG" 90 true;;
  print ("Created: " +:+ twitter_path);;
  for_ usage_hint print.

(** [from PIL import Image, ImageDraw, ImageFont] *)
Definition import_pil (E : env) : M unit :=
  λ w, if pil_installed E then (Ok tt, w) else (Raise ImportError, w).

Definition remediation : list string :=
  [ "Error: PIL (Pillow) is not installed.";
    nl +:+ "To create the images, install Pillow:";
    "  pip install Pillow";
    nl +:+ "Or use the included specification document to create images manually." ].

(** How the process ends: [exit(n)], falling off the end (status 0), or
    an exception nobody catches (traceback, status 1). *)
Inductive termination : Type :=
  | Exited (status : Z)
  | Uncaught (e : exn).

Definition exit_status (t : termination) : Z :=
  match t with
  | Exited n => n
  | Uncaught _ => 1
  end.

(** The whole file: a [try] around the import, the definitions and the
    call of [main], with one handler, for [ImportError]. *)
Definition script (E : env) (w : world) : termination * world :=
  match (import_pil E;; main E) w with
  | (Ok _, w') => (Exited 0, w')
  | (Raise ImportError, w') =>
      match for_ remediation print w' with
      | (_, w'') => (Exited 1, w'')
      end
  | (Raise e, w') => (Uncaught e, w')
  end.

(** ** Reading a trace *)

Definition printed (log : list event) : list string :=
  omap (λ ev, match ev with EvPrint s => Some s | _ => None end) log.

Definition saved (log : list event) : list (string * image) :=
  omap (λ ev, match ev with EvSave _ path _ _ _ im => Some (path, im) | _ => None end) log.

Definition empty_world : world := World ∅ [].


(** ** Specification-side definitions *)

(** The interpolation formula [c1 + (c2 - c1) * ratio], truncated to an
    integer, every operation in binary64. *)
Definition chan (c1 c2 : Z) (ratio : F64.float) : Z :=
  F64.trunc (F64.add (F64.of_int_core c1) (F64.mul (F64.of_int_core (c2 - c1)) ratio)).

(** The channel as the specification's testable property 1 words it:
    [round(C1 + (C2-C1)*(x+y)/(W+H))] clamped to [0,255], evaluated as
    Python evaluates that expression. *)
Definition spec_rounded_channel (c1 c2 x y w h : Z) : result Z :=
  q ← F64.truediv ((c2 - c1) * (x + y)) (w + h);
  c ← F64.of_int c1;
  v ← F64.round_to_int (F64.add c q);
  mret (clip8 v).

Definition one : F64.float := F64.of_int_core 1.
Definition zero : F64.float := S754_zero false.

(** [0 <= r < 1] as Python compares floats. *)
Definition in_unit_interval (r : F64.float) : bool :=
  SFleb zero r && SFltb r one.

Definition ratio_check (width height s : Z) : bool :=
  match F64.truediv s (width + height) with
  | Ok r => in_unit_interval r
  | Raise _ => false
  end.

(** Text measurements are pixel counts held in machine integers. *)
Definition font_ok (f : font) : Prop :=
  ∀ text, Z.abs (text_width f text) < 2 ^ 32.

Definition env_ok (E : env) : Prop :=
  font_ok (load_default E) ∧
  ∀ path size f, truetype E path size = Some f → font_ok f.

(** The trace a run adds to the one it started from. *)
Definition added (w w' : world) (evs : list event) : Prop :=
  w_log w' = w_log w ++ evs.

Definition text_events (evs : list event) : list (F64.float * string * font) :=
  omap (λ ev, match ev with EvText _ x _ text _ f => Some (x, text, f) | _ => None end) evs.

(** Sample environments: a font whose every string measures [tw]
    pixels, fonts on disk or not, output directory writable or not, and
    rasterisers that leave the canvas alone. *)
Definition sample_font (name : string) (tw : Z) : font :=
  Font name 10 (λ _, (0, 0, tw, 12)).

Definition sample_env (pil fonts can_write : bool) (tw : Z) : env :=
  Env pil
      (λ path size, if fonts then Some (Font path size (λ _, (0, 0, tw, size))) else None)
      (sample_font "default" tw)
      (λ _, can_write)
      (λ _ _ _ im, im_pixels im)
      (λ _ _ _ im, im_pixels im)
      (λ _ _ _ _ _ im, im_pixels im).

Definition is_byte (v : Z) : Prop := 0 <= v <= 255.

Definition rgb_bytes (px : rgb) : Prop :=
  let '(r, g, b) := px in is_byte r ∧ is_byte g ∧ is_byte b.

Definition in_canvas (width height x y : Z) : Prop :=
  (0 <= x < width) ∧ (0 <= y < height).

(** The pixel store while the gradient loops run: the pixels already
    handled hold the value the loop body computes, and nothing lies
    outside the canvas. *)
Definition pix_ok (width height : Z) (color1 color2 : string)
    (handled : Z → Z → Prop) (m : gmap (Z * Z) rgb) : Prop :=
  (∀ x y, in_canvas width height x y → handled x y →
     ∃ px, gradient_pixel width height color1 color2 x y = Ok px ∧ m !! (x, y) = Some px) ∧
  (∀ x y, ¬ in_canvas width height x y → m !! (x, y) = None).

(** The world while they run: the image under construction at [l], the
    rest of the heap and the trace as they were. *)
Definition at_store (h : gmap loc image) (lg : list event) (l : loc)
    (width height : Z) (m : gmap (Z * Z) rgb) : world :=
  World (<[l := Image width height m]> h) lg.

(** The fonts each card ends up with. *)
Definition og_fonts (E : env) : font * font * font := load_fonts E 90 48 36.
Definition twitter_fonts (E : env) : font * font * font := load_fonts E 85 42 32.

(** [x] is the horizontal offset the code computes for [text] in font [f]. *)
Definition centred (f : font) (text : string) (x : F64.float) : Prop :=
  F64.truediv (WIDTH - text_width f text) 2 = Ok x.

(** The outside calls of one card, in order, given where its three
    lines of text land. *)
Definition og_trace (E : env) (l : loc) (title_x subtitle_x tagline_x : F64.float) : list event :=
  [ EvNew l WIDTH HEIGHT;
    EvEllipse l (WIDTH - 120 * 2 - 50, HEIGHT - 120 * 2 - 30, WIDTH - 50, HEIGHT - 30)
              ACCENT_PURPLE 3;
    EvText l title_x 150 "JustLayMe" WHITE (og_fonts E).1.1;
    EvText l subtitle_x 280 "Unfiltered AI Conversations" ACCENT_CYAN (og_fonts E).1.2;
    EvText l tagline_x 370 "Chat Without Restrictions" LIGHT_GRAY (og_fonts E).2 ].

Definition twitter_trace (E : env) (l : loc) (title_x subtitle_x tagline_x : F64.float) : list event :=
  [ EvNew l WIDTH HEIGHT;
    EvRectangle l (50, 50, 100, 100) ACCENT_PURPLE 3;
    EvText l title_x 120 "JustLayMe" WHITE (twitter_fonts E).1.1;
    EvText l subtitle_x 250 "Unfiltered AI Conversations" ACCENT_PURPLE (twitter_fonts E).1.2;
    EvText l tagline_x 340 "Chat Without Restrictions" WHITE (twitter_fonts E).2 ].

Definition is_card (im : image) : Prop :=
  im_width im = WIDTH ∧ im_height im = HEIGHT.

(** [t] is the trace of the OG card drawn on the image at [l], each
    line of text at the offset the code computes. *)
Definition og_card (E : env) (l : loc) (t : list event) : Prop :=
  ∃ title_x subtitle_x tagline_x,
    t = og_trace E l title_x subtitle_x tagline_x ∧
    centred (og_fonts E).1.1 "JustLayMe" title_x ∧
    centred (og_fonts E).1.2 "Unfiltered AI Conversations" subtitle_x ∧
    centred (og_fonts E).2 "Chat Without Restrictions" tagline_x.

Definition twitter_card (E : env) (l : loc) (t : list event) : Prop :=
  ∃ title_x subtitle_x tagline_x,
    t = twitter_trace E l title_x subtitle_x tagline_x ∧
    centred (twitter_fonts E).1.1 "JustLayMe" title_x ∧
    centred (twitter_fonts E).1.2 "Unfiltered AI Conversations" subtitle_x ∧
    centred (twitter_fonts E).2 "Chat Without Restrictions" tagline_x.

(** The stages of a run of [main], as traces. *)
Definition stage_og (t1 : list event) : list event :=
  [EvPrint "Generating OG and Twitter Card images..."] ++ t1.

Definition stage_og_saved (l1 : loc) (im1 : image) (t1 : list event) : list event :=
  stage_og t1 ++ [EvSave l1 og_path "JPEG" 90 true im1; EvPrint ("Created: " +:+ og_path)].

Definition stage_twitter (l1 : loc) (im1 : image) (t1 t2 : list event) : list event :=
  stage_og_saved l1 im1 t1 ++ t2.

Definition stage_done (l1 : loc) (im1 : image) (t1 : list event)
    (l2 : loc) (im2 : image) (t2 : list event) : list event :=
  stage_twitter l1 im1 t1 t2 ++
  [EvSave l2 twitter_path "JPEG" 90 true im2; EvPrint ("Created: " +:+ twitter_path)] ++
  (EvPrint <$> usage_hint).

(** What [main] does, by which of the two files can be written. *)
Definition main_outcome (E : env) (w : world)
    (l1 : loc) (im1 : image) (t1 : list event)
    (l2 : loc) (im2 : image) (t2 : list event) : result unit * world :=
  if writable E og_path then
    if writable E twitter_path then
      (Ok tt, World (<[l2 := im2]> (<[l1 := im1]> (w_heap w)))
                    (w_log w ++ stage_done l1 im1 t1 l2 im2 t2))
    else
      (Raise OSError, World (<[l2 := im2]> (<[l1 := im1]> (w_heap w)))
                            (w_log w ++ stage_twitter l1 im1 t1 t2))
  else
    (Raise OSError, World (<[l1 := im1]> (w_heap w)) (w_log w ++ stage_og t1)).

(** [x + t <= w], exactly, for a finite double [x] and integers [t], [w]. *)
Definition fits (x : F64.float) (t w : Z) : Prop :=
  F64.ival x + t * F64.U <= w * F64.U.

(** Does the event concern the image at [l]? *)
Definition touches (l : loc) (ev : event) : bool :=
  match ev with
  | EvPrint _ => false
  | EvNew l' _ _ | EvEllipse l' _ _ _ | EvRectangle l' _ _ _
  | EvText l' _ _ _ _ _ | EvSave l' _ _ _ _ _ => bool_decide (l' = l)
  end.

(** Environments for the examples: PIL installed, text 300 or 1300
    pixels wide, fonts missing, output directory writable or not. *)
Definition narrow_env : env := sample_env true false true 300.
Definition wide_env : env := sample_env true false true 1300.
Definition readonly_env : env := sample_env true true false 300.

(** The same environment with other fonts on disk. *)
Definition with_fonts (E : env) (tt : string → Z → option font) (dflt : font) : env :=
  Env (pil_installed E) tt dflt (writable E)
      (paint_ellipse E) (paint_rectangle E) (paint_text E).

Definition fonts_env : env := sample_env true true true 300.

(** The trace a run of the script adds, stage by stage. *)
Definition script_trace (E : env) (l1 : loc) (im1 : image) (t1 : list event)
    (l2 : loc) (im2 : image) (t2 : list event) : list event :=
  if pil_installed E then
    if writable E og_path then
      if writable E twitter_path then stage_done l1 im1 t1 l2 im2 t2
      else stage_twitter l1 im1 t1 t2
    else stage_og t1
  else EvPrint <$> remediation.

(** An image after a drawing call: same size, pixels repainted. *)
Definition repainted (im : image) (paint : image → gmap (Z * Z) rgb) : image :=
  Image (im_width im) (im_height im) (paint im).

(** The picture on each card: the gradient canvas with the shape and
    the three lines of text painted over it, in the order of the calls. *)
Definition og_picture (E : env) (canvas : image) (title_x subtitle_x tagline_x : F64.float) : image :=
  let im1 := repainted canvas
               (paint_ellipse E (WIDTH - 120 * 2 - 50, HEIGHT - 120 * 2 - 30, WIDTH - 50, HEIGHT - 30)
                              ACCENT_PURPLE 3) in
  let im2 := repainted im1 (paint_text E title_x 150 "JustLayMe" WHITE (og_fonts E).1.1) in
  let im3 := repainted im2 (paint_text E subtitle_x 280 "Unfiltered AI Conversations" ACCENT_CYAN
                                       (og_fonts E).1.2) in
  repainted im3 (paint_text E tagline_x 370 "Chat Without Restrictions" LIGHT_GRAY (og_fonts E).2).

Definition twitter_picture (E : env) (canvas : image) (title_x subtitle_x tagline_x : F64.float) : image :=
  let im1 := repainted canvas (paint_rectangle E (50, 50, 100, 100) ACCENT_PURPLE 3) in
  let im2 := repainted im1 (paint_text E title_x 120 "JustLayMe" WHITE (twitter_fonts E).1.1) in
  let im3 := repainted im2 (paint_text E subtitle_x 250 "Unfiltered AI Conversations" ACCENT_PURPLE
                                       (twitter_fonts E).1.2) in
  repainted im3 (paint_text E tagline_x 340 "Chat Without Restrictions" WHITE (twitter_fonts E).2).

(** The fonts of the text drawn, in order. *)
Definition text_fonts (evs : list event) : list font :=
  (λ xtf : F64.float * string * font, xtf.2) <$> text_events evs.

(** The three fonts one [try] block asks for. *)
Definition truetype_fonts (E : env) (title_size subtitle_size tagline_size : Z)
    : option font * option font * option font :=
  (truetype E bold_ttf title_size, truetype E regular_ttf subtitle_size,
   truetype E regular_ttf tagline_size).

(** The paths of the files a trace writes, in order. *)
Definition saved_paths (evs : list event) : list string := fst <$> saved evs.

(** The bold face on disk, the regular face missing. *)
Definition bold_only_env : env :=
  Env true
      (λ path size, if String.eqb path bold_ttf
                    then Some (Font path size (λ _, (0, 0, 300, size)))
                    else None)
      (sample_font "default" 300)
      (λ _, true)
      (λ _ _ _ im, im_pixels im)
      (λ _ _ _ im, im_pixels im)
      (λ _ _ _ _ _ im, im_pixels im).

(** 2^-32, counted in the units of [F64.ival]. *)
Definition ulp32 : Z := 2 ^ 2116.

(** One line of text as [draw.text] gets it: offset, height, string,
    colour, font. *)
Definition text_line : Type := F64.float * Z * string * string * font.

(** The picture [base] with the lines drawn over it, first to last. *)
Definition lettered (E : env) (base : image) (lines : list text_line) : image :=
  foldl (λ im (ln : text_line),
           let '(x, y, text, fill, f) := ln in
           repainted im (paint_text E x y text fill f))
        base lines.

(** Two lines with the same words at the same height in the same
    colour; where they start and in which font they are set may differ. *)
Definition same_words (ln ln' : text_line) : Prop :=
  let '(_, y, text, fill, _) := ln in
  let '(_, y', text', fill', _) := ln' in
  y = y' ∧ text = text' ∧ fill = fill'.

(** Two pictures that differ at most in their glyphs: one and the same
    picture underneath, the same words drawn over it by the same
    rasteriser. *)
Definition same_but_lettering (E : env) (im im' : image) : Prop :=
  ∃ base lines lines',
    Forall2 same_words lines lines' ∧
    im = lettered E base lines ∧ im' = lettered E base lines'.

(** Two events that differ at most in what depends on the font: where a
    line of text starts and in which font it is set, and the glyphs of a
    saved picture. *)
Definition same_but_glyphs (E : env) (ev ev' : event) : Prop :=
  match ev, ev' with
  | EvText l _ y text fill _, EvText l' _ y' text' fill' _ =>
      l = l' ∧ y = y' ∧ text = text' ∧ fill = fill'
  | EvSave l path format quality optimize im, EvSave l' path' format' quality' optimize' im' =>
      l = l' ∧ path = path' ∧ format = format' ∧ quality = quality' ∧ optimize = optimize' ∧
      same_but_lettering E im im'
  | _, _ => ev = ev'
  end.

(** Drawing text never changes the pixel at [p]. *)
Definition text_leaves (E : env) (p : Z * Z) : Prop :=
  ∀ x y text fill f im, paint_text E x y text fill f im !! p = im_pixels im !! p.

(* ================================================================== *)
(** * Part II: facts                                                   *)
(* ================================================================== *)

(** ** Binary64 arithmetic

    [binary_round_aux] is the one rounding routine behind every
    operation of [SpecFloat].  It is characterised first on shift
    records, then on exact values, and the characterisation is lifted to
    conversion, multiplication, addition, division and truncation. *)

Module F64Facts.
Import F64.

#[local] Hint Resolve Z.lt_le_incl : core.

Lemma repr_init N D : 0 <= N -> 0 < D ->
  represents N D (shr_record_of_loc (N / D) (new_location D (N mod D))).
Proof.
  intros HN HD. pose proof (Z.mod_pos_bound N D HD) as Hr.
  unfold represents, loc_rs, new_location.
  destruct (Z.even D) eqn:Ev;
    cbv beta delta [new_location_even new_location_odd];
    destruct (Z.eqb_spec (N mod D) 0) as [E0|E0]; try (cbn; auto; fail).
  - destruct (2 * (N mod D) ?= D); cbn; auto.
  - assert (Hodd : Z.odd D = true) by (rewrite <- Z.negb_even, Ev; reflexivity).
    apply Z.odd_spec in Hodd. destruct Hodd as [k Hk].
    destruct (Z.compare_spec (2 * (N mod D) + 1) D);
    destruct (Z.compare_spec (2 * (N mod D)) D); cbn; auto; lia.
Qed.

Lemma repr_step N K mrs : 0 <= N -> 0 < K ->
  represents N K mrs -> represents N (2 * K) (shr_1 mrs).
Proof.
  intros HN HK [Hm Hl]. destruct mrs as [m r s]. cbn [shr_m shr_r shr_s] in Hm, Hl.
  pose proof (Z.mod_pos_bound N K HK) as Hr.
  pose proof (Z.div_mod N K ltac:(lia)) as Hdm.
  assert (Hq : 0 <= N / K) by (apply Z.div_pos; lia).
  assert (Hrs : orb r s = negb (N mod K =? 0)).
  { unfold loc_rs in Hl. destruct (N mod K =? 0); [|destruct (2 * (N mod K) ?= K)];
      inversion Hl; reflexivity. }
  assert (Hcase : forall p b, m = 2 * p + Z.b2z b -> 0 <= p ->
     represents N (2 * K) {| shr_m := p; shr_r := b; shr_s := orb r s |}).
  { intros p b Hp Hp0.
    assert (Hd : N / (2 * K) = p /\ N mod (2 * K) = Z.b2z b * K + N mod K).
    { assert (N = (2 * K) * p + (Z.b2z b * K + N mod K)) as Heq by (rewrite Hm in Hp; nia).
      assert (0 <= Z.b2z b * K + N mod K < 2 * K) by (destruct b; unfold Z.b2z; lia).
      split; symmetry.
      - eapply Z.div_unique_pos; eauto.
      - eapply Z.mod_unique_pos; eauto. }
    destruct Hd as [Hd1 Hd2]. split; cbn [shr_m shr_r shr_s]; [lia|].
    unfold loc_rs. rewrite Hd2, Hrs.
    destruct b; unfold Z.b2z.
    - destruct (Z.eqb_spec (1 * K + N mod K) 0); [lia|].
      destruct (Z.eqb_spec (N mod K) 0); cbn [negb];
      destruct (Z.compare_spec (2 * (1 * K + N mod K)) (2 * K)); auto; lia.
    - replace (0 * K + N mod K) with (N mod K) by lia.
      destruct (Z.eqb_spec (N mod K) 0); cbn [negb]; auto.
      destruct (Z.compare_spec (2 * (N mod K)) (2 * K)); auto; lia. }
  unfold shr_1.
  destruct m as [|[p|p|]|p]; try lia.
  - apply (Hcase 0 false); unfold Z.b2z; lia.
  - apply (Hcase (Zpos p) true); unfold Z.b2z; lia.
  - apply (Hcase (Zpos p) false); unfold Z.b2z; lia.
  - apply (Hcase 0 true); unfold Z.b2z; lia.
Qed.

Lemma iter_pos_nat {A} (f : A -> A) p x :
  SpecFloat.iter_pos f p x = Nat.iter (Pos.to_nat p) f x.
Proof.
  revert x. induction p as [p IH|p IH|]; intros x; cbn [SpecFloat.iter_pos].
  - rewrite !IH, Pos2Nat.inj_xI, <- Nat.iter_add, Nat.iter_swap.
    replace (2 * Pos.to_nat p)%nat with (Pos.to_nat p + Pos.to_nat p)%nat by lia.
    reflexivity.
  - rewrite !IH, Pos2Nat.inj_xO, <- Nat.iter_add.
    replace (2 * Pos.to_nat p)%nat with (Pos.to_nat p + Pos.to_nat p)%nat by lia.
    reflexivity.
  - reflexivity.
Qed.

Lemma repr_iter N K mrs (n : nat) : 0 <= N -> 0 < K ->
  represents N K mrs -> represents N (K * 2 ^ Z.of_nat n) (Nat.iter n shr_1 mrs).
Proof.
  intros HN HK H. induction n as [|n IH].
  - cbn [Nat.iter]. replace (K * 2 ^ Z.of_nat 0) with K by (cbn; lia). exact H.
  - cbn [Nat.iter].
    replace (K * 2 ^ Z.of_nat (S n)) with (2 * (K * 2 ^ Z.of_nat n)).
    + apply repr_step; auto. apply Z.mul_pos_pos; auto. apply Z.pow_pos_nonneg; lia.
    + rewrite Nat2Z.inj_succ, Z.pow_succ_r by lia. ring.
Qed.

Lemma repr_shr N K mrs e n : 0 <= N -> 0 < K -> 0 <= n ->
  represents N K mrs ->
  represents N (K * 2 ^ n) (fst (shr mrs e n)) /\ snd (shr mrs e n) = e + n.
Proof.
  intros HN HK Hn H. unfold shr. destruct n as [|p|p]; try lia.
  - cbn [fst snd]. replace (K * 2 ^ 0) with K by (cbn; lia). split; [exact H|lia].
  - cbn [fst snd]. split; [|reflexivity].
    rewrite iter_pos_nat, <- (positive_nat_Z p). apply repr_iter; auto.
Qed.

Lemma repr_round N K mrs : 0 <= N -> 0 < K ->
  represents N K mrs ->
  round_nearest_even (shr_m mrs) (loc_of_shr_record mrs) = rne_div N K.
Proof.
  intros HN HK [Hm Hl]. destruct mrs as [m r s]. cbn [shr_m shr_r shr_s] in *.
  pose proof (Z.mod_pos_bound N K HK) as Hr.
  unfold loc_rs in Hl. unfold rne_div. subst m.
  destruct (Z.eqb_spec (N mod K) 0) as [E0|E0].
  - inversion Hl; subst. cbn [loc_of_shr_record round_nearest_even].
    destruct (Z.compare_spec (2 * (N mod K)) K); lia.
  - destruct (2 * (N mod K) ?= K); inversion Hl; subst; reflexivity.
Qed.

Lemma digits2_pos_bounds p :
  2 ^ (Zpos (digits2_pos p) - 1) <= Zpos p < 2 ^ Zpos (digits2_pos p).
Proof.
  induction p as [p IH|p IH|]; cbn [digits2_pos].
  - rewrite Pos2Z.inj_succ, (Pos2Z.inj_xI p).
    replace (Z.succ (Zpos (digits2_pos p)) - 1) with (Z.succ (Zpos (digits2_pos p) - 1)) by lia.
    rewrite !Z.pow_succ_r by lia. lia.
  - rewrite Pos2Z.inj_succ, (Pos2Z.inj_xO p).
    replace (Z.succ (Zpos (digits2_pos p)) - 1) with (Z.succ (Zpos (digits2_pos p) - 1)) by lia.
    rewrite !Z.pow_succ_r by lia. lia.
  - cbn. lia.
Qed.

Lemma Zdigits2_bounds q : 0 < q ->
  0 < Zdigits2 q /\ 2 ^ (Zdigits2 q - 1) <= q < 2 ^ Zdigits2 q.
Proof.
  destruct q as [|p|p]; try lia. intros _. cbn [Zdigits2].
  split; [lia|apply digits2_pos_bounds].
Qed.

Lemma Zdigits2_le q k : 0 <= q -> 0 <= k -> q < 2 ^ k -> Zdigits2 q <= k.
Proof.
  intros Hq Hk H. destruct (Z.eq_dec q 0) as [->|Hne]; [cbn; lia|].
  destruct (Zdigits2_bounds q ltac:(lia)) as [Hd [Hlo _]].
  destruct (Z_lt_le_dec k (Zdigits2 q)); [|lia].
  assert (2 ^ k <= 2 ^ (Zdigits2 q - 1)) by (apply Z.pow_le_mono_r; lia). lia.
Qed.

Lemma Zdigits2_ge q k : 0 <= k -> 2 ^ k <= q -> k + 1 <= Zdigits2 q.
Proof.
  intros Hk H. assert (0 < 2 ^ k) by (apply Z.pow_pos_nonneg; lia).
  destruct (Zdigits2_bounds q ltac:(lia)) as [Hd [_ Hhi]].
  destruct (Z_lt_le_dec k (Zdigits2 q)); [lia|].
  assert (2 ^ Zdigits2 q <= 2 ^ k) by (apply Z.pow_le_mono_r; lia). lia.
Qed.

Lemma fexp_eq x : fexp prec emax x = Z.max (x - 53) (-1074).
Proof. reflexivity. Qed.

Lemma rne_div_bounds N K : 0 < K -> N / K <= rne_div N K <= N / K + 1.
Proof.
  intros HK. unfold rne_div.
  destruct (2 * (N mod K) ?= K); [destruct (Z.even (N / K))| |]; lia.
Qed.

Lemma rne_div_exact N K : 0 < K -> N mod K = 0 -> rne_div N K = N / K.
Proof.
  intros HK H0. unfold rne_div. rewrite H0.
  destruct (Z.compare_spec (2 * 0) K); lia.
Qed.

Lemma bra_raw s N D e : 0 <= N -> 0 < D ->
  let q := N / D in
  let n := fexp prec emax (Zdigits2 q + e) - e in
  0 <= n ->
  let mr := rne_div N (D * 2 ^ n) in
  0 <= mr <= 2 ^ 53 /\
  binary_round_aux prec emax s q e (new_location D (N mod D)) = bra_result s mr (e + n).
Proof.
  intros HN HD q n Hn mr.
  assert (Hq : 0 <= q) by (apply Z.div_pos; lia).
  assert (H2n : 0 < 2 ^ n) by (apply Z.pow_pos_nonneg; lia).
  assert (HK : 0 < D * 2 ^ n) by (apply Z.mul_pos_pos; lia).
  assert (Hfl : 0 <= N / (D * 2 ^ n) < 2 ^ 53).
  { rewrite <- Z.div_div by lia. fold q. split; [apply Z.div_pos; lia|].
    apply Z.div_lt_upper_bound; [lia|].
    destruct (Z.eq_dec q 0) as [E0|E0]; [rewrite E0; lia|].
    destruct (Zdigits2_bounds q ltac:(lia)) as [Hd [_ Hhi]].
    assert (2 ^ Zdigits2 q <= 2 ^ (n + 53)).
    { apply Z.pow_le_mono_r; [lia|]. unfold n. rewrite fexp_eq. lia. }
    rewrite Z.pow_add_r in H by lia. lia. }
  assert (Hmr : 0 <= mr <= 2 ^ 53).
  { pose proof (rne_div_bounds N (D * 2 ^ n) HK). fold mr in H. lia. }
  split; [exact Hmr|].
  unfold binary_round_aux, shr_fexp. fold n.
  pose proof (repr_shr N D (shr_record_of_loc q (new_location D (N mod D))) e n
                HN HD Hn (repr_init N D HN HD)) as [Hrep He].
  destruct (shr (shr_record_of_loc q (new_location D (N mod D))) e n) as [mrs' e'].
  cbn [fst snd] in Hrep, He. subst e'.
  rewrite (repr_round N (D * 2 ^ n) mrs' HN HK Hrep). fold mr.
  assert (HE : -1074 <= e + n) by (unfold n; rewrite fexp_eq; lia).
  unfold bra_result.
  destruct (Z.eqb_spec mr 0) as [E0|E0].
  - rewrite E0. cbn [Zdigits2]. rewrite fexp_eq. unfold shr.
    destruct (Z.max (0 + (e + n) - 53) (-1074) - (e + n)) eqn:Hs; try lia; reflexivity.
  - destruct (Z.ltb_spec mr (2 ^ 53)) as [Hlt|Hge].
    + assert (Zdigits2 mr <= 53) by (apply Zdigits2_le; lia).
      rewrite fexp_eq. unfold shr.
      destruct (Z.max (Zdigits2 mr + (e + n) - 53) (-1074) - (e + n)) eqn:Hs; try lia;
        cbn [shr_record_of_loc shr_m]; destruct mr; try lia; reflexivity.
    + assert (mr = 2 ^ 53) as -> by lia.
      rewrite fexp_eq.
      replace (Z.max (Zdigits2 (2 ^ 53) + (e + n) - 53) (-1074) - (e + n)) with 1
        by (change (Zdigits2 (2 ^ 53)) with 54; lia).
      reflexivity.
Qed.

Lemma rne_div_scale N K c : 0 < K -> 0 < c -> rne_div (N * c) (K * c) = rne_div N K.
Proof.
  intros HK Hc. unfold rne_div.
  rewrite Z.div_mul_cancel_r, Z.mul_mod_distr_r by lia.
  destruct (Z.compare_spec (2 * (N mod K * c)) (K * c));
    destruct (Z.compare_spec (2 * (N mod K)) K); try reflexivity; nia.
Qed.

Lemma rne_div_mono N1 K1 N2 K2 : 0 < K1 -> 0 < K2 ->
  N1 * K2 <= N2 * K1 -> rne_div N1 K1 <= rne_div N2 K2.
Proof.
  intros H1 H2 Hle.
  pose proof (Z.div_mod N1 K1 ltac:(lia)) as E1.
  pose proof (Z.div_mod N2 K2 ltac:(lia)) as E2.
  pose proof (Z.mod_pos_bound N1 K1 H1) as B1.
  pose proof (Z.mod_pos_bound N2 K2 H2) as B2.
  pose proof (rne_div_bounds N1 K1 H1) as R1.
  pose proof (rne_div_bounds N2 K2 H2) as R2.
  unfold rne_div in *.
  set (q1 := N1 / K1) in *. set (q2 := N2 / K2) in *.
  set (r1 := N1 mod K1) in *. set (r2 := N2 mod K2) in *.
  clearbody q1 q2 r1 r2.
  assert (HK : 0 < K1 * K2) by nia.
  assert (Hq : q1 <= q2).
  { destruct (Z_le_gt_dec q1 q2); [assumption|exfalso].
    assert (K1 * K2 * (q2 + 1) <= K1 * K2 * q1) by (apply Z.mul_le_mono_nonneg_l; lia).
    nia. }
  destruct (Z.eq_dec q1 q2) as [Heq|Hne]; [|lia].
  subst q2.
  assert (Hr : r1 * K2 <= r2 * K1) by nia.
  destruct (Z.compare_spec (2 * r1) K1);
  destruct (Z.compare_spec (2 * r2) K2);
  try destruct (Z.even q1); try lia; nia.
Qed.

Lemma pow2_pos k : 0 <= k -> 0 < 2 ^ k.
Proof. intros. apply Z.pow_pos_nonneg; lia. Qed.

Lemma pow2_split a b : 0 <= a -> 0 <= b -> 2 ^ (a + b) = 2 ^ a * 2 ^ b.
Proof. intros. apply Z.pow_add_r; lia. Qed.

Lemma pow2_le a b : 0 <= a <= b -> 2 ^ a <= 2 ^ b.
Proof. intros. apply Z.pow_le_mono_r; lia. Qed.

Lemma rne_upper X K B : 0 < K -> X < B * K -> rne_div X K <= B.
Proof.
  intros HK H. pose proof (rne_div_bounds X K HK).
  assert (X / K < B) by (apply Z.div_lt_upper_bound; lia). lia.
Qed.

Lemma rne_lower X K B : 0 < K -> B * K <= X -> B <= rne_div X K.
Proof.
  intros HK H. pose proof (rne_div_bounds X K HK).
  assert (B <= X / K) by (apply Z.div_le_lower_bound; lia). lia.
Qed.

Lemma Rnd_mono X1 D1 v1 X2 D2 v2 : 0 < D1 -> 0 < D2 ->
  Rnd X1 D1 v1 -> Rnd X2 D2 v2 -> X1 * D2 <= X2 * D1 -> v1 <= v2.
Proof.
  intros HD1 HD2 (E1 & HE1 & -> & Hlo1 & Hhi1) (E2 & HE2 & -> & Hlo2 & Hhi2) Hle.
  pose proof (pow2_pos E1 ltac:(lia)) as P1.
  pose proof (pow2_pos E2 ltac:(lia)) as P2.
  destruct (Z.lt_trichotomy E1 E2) as [Hlt|[Heq|Hgt]].
  - assert (Hlo : 2 ^ (52 + E2) * D2 <= X2) by lia.
    assert (U1 : rne_div X1 (D1 * 2 ^ E1) <= 2 ^ 53).
    { apply rne_upper; [nia|]. rewrite pow2_split in Hhi1 by lia. nia. }
    assert (L2 : 2 ^ 52 <= rne_div X2 (D2 * 2 ^ E2)).
    { apply rne_lower; [nia|]. rewrite pow2_split in Hlo by lia. nia. }
    assert (2 ^ 53 * 2 ^ E1 <= 2 ^ 52 * 2 ^ E2).
    { rewrite <- !pow2_split by lia. apply pow2_le. lia. }
    nia.
  - subst E2.
    assert (rne_div X1 (D1 * 2 ^ E1) <= rne_div X2 (D2 * 2 ^ E1))
      by (apply rne_div_mono; nia).
    nia.
  - exfalso.
    assert (Hlo : 2 ^ (52 + E1) * D1 <= X1) by lia.
    assert (2 ^ (53 + E2) <= 2 ^ (52 + E1)) by (apply pow2_le; lia).
    pose proof (pow2_pos (53 + E2) ltac:(lia)).
    assert (X2 * D1 < 2 ^ (52 + E1) * D2 * D1) by nia.
    nia.
Qed.

Lemma Rnd_scale X D v c : 0 < D -> 0 < c -> Rnd X D v -> Rnd (X * c) (D * c) v.
Proof.
  intros HD Hc (E & HE & Hv & Hlo & Hhi). exists E. split; [lia|].
  pose proof (pow2_pos E ltac:(lia)).
  split; [|split].
  - replace (D * c * 2 ^ E) with (D * 2 ^ E * c) by ring.
    rewrite rne_div_scale by nia. exact Hv.
  - destruct Hlo as [?|Hlo]; [left; lia|right; nia].
  - nia.
Qed.

Lemma Rnd_unscale X D v c : 0 < D -> 0 < c -> Rnd (X * c) (D * c) v -> Rnd X D v.
Proof.
  intros HD Hc (E & HE & Hv & Hlo & Hhi). exists E. split; [lia|].
  pose proof (pow2_pos E ltac:(lia)).
  split; [|split].
  - replace (D * c * 2 ^ E) with (D * 2 ^ E * c) in Hv by ring.
    rewrite rne_div_scale in Hv by nia. exact Hv.
  - destruct Hlo as [?|Hlo]; [left; lia|right; nia].
  - nia.
Qed.

Lemma Rnd_exact m E D : 0 < D -> 1074 <= E -> 0 <= m < 2 ^ 53 ->
  (E = 1074 \/ 2 ^ 52 <= m) -> Rnd (m * 2 ^ E * D) D (m * 2 ^ E).
Proof.
  intros HD HE Hm Hc. exists E. split; [lia|].
  pose proof (pow2_pos E ltac:(lia)).
  split; [|split].
  - rewrite rne_div_exact.
    + replace (m * 2 ^ E * D) with (m * (D * 2 ^ E)) by ring.
      rewrite Z.div_mul by nia. reflexivity.
    + nia.
    + replace (m * 2 ^ E * D) with (m * (D * 2 ^ E)) by ring. apply Z.mod_mul. nia.
  - destruct Hc as [?|Hc]; [left; lia|right]. rewrite pow2_split by lia. nia.
  - rewrite pow2_split by lia. nia.
Qed.

Lemma fin_ok_inv s m e : fin_ok (S754_finite s m e) ->
  -1074 <= e <= 971 /\ Zpos m < 2 ^ 53 /\ (e = -1074 \/ 2 ^ 52 <= Zpos m).
Proof.
  intros [_ Hv]. cbn [valid_binary] in Hv. unfold bounded, canonical_mantissa in Hv.
  apply andb_true_iff in Hv. destruct Hv as [Hc Hb].
  apply Z.eqb_eq in Hc. apply Z.leb_le in Hb. rewrite fexp_eq in Hc.
  change (emax - prec) with 971 in Hb.
  pose proof (digits2_pos_bounds m) as [Hlo Hhi].
  assert (Hd : Zpos (digits2_pos m) = 53 \/ (e = -1074 /\ Zpos (digits2_pos m) <= 53)) by lia.
  split; [lia|]. destruct Hd as [Hd|[He Hd]].
  - rewrite Hd in *. change (53 - 1) with 52 in Hlo. split; [lia|right; lia].
  - split; [|left; exact He].
    assert (2 ^ Zpos (digits2_pos m) <= 2 ^ 53) by (apply pow2_le; lia). lia.
Qed.

Lemma fin_ok_intro s m e : -1074 <= e <= 971 -> 0 < m < 2 ^ 53 ->
  (e = -1074 \/ 2 ^ 52 <= m) -> fin_ok (S754_finite s (Z.to_pos m) e).
Proof.
  intros He Hm Hc. split; [reflexivity|].
  cbn [valid_binary]. unfold bounded, canonical_mantissa.
  apply andb_true_iff. split; [|apply Z.leb_le; change (emax - prec) with 971; lia].
  apply Z.eqb_eq. rewrite fexp_eq.
  assert (Hd1 : Zdigits2 m <= 53) by (apply Zdigits2_le; lia).
  destruct m as [|p|p]; try lia. cbn [Zdigits2] in Hd1. rewrite Pos2Z.id.
  destruct Hc as [->|Hc]; [lia|].
  pose proof (Zdigits2_ge (Zpos p) 52 ltac:(lia) Hc) as Hd2. cbn [Zdigits2] in Hd2. lia.
Qed.

Lemma fin_ok_zero s : fin_ok (S754_zero s).
Proof. split; reflexivity. Qed.

Lemma bra_value s N D e : 0 <= N -> 0 < D -> -2148 <= e ->
  0 <= fexp prec emax (Zdigits2 (N / D) + e) - e ->
  N * 2 ^ (e + 2148) < OV * D ->
  let f := binary_round_aux prec emax s (N / D) e (new_location D (N mod D)) in
  fin_ok f /\ exists v, Rnd (N * 2 ^ (e + 2148)) D v /\ ival f = cond_Zopp s v.
Proof.
  intros HN HD He Hn Hov f.
  destruct (bra_raw s N D e HN HD Hn) as [Hmr Hf]. fold f in Hf.
  set (q := N / D) in *. set (n := fexp prec emax (Zdigits2 q + e) - e) in *.
  set (mr := rne_div N (D * 2 ^ n)) in *.
  assert (HE : -1074 <= e + n) by (unfold n; rewrite fexp_eq; lia).
  pose proof (pow2_pos n Hn) as P2n.
  pose proof (pow2_pos (e + 2148) ltac:(lia)) as P2e.
  assert (Hq0 : 0 <= q) by (apply Z.div_pos; lia).
  pose proof (Z.div_mod N D ltac:(lia)) as Hdm. fold q in Hdm.
  pose proof (Z.mod_pos_bound N D HD) as Hmod.
  assert (Hup : N < 2 ^ (53 + n) * D).
  { destruct (Z.eq_dec q 0) as [E0|E0].
    - pose proof (pow2_pos (53 + n) ltac:(lia)). nia.
    - destruct (Zdigits2_bounds q ltac:(lia)) as [Hd [_ Hhi]].
      assert (2 ^ Zdigits2 q <= 2 ^ (53 + n)).
      { apply pow2_le. unfold n. rewrite fexp_eq. lia. }
      nia. }
  assert (Hlow : e + n = -1074 \/ 2 ^ (52 + n) * D <= N).
  { destruct (Z.eq_dec (e + n) (-1074)) as [?|Hne]; [left; assumption|right].
    assert (Hn' : n = Zdigits2 q - 53) by (unfold n in *; rewrite fexp_eq in *; lia).
    destruct (Z.eq_dec q 0) as [E0|E0]; [rewrite E0 in Hn'; cbn in Hn'; lia|].
    destruct (Zdigits2_bounds q ltac:(lia)) as [Hd [Hlo _]].
    replace (Zdigits2 q - 1) with (52 + n) in Hlo by lia. nia. }
  assert (HR : Rnd (N * 2 ^ (e + 2148)) D (mr * 2 ^ (e + n + 2148))).
  { exists (e + n + 2148). split; [lia|]. split; [|split].
    - replace (D * 2 ^ (e + n + 2148)) with (D * 2 ^ n * 2 ^ (e + 2148))
        by (replace (e + n + 2148) with (n + (e + 2148)) by lia;
            rewrite (pow2_split n (e + 2148)) by lia; ring).
      rewrite rne_div_scale by nia. reflexivity.
    - destruct Hlow as [?|Hl]; [left; lia|right].
      replace (52 + (e + n + 2148)) with ((52 + n) + (e + 2148)) by lia.
      rewrite (pow2_split (52 + n) (e + 2148)) by lia. nia.
    - replace (53 + (e + n + 2148)) with ((53 + n) + (e + 2148)) by lia.
      rewrite (pow2_split (53 + n) (e + 2148)) by lia. nia. }
  assert (Hno : mr <> 0 -> e + n + 1 <= 971).
  { intros Hmr0. destruct (HR) as (E & HE1 & Hv & Hlo & Hhi).
    destruct Hlow as [?|Hl]; [lia|].
    assert (2 ^ (52 + n) * D * 2 ^ (e + 2148) < OV * D) by nia.
    replace (2 ^ (52 + n) * D * 2 ^ (e + 2148)) with (2 ^ ((52 + n) + (e + 2148)) * D) in H
      by (rewrite (pow2_split (52 + n) (e + 2148)) by lia; ring).
    destruct (Z_le_gt_dec (e + n + 1) 971); [assumption|exfalso].
    assert (OV <= 2 ^ (52 + n + (e + 2148))) by (unfold OV; apply pow2_le; lia).
    nia. }
  assert (Hml : e + n = -1074 \/ 2 ^ 52 <= mr).
  { destruct Hlow as [?|Hl]; [left; assumption|right].
    apply rne_lower; [nia|]. rewrite (pow2_split 52 n) in Hl by lia. nia. }
  rewrite Hf. unfold bra_result. change (emax - prec) with 971.
  destruct (Z.eqb_spec mr 0) as [E0|E0].
  - split; [apply fin_ok_zero|]. exists (mr * 2 ^ (e + n + 2148)).
    split; [exact HR|]. rewrite E0. destruct s; reflexivity.
  - specialize (Hno E0).
    destruct (Z.ltb_spec mr (2 ^ 53)) as [Hlt|Hge].
    + destruct (Z.leb_spec (e + n) 971); [|lia].
      split; [apply fin_ok_intro; lia|].
      exists (mr * 2 ^ (e + n + 2148)). split; [exact HR|].
      cbn [ival]. rewrite Z2Pos.id by lia. reflexivity.
    + destruct (Z.leb_spec (e + n + 1) 971); [|lia].
      split; [apply fin_ok_intro; try lia; change (2 ^ 52) with 4503599627370496; lia|].
      exists (mr * 2 ^ (e + n + 2148)). split; [exact HR|].
      cbn [ival]. rewrite Z2Pos.id by (apply pow2_pos; lia).
      assert (mr = 2 ^ 53) as -> by lia.
      replace (e + n + 1 + 2148) with (1 + (e + n + 2148)) by lia.
      rewrite (pow2_split 1) by lia. change (2 ^ 53) with (2 ^ 52 * 2 ^ 1).
      f_equal. ring.
Qed.

Lemma Rnd_nonneg X D v : 0 < D -> 0 <= X -> Rnd X D v -> 0 <= v.
Proof.
  intros HD HX (E & HE & -> & _ & _). pose proof (pow2_pos E ltac:(lia)).
  assert (0 <= rne_div X (D * 2 ^ E)) by (apply rne_lower; nia). nia.
Qed.

Lemma Rnd_zero D v : 0 < D -> Rnd 0 D v -> v = 0.
Proof.
  intros HD (E & HE & -> & _ & _). pose proof (pow2_pos E ltac:(lia)).
  rewrite rne_div_exact by (try apply Z.mod_0_l; nia). rewrite Z.div_0_l by nia. lia.
Qed.

Lemma SRnd_mono X1 D1 v1 X2 D2 v2 : 0 < D1 -> 0 < D2 ->
  SRnd X1 D1 v1 -> SRnd X2 D2 v2 -> X1 * D2 <= X2 * D1 -> v1 <= v2.
Proof.
  intros HD1 HD2 [[P1 R1]|[P1 R1]] [[P2 R2]|[P2 R2]] Hle.
  - apply (Rnd_mono X1 D1 v1 X2 D2 v2); auto.
  - assert (X1 = 0) by nia. assert (X2 = 0) by nia. subst.
    apply Rnd_zero in R1, R2; auto. lia.
  - apply Rnd_nonneg in R1, R2; auto; lia.
  - assert (- v2 <= - v1); [|lia].
    apply (Rnd_mono (- X2) D2 (- v2) (- X1) D1 (- v1)); auto. nia.
Qed.

Lemma SRnd_scale X D v c : 0 < D -> 0 < c -> SRnd X D v -> SRnd (X * c) (D * c) v.
Proof.
  intros HD Hc [[P R]|[P R]]; [left|right]; (split; [nia|]).
  - apply Rnd_scale; auto.
  - replace (- (X * c)) with (- X * c) by ring. apply Rnd_scale; auto.
Qed.

Lemma SRnd_unscale X D v c : 0 < D -> 0 < c -> SRnd (X * c) (D * c) v -> SRnd X D v.
Proof.
  intros HD Hc [[P R]|[P R]]; [left|right]; (split; [nia|]).
  - apply (Rnd_unscale X D v c); auto.
  - replace (- (X * c)) with (- X * c) in R by ring. apply (Rnd_unscale (- X) D (- v) c); auto.
Qed.

Lemma SRnd_of_Rnd (s : bool) X D v : 0 <= X -> Rnd X D v ->
  SRnd (cond_Zopp s X) D (cond_Zopp s v).
Proof.
  intros HX R. destruct s; cbn [cond_Zopp]; [right|left]; (split; [lia|]).
  - rewrite !Z.opp_involutive. exact R.
  - exact R.
Qed.

Lemma SRnd_exact f D : 0 < D -> fin_ok f -> SRnd (ival f * D) D (ival f).
Proof.
  intros HD Hf. destruct f as [s| | |s m e].
  - cbn [ival]. left. split; [lia|].
    replace (0 * D) with (0 * 2 ^ 1074 * D) by ring.
    apply (Rnd_exact 0 1074 D); lia.
  - destruct Hf as [Hf _]. discriminate.
  - destruct Hf as [Hf _]. discriminate.
  - destruct (fin_ok_inv s m e Hf) as (He & Hm & Hc). cbn [ival].
    pose proof (pow2_pos (e + 2148) ltac:(lia)).
    replace (cond_Zopp s (Zpos m * 2 ^ (e + 2148)) * D)
      with (cond_Zopp s (Zpos m * 2 ^ (e + 2148) * D)) by (destruct s; cbn [cond_Zopp]; ring).
    apply SRnd_of_Rnd; [nia|]. apply Rnd_exact; lia.
Qed.

Lemma rounds_mono X1 D1 f1 X2 D2 f2 : 0 < D1 -> 0 < D2 ->
  rounds X1 D1 f1 -> rounds X2 D2 f2 -> X1 * D2 <= X2 * D1 -> ival f1 <= ival f2.
Proof.
  intros ? ? [_ R1] [_ R2] ?.
  apply (SRnd_mono X1 D1 (ival f1) X2 D2 (ival f2)); auto.
Qed.

Lemma rounds_le_float X D f g : 0 < D -> rounds X D f -> fin_ok g ->
  X <= ival g * D -> ival f <= ival g.
Proof.
  intros HD [_ R] Hg Hle.
  apply (SRnd_mono X D (ival f) (ival g * 1) 1 (ival g)); auto; try lia.
  apply SRnd_exact; auto; lia.
Qed.

Lemma rounds_ge_float X D f g : 0 < D -> rounds X D f -> fin_ok g ->
  ival g * D <= X -> ival g <= ival f.
Proof.
  intros HD [_ R] Hg Hle.
  apply (SRnd_mono (ival g * 1) 1 (ival g) X D (ival f)); auto; try lia.
  apply SRnd_exact; auto; lia.
Qed.

Lemma pos_iter_xO m k : Zpos (Pos.iter xO m k) = Zpos m * 2 ^ Zpos k.
Proof.
  induction k as [|k IH] using Pos.peano_ind.
  - cbn. lia.
  - rewrite Pos.iter_succ, Pos2Z.inj_succ, Z.pow_succ_r by lia.
    rewrite (Pos2Z.inj_xO (Pos.iter xO m k)), IH. ring.
Qed.

Lemma shl_align_value m e e' : e' <= e ->
  Zpos (fst (shl_align m e e')) = Zpos m * 2 ^ (e - e') /\
  snd (shl_align m e e') = e'.
Proof.
  intros Hle. unfold shl_align. destruct (e' - e) as [|k|k] eqn:Hk; try lia; cbn [fst snd].
  - replace (e - e') with 0 by lia. split; lia.
  - rewrite pos_iter_xO. replace (e - e') with (Zpos k) by lia. split; reflexivity.
Qed.

Lemma Zdigits2_shift m k : 0 < m -> 0 <= k -> Zdigits2 (m * 2 ^ k) = Zdigits2 m + k.
Proof.
  intros Hm Hk. destruct (Zdigits2_bounds m Hm) as [Hd [Hlo Hhi]].
  pose proof (pow2_pos k Hk).
  apply Z.le_antisymm.
  - apply Zdigits2_le; try nia. rewrite pow2_split by lia. nia.
  - replace (Zdigits2 m + k) with ((Zdigits2 m - 1 + k) + 1) by lia.
    apply Zdigits2_ge; [lia|]. rewrite pow2_split by lia. nia.
Qed.

Lemma bra_exact_value s N e : 0 < N -> -2148 <= e ->
  0 <= fexp prec emax (Zdigits2 N + e) - e ->
  N * 2 ^ (e + 2148) < OV ->
  let f := binary_round_aux prec emax s N e loc_Exact in
  fin_ok f /\ exists v, Rnd (N * 2 ^ (e + 2148)) 1 v /\ ival f = cond_Zopp s v.
Proof.
  intros HN He Hn Hov.
  pose proof (bra_value s N 1 e ltac:(lia) ltac:(lia) He) as H.
  rewrite Z.div_1_r, Z.mod_1_r in H. apply H; [exact Hn|lia].
Qed.

Lemma binary_round_value s m e : -2148 <= e ->
  Zpos m * 2 ^ (e + 2148) < OV ->
  let f := binary_round prec emax s m e in
  fin_ok f /\ exists v, Rnd (Zpos m * 2 ^ (e + 2148)) 1 v /\ ival f = cond_Zopp s v.
Proof.
  intros He Hov. unfold binary_round.
  set (e' := fexp prec emax (Zpos (digits2_pos m) + e)).
  destruct (Z_le_gt_dec e e') as [Hle|Hgt].
  - assert (Hsh : shl_align m e e' = (m, e)).
    { unfold shl_align. destruct (e' - e) eqn:Hk; try lia; reflexivity. }
    rewrite Hsh. apply bra_exact_value; try lia.
    cbn [Zdigits2]. fold e'. lia.
  - destruct (shl_align_value m e e' ltac:(lia)) as [Hm' He'].
    destruct (shl_align m e e') as [mz ez]. cbn [fst snd] in Hm', He'. subst ez.
    assert (He'1 : -1074 <= e') by (unfold e'; rewrite fexp_eq; lia).
    assert (HX : Zpos mz * 2 ^ (e' + 2148) = Zpos m * 2 ^ (e + 2148)).
    { rewrite Hm'. replace (e + 2148) with ((e - e') + (e' + 2148)) by lia.
      rewrite (pow2_split (e - e') (e' + 2148)) by lia. ring. }
    rewrite <- HX. apply bra_exact_value; try lia.
    rewrite Hm', Zdigits2_shift by lia. cbn [Zdigits2].
    replace (Zpos (digits2_pos m) + (e - e') + e') with (Zpos (digits2_pos m) + e) by lia.
    fold e'. lia.
Qed.

Lemma binary_normalize_rounds z e : -2148 <= e ->
  Z.abs z * 2 ^ (e + 2148) < OV ->
  rounds (z * 2 ^ (e + 2148)) 1 (binary_normalize prec emax z e false).
Proof.
  intros He Hov. pose proof (pow2_pos (e + 2148) ltac:(lia)) as P.
  destruct z as [|p|p]; cbn [binary_normalize].
  - split; [apply fin_ok_zero|]. left. split; [lia|]. apply (Rnd_exact 0 1074 1); lia.
  - destruct (binary_round_value false p e He Hov) as [Hf (v & HR & Hv)].
    split; [exact Hf|]. rewrite Hv.
    apply (SRnd_of_Rnd false (Zpos p * 2 ^ (e + 2148)) 1 v); [|exact HR].
    apply Z.mul_nonneg_nonneg; lia.
  - destruct (binary_round_value true p e He Hov) as [Hf (v & HR & Hv)].
    split; [exact Hf|]. rewrite Hv.
    replace (Zneg p * 2 ^ (e + 2148)) with (cond_Zopp true (Zpos p * 2 ^ (e + 2148)))
      by (cbn [cond_Zopp]; lia).
    apply (SRnd_of_Rnd true (Zpos p * 2 ^ (e + 2148)) 1 v); [|exact HR].
    apply Z.mul_nonneg_nonneg; lia.
Qed.

Lemma Rnd_unique X D v1 v2 : 0 < D -> Rnd X D v1 -> Rnd X D v2 -> v1 = v2.
Proof.
  intros HD R1 R2.
  pose proof (Rnd_mono X D v1 X D v2 HD HD R1 R2 ltac:(lia)).
  pose proof (Rnd_mono X D v2 X D v1 HD HD R2 R1 ltac:(lia)). lia.
Qed.

Lemma SRnd_unique X D v1 v2 : 0 < D -> SRnd X D v1 -> SRnd X D v2 -> v1 = v2.
Proof.
  intros HD R1 R2.
  pose proof (SRnd_mono X D v1 X D v2 HD HD R1 R2 ltac:(lia)).
  pose proof (SRnd_mono X D v2 X D v1 HD HD R2 R1 ltac:(lia)). lia.
Qed.

Lemma Rnd_dyadic z k : 0 <= z < 2 ^ 53 -> 1126 <= k -> Rnd (z * 2 ^ k) 1 (z * 2 ^ k).
Proof.
  intros Hz Hk. destruct (Z.eq_dec z 0) as [->|Hne].
  - apply (Rnd_exact 0 1074 1); lia.
  - destruct (Zdigits2_bounds z ltac:(lia)) as [Hd [Hlo Hhi]].
    assert (Hd53 : Zdigits2 z <= 53) by (apply Zdigits2_le; lia).
    set (d := Zdigits2 z) in *.
    pose proof (pow2_pos (53 - d) ltac:(lia)) as P.
    assert (Hv : z * 2 ^ k = z * 2 ^ (53 - d) * 2 ^ (k - (53 - d)) * 1).
    { replace k with ((53 - d) + (k - (53 - d))) at 1 by lia.
      rewrite (pow2_split (53 - d) (k - (53 - d))) by lia. ring. }
    rewrite Hv at 1.
    replace (z * 2 ^ k) with (z * 2 ^ (53 - d) * 2 ^ (k - (53 - d))) by lia.
    apply Rnd_exact; try lia.
    + split; [nia|]. replace 53 with (d + (53 - d)) at 2 by lia.
      rewrite (pow2_split d (53 - d)) by lia. nia.
    + right. replace 52 with ((d - 1) + (53 - d)) at 1 by lia.
      rewrite (pow2_split (d - 1) (53 - d)) by lia. nia.
Qed.

Lemma SRnd_dyadic z k : Z.abs z < 2 ^ 53 -> 1126 <= k -> SRnd (z * 2 ^ k) 1 (z * 2 ^ k).
Proof.
  intros Hz Hk. pose proof (pow2_pos k ltac:(lia)).
  destruct (Z_le_gt_dec 0 z).
  - left. split; [nia|]. apply Rnd_dyadic; lia.
  - right. split; [nia|]. replace (- (z * 2 ^ k)) with (- z * 2 ^ k) by ring.
    apply Rnd_dyadic; lia.
Qed.

Lemma U_pos : 0 < U.
Proof. apply pow2_pos. lia. Qed.

Lemma OV_U : 2 ^ 1023 * U = OV.
Proof. unfold U, OV. rewrite <- pow2_split by lia. f_equal. Qed.

Lemma OV_small k : 0 <= k <= 1023 -> 2 ^ k * U <= OV.
Proof.
  intros Hk. rewrite <- OV_U. pose proof U_pos.
  assert (2 ^ k <= 2 ^ 1023) by (apply pow2_le; lia).
  apply Z.mul_le_mono_nonneg_r; lia.
Qed.

Lemma of_int_core_rounds z : Z.abs z * U < OV -> rounds (z * U) 1 (of_int_core z).
Proof. intros Hz. apply (binary_normalize_rounds z 0); [lia|exact Hz]. Qed.

Lemma of_int_core_exact z : Z.abs z < 2 ^ 53 ->
  fin_ok (of_int_core z) /\ ival (of_int_core z) = z * U.
Proof.
  intros Hz.
  assert (Hov : Z.abs z * U < OV).
  { pose proof (OV_small 53 ltac:(lia)). pose proof U_pos.
    assert (Z.abs z * U < 2 ^ 53 * U) by (apply Z.mul_lt_mono_pos_r; lia). lia. }
  destruct (of_int_core_rounds z Hov) as [Hf HR]. split; [exact Hf|].
  apply (SRnd_unique (z * U) 1); [lia|exact HR|].
  apply SRnd_dyadic; lia.
Qed.

Lemma ival_finite s m e :
  ival (S754_finite s m e) = cond_Zopp s (Zpos m * 2 ^ (e + 2148)).
Proof. reflexivity. Qed.

Lemma cond_Zopp_mul s1 s2 a b :
  cond_Zopp s1 a * cond_Zopp s2 b = cond_Zopp (xorb s1 s2) (a * b).
Proof. destruct s1, s2; cbn [cond_Zopp xorb]; ring. Qed.

Lemma SRnd_zero D : 0 < D -> SRnd 0 D 0.
Proof. intros HD. left. split; [lia|]. apply (Rnd_exact 0 1074 D); lia. Qed.

Lemma SFmul_rounds f g : fin_ok f -> fin_ok g ->
  Z.abs (ival f * ival g) < OV * U ->
  rounds (ival f * ival g) U (SFmul prec emax f g).
Proof.
  intros Hf Hg Hov. pose proof U_pos as PU.
  destruct f as [sf| | |sf mf ef]; try (destruct Hf as [Hf _]; discriminate);
  destruct g as [sg| | |sg mg eg]; try (destruct Hg as [Hg _]; discriminate);
  cbn [SFmul].
  - split; [apply fin_ok_zero|]. cbn [ival]. apply SRnd_zero; lia.
  - split; [apply fin_ok_zero|]. cbn [ival]. apply SRnd_zero; lia.
  - split; [apply fin_ok_zero|]. cbn [ival]. rewrite Z.mul_0_r. apply SRnd_zero; lia.
  - destruct (fin_ok_inv _ _ _ Hf) as (Hef & Hmf & Hcf).
    destruct (fin_ok_inv _ _ _ Hg) as (Heg & Hmg & Hcg).
    pose proof (pow2_pos (ef + eg + 2148) ltac:(lia)) as Pfg.
    set (P := Zpos (mf * mg) * 2 ^ (ef + eg + 2148)).
    assert (Hprod : Zpos mf * 2 ^ (ef + 2148) * (Zpos mg * 2 ^ (eg + 2148)) = P * U).
    { assert (Hpw : 2 ^ (ef + 2148) * 2 ^ (eg + 2148) = 2 ^ (ef + eg + 2148) * U)
        by (unfold U; rewrite <- !pow2_split by lia; f_equal; lia).
      unfold P. rewrite Pos2Z.inj_mul.
      replace (Zpos mf * 2 ^ (ef + 2148) * (Zpos mg * 2 ^ (eg + 2148)))
        with (Zpos mf * Zpos mg * (2 ^ (ef + 2148) * 2 ^ (eg + 2148))) by ring.
      rewrite Hpw. ring. }
    rewrite !ival_finite, cond_Zopp_mul, Hprod in *.
    assert (Hpos : 0 < P) by (unfold P; apply Z.mul_pos_pos; lia).
    assert (Hov' : P < OV).
    { replace (Z.abs (cond_Zopp (xorb sf sg) (P * U))) with (P * U) in Hov
        by (destruct (xorb sf sg); cbn [cond_Zopp]; nia).
      apply (Z.mul_lt_mono_pos_r U); assumption. }
    assert (Hdig : 0 <= fexp prec emax (Zdigits2 (Zpos (mf * mg)) + (ef + eg)) - (ef + eg)).
    { rewrite fexp_eq. clear Hov Hov' Hprod Hpos.
      assert (Hbig : 2 ^ 52 <= Zpos mf \/ 2 ^ 52 <= Zpos mg ->
                     53 <= Zdigits2 (Zpos (mf * mg))).
      { intros Hb. apply (Zdigits2_ge _ 52); [lia|]. rewrite Pos2Z.inj_mul.
        change (2 ^ 52) with 4503599627370496 in *. nia. }
      destruct Hcf as [Hcf|Hcf]; [destruct Hcg as [Hcg|Hcg]|].
      - lia.
      - specialize (Hbig (or_intror Hcg)). lia.
      - specialize (Hbig (or_introl Hcf)). lia. }
    destruct (bra_exact_value (xorb sf sg) (Zpos (mf * mg)) (ef + eg)
                ltac:(lia) ltac:(lia) Hdig Hov') as [Hr (v & HR & Hv)].
    split; [exact Hr|]. rewrite Hv.
    replace (cond_Zopp (xorb sf sg) (P * U)) with (cond_Zopp (xorb sf sg) P * U)
      by (destruct (xorb sf sg); cbn [cond_Zopp]; ring).
    replace U with (1 * U) at 2 by ring.
    apply SRnd_scale; try lia.
    apply SRnd_of_Rnd; [lia|exact HR].
Qed.

Lemma rounds_self f : fin_ok f -> rounds (ival f) 1 f.
Proof.
  intros Hf. split; [exact Hf|].
  replace (ival f) with (ival f * 1) at 1 by ring. apply SRnd_exact; [lia|exact Hf].
Qed.

Lemma SFadd_rounds f g : fin_ok f -> fin_ok g ->
  Z.abs (ival f + ival g) < OV ->
  rounds (ival f + ival g) 1 (SFadd prec emax f g).
Proof.
  intros Hf Hg Hov.
  destruct f as [sf| | |sf mf ef]; try (destruct Hf as [Hf _]; discriminate);
  destruct g as [sg| | |sg mg eg]; try (destruct Hg as [Hg _]; discriminate);
  cbn [SFadd].
  - destruct sf, sg; (split; [apply fin_ok_zero|cbn [ival]; apply SRnd_zero; lia]).
  - cbn [ival]. rewrite Z.add_0_l. apply rounds_self, Hg.
  - replace (ival (S754_finite sf mf ef) + ival (S754_zero sg))
      with (ival (S754_finite sf mf ef)) by (cbn [ival]; lia).
    apply rounds_self, Hf.
  - destruct (fin_ok_inv _ _ _ Hf) as (Hef & Hmf & Hcf).
    destruct (fin_ok_inv _ _ _ Hg) as (Heg & Hmg & Hcg).
    set (ez := Z.min ef eg).
    destruct (shl_align_value mf ef ez ltac:(lia)) as [Hsf _].
    destruct (shl_align_value mg eg ez ltac:(lia)) as [Hsg _].
    rewrite Hsf, Hsg.
    set (S := cond_Zopp sf (Zpos mf * 2 ^ (ef - ez)) + cond_Zopp sg (Zpos mg * 2 ^ (eg - ez))).
    assert (HS : S * 2 ^ (ez + 2148) = ival (S754_finite sf mf ef) + ival (S754_finite sg mg eg)).
    { rewrite !ival_finite. unfold S.
      replace (ef + 2148) with ((ef - ez) + (ez + 2148)) by lia.
      replace (eg + 2148) with ((eg - ez) + (ez + 2148)) by lia.
      rewrite (pow2_split (ef - ez) (ez + 2148)), (pow2_split (eg - ez) (ez + 2148)) by lia.
      destruct sf, sg; cbn [cond_Zopp]; ring. }
    rewrite <- HS in *. apply binary_normalize_rounds; [lia|].
    pose proof (pow2_pos (ez + 2148) ltac:(lia)).
    rewrite Z.abs_mul, (Z.abs_eq (2 ^ (ez + 2148))) in Hov by lia. exact Hov.
Qed.

Lemma truediv_core_value a b : a <> 0 -> b <> 0 -> Z.abs a * U < OV * Z.abs b ->
  fin_ok (truediv_core a b) /\
  exists v, Rnd (Z.abs a * U) (Z.abs b) v /\
            ival (truediv_core a b) = cond_Zopp (xorb (a <? 0) (b <? 0)) v.
Proof.
  intros Ha0 Hb0 Hov. unfold truediv_core, SFdiv_core_binary.
  set (sg := xorb (a <? 0) (b <? 0)).
  assert (Ha : 0 < Z.abs a) by lia. assert (Hb : 0 < Z.abs b) by lia.
  set (a' := Z.abs a) in *. set (b' := Z.abs b) in *. clearbody a' b'.
  set (d1 := Zdigits2 a'). set (d2 := Zdigits2 b').
  set (e' := Z.min (fexp prec emax (d1 + 0 - (d2 + 0))) (0 - 0)).
  assert (He' : -1074 <= e' <= 0) by (unfold e'; rewrite fexp_eq; lia).
  set (m' := match 0 - 0 - e' with
             | Z0 => a' | Zpos _ => Z.shiftl a' (0 - 0 - e') | Zneg _ => 0 end).
  assert (Hm' : m' = a' * 2 ^ (- e')).
  { unfold m'. destruct (0 - 0 - e') eqn:Hs; try lia.
    - replace (- e') with 0 by lia. lia.
    - rewrite Z.shiftl_mul_pow2 by lia. f_equal. f_equal. lia. }
  pose proof (pow2_pos (- e') ltac:(lia)) as P.
  assert (Hq : fst (Z.div_eucl m' b') = m' / b') by reflexivity.
  assert (Hr : snd (Z.div_eucl m' b') = m' mod b') by reflexivity.
  destruct (Z.div_eucl m' b') as [q r]. cbn [fst snd] in Hq, Hr. subst q r.
  assert (HX : m' * 2 ^ (e' + 2148) = a' * U).
  { rewrite Hm'. unfold U. replace 2148 with (- e' + (e' + 2148)) at 2 by lia.
    rewrite (pow2_split (- e') (e' + 2148)) by lia. ring. }
  assert (Hdig : 0 <= fexp prec emax (Zdigits2 (m' / b') + e') - e').
  { rewrite fexp_eq.
    destruct (Zdigits2_bounds a' Ha) as [Hd1 [Hlo1 Hhi1]]. fold d1 in Hd1, Hlo1, Hhi1.
    destruct (Zdigits2_bounds b' Hb) as [Hd2 [Hlo2 Hhi2]]. fold d2 in Hd2, Hlo2, Hhi2.
    assert (Hdq : d1 - e' - d2 <= Zdigits2 (m' / b')).
    { destruct (Z_le_gt_dec (d1 - e' - d2) 0) as [Hs|Hs].
      - assert (0 <= m' / b') by (apply Z.div_pos; lia).
        destruct (Z.eq_dec (m' / b') 0) as [->|Hne]; [cbn; lia|].
        destruct (Zdigits2_bounds (m' / b') ltac:(lia)). lia.
      - replace (d1 - e' - d2) with ((d1 - e' - d2 - 1) + 1) by lia.
        apply Zdigits2_ge; [lia|].
        apply Z.div_le_lower_bound; [lia|].
        assert (2 ^ (d1 - e' - d2 - 1) * 2 ^ d2 = 2 ^ (d1 - 1) * 2 ^ (- e')).
        { rewrite <- !pow2_split by lia. f_equal. lia. }
        pose proof (pow2_pos (d1 - e' - d2 - 1) ltac:(lia)).
        rewrite Hm'. nia. }
    unfold e' in *. rewrite fexp_eq in *. lia. }
  destruct (bra_value sg m' b' e' ltac:(lia) Hb ltac:(lia) Hdig ltac:(rewrite HX; exact Hov))
    as [Hf (v & HR & Hv)].
  split; [exact Hf|]. exists v. rewrite HX in HR. split; assumption.
Qed.

Lemma truediv_core_rounds a b : 0 < a -> 0 < b -> a * U < OV * b ->
  rounds (a * U) b (truediv_core a b).
Proof.
  intros Ha Hb Hov.
  destruct (truediv_core_value a b) as [Hf (v & HR & Hv)]; try lia.
  rewrite !Z.abs_eq in HR by lia.
  replace (a <? 0) with false in Hv by (symmetry; apply Z.ltb_ge; lia).
  replace (b <? 0) with false in Hv by (symmetry; apply Z.ltb_ge; lia).
  cbn [xorb cond_Zopp] in Hv.
  split; [exact Hf|]. rewrite Hv. left. split; [|exact HR].
  pose proof U_pos. nia.
Qed.

Lemma trunc_ival f : fin_ok f -> trunc f = Z.quot (ival f) U.
Proof.
  intros Hf. pose proof U_pos as PU.
  destruct f as [s| | |s m e]; try (destruct Hf as [Hf _]; discriminate).
  - cbn [trunc ival]. rewrite Z.quot_0_l by lia. reflexivity.
  - destruct (fin_ok_inv _ _ _ Hf) as (He & _ & _).
    cbn [trunc ival].
    pose proof (pow2_pos (e + 2148) ltac:(lia)) as Pe.
    assert (Hq : Z.quot (Zpos m * 2 ^ (e + 2148)) U =
                 match e with
                 | 0 => Zpos m
                 | Zpos k => Zpos m * 2 ^ Zpos k
                 | Zneg k => Zpos m / 2 ^ Zpos k
                 end).
    { rewrite Z.quot_div_nonneg by nia.
      destruct e as [|k|k].
      - change (2 ^ (0 + 2148)) with U. apply Z.div_mul. lia.
      - replace (2 ^ (Zpos k + 2148)) with (2 ^ Zpos k * U)
          by (unfold U; rewrite <- pow2_split by lia; reflexivity).
        rewrite Z.mul_assoc. apply Z.div_mul. lia.
      - replace U with (2 ^ Zpos k * 2 ^ (Zneg k + 2148))
          by (unfold U; rewrite <- pow2_split by lia; f_equal; lia).
        apply Z.div_mul_cancel_r.
        + pose proof (pow2_pos (Zpos k) ltac:(lia)). lia.
        + lia. }
    destruct s; cbn [cond_Zopp].
    + rewrite Z.quot_opp_l by lia. rewrite Hq. reflexivity.
    + symmetry; exact Hq.
Qed.

Lemma trunc_mono f g : fin_ok f -> fin_ok g ->
  ival f <= ival g -> trunc f <= trunc g.
Proof.
  intros Hf Hg Hle. rewrite !trunc_ival by assumption.
  apply Z.quot_le_mono; [apply U_pos|exact Hle].
Qed.

Lemma trunc_between f lo hi : fin_ok f ->
  lo * U <= ival f <= hi * U -> lo <= trunc f <= hi.
Proof.
  intros Hf [Hlo Hhi]. rewrite trunc_ival by assumption.
  pose proof U_pos as PU.
  split.
  - rewrite <- (Z.quot_mul lo U) by lia. apply Z.quot_le_mono; lia.
  - rewrite <- (Z.quot_mul hi U) by lia. apply Z.quot_le_mono; lia.
Qed.

(** *** The operations as the program calls them *)

Lemma fin_ok_cases f : fin_ok f ->
  (exists s, f = S754_zero s) \/ (exists s m e, f = S754_finite s m e).
Proof.
  intros [Hf _]. destruct f; try discriminate; eauto.
Qed.

Lemma of_int_fin z : fin_ok (of_int_core z) -> of_int z = Ok (of_int_core z).
Proof.
  intros Hf. unfold of_int.
  destruct (fin_ok_cases _ Hf) as [[s ->]|(s & m & e & ->)]; reflexivity.
Qed.

Lemma of_int_small z : Z.abs z < 2 ^ 53 ->
  of_int z = Ok (of_int_core z) /\ fin_ok (of_int_core z) /\ ival (of_int_core z) = z * U.
Proof.
  intros Hz. destruct (of_int_core_exact z Hz) as [Hf Hv].
  split; [apply of_int_fin, Hf|]. split; assumption.
Qed.

Lemma to_int_fin f : fin_ok f -> to_int f = Ok (trunc f).
Proof.
  intros Hf. destruct (fin_ok_cases _ Hf) as [[s ->]|(s & m & e & ->)]; reflexivity.
Qed.

Lemma truediv_fin a b : a <> 0 -> b <> 0 -> fin_ok (truediv_core a b) ->
  truediv a b = Ok (truediv_core a b).
Proof.
  intros Ha Hb Hf. unfold truediv.
  destruct (Z.eqb_spec b 0); [contradiction|].
  destruct (Z.eqb_spec a 0); [contradiction|].
  destruct (fin_ok_cases _ Hf) as [[s ->]|(s & m & e & ->)]; reflexivity.
Qed.

Lemma U_le_OV : U <= OV.
Proof. pose proof (OV_small 0 ltac:(lia)) as H. change (2 ^ 0) with 1 in H. lia. Qed.

(** [s / t] for [0 <= s < t]: no exception, correctly rounded, within
    [0, 1]. *)
Lemma truediv_ratio s t : 0 <= s < t ->
  exists r, truediv s t = Ok r /\ rounds (s * U) t r /\ 0 <= ival r <= U.
Proof.
  intros Hst. pose proof U_pos as PU. pose proof U_le_OV as HUO.
  assert (Hex : exists r, truediv s t = Ok r /\ rounds (s * U) t r).
  { destruct (Z.eq_dec s 0) as [->|Hs].
    - exists (S754_zero false). split.
      + unfold truediv. destruct (Z.eqb_spec t 0); [lia|].
        replace (t <? 0) with false by (symmetry; apply Z.ltb_ge; lia). reflexivity.
      + split; [apply fin_ok_zero|]. cbn [ival]. apply SRnd_zero. lia.
    - assert (Hov : s * U < OV * t).
      { assert (s * U < t * U) by (apply Z.mul_lt_mono_pos_r; lia).
        assert (t * U <= t * OV) by (apply Z.mul_le_mono_nonneg_l; lia). lia. }
      pose proof (truediv_core_rounds s t ltac:(lia) ltac:(lia) Hov) as HR.
      exists (truediv_core s t). split; [|exact HR].
      apply truediv_fin; try lia. apply HR. }
  destruct Hex as (r & Hr & HR). exists r. split; [exact Hr|]. split; [exact HR|].
  destruct (of_int_core_exact 1 ltac:(lia)) as [H1 V1].
  split.
  - change 0 with (ival (S754_zero false)).
    apply (rounds_ge_float (s * U) t r (S754_zero false) ltac:(lia) HR (fin_ok_zero false)).
    cbn [ival]. nia.
  - replace U with (ival (of_int_core 1)) at 2 by (rewrite V1; lia).
    apply (rounds_le_float (s * U) t r (of_int_core 1) ltac:(lia) HR H1).
    rewrite V1. nia.
Qed.

(** [a / 2] is exact for every integer a double can hold. *)
Lemma truediv_half a : Z.abs a < 2 ^ 53 ->
  exists x, truediv a 2 = Ok x /\ exactly x a 2.
Proof.
  intros Ha. pose proof U_pos as PU.
  destruct (Z.eq_dec a 0) as [->|Ha0].
  - exists (S754_zero false). split; [reflexivity|].
    split; [apply fin_ok_zero|reflexivity].
  - assert (Hov : Z.abs a * U < OV * Z.abs 2).
    { pose proof (OV_small 53 ltac:(lia)).
      assert (Z.abs a * U < 2 ^ 53 * U) by (apply Z.mul_lt_mono_pos_r; lia).
      change (Z.abs 2) with 2. lia. }
    destruct (truediv_core_value a 2 Ha0 ltac:(lia) Hov) as [Hf (v & HR & Hv)].
    exists (truediv_core a 2). split; [apply truediv_fin; auto; lia|].
    split; [exact Hf|]. rewrite Hv.
    change (Z.abs 2) with 2 in HR. change (2 <? 0) with false.
    rewrite xorb_false_r.
    assert (HU : U = 2 ^ 2147 * 2).
    { unfold U. change 2148 with (2147 + 1). rewrite pow2_split by lia. reflexivity. }
    pose proof (Rnd_dyadic (Z.abs a) 2147 ltac:(lia) ltac:(lia)) as HD.
    apply (Rnd_scale _ _ _ 2) in HD; try lia.
    change (1 * 2) with 2 in HD.
    pose proof (pow2_pos 2147 ltac:(lia)) as Ph.
    remember (2 ^ 2147) as h eqn:Hh. clear Hh.
    rewrite HU in HR |- *.
    replace (Z.abs a * (h * 2)) with (Z.abs a * h * 2) in HR by ring.
    rewrite (Rnd_unique (Z.abs a * h * 2) 2 v (Z.abs a * h) ltac:(lia) HR HD).
    destruct (Z.ltb_spec a 0); cbn [cond_Zopp]; lia.
Qed.

End F64Facts.

(** ** The interpolation formula *)

Module ChanFacts.
Import F64 F64Facts.

(** The product [(c2 - c1) * ratio] and the sum [c1 + ...] of one
    channel, for byte endpoints and a ratio in [0, 1]: both are finite,
    correctly rounded, and the sum stays between the endpoints. *)
Lemma chan_steps c1 c2 r :
  0 <= c1 <= 255 -> 0 <= c2 <= 255 -> fin_ok r -> 0 <= ival r <= U ->
  let p := mul (of_int_core (c2 - c1)) r in
  let s := add (of_int_core c1) p in
  fin_ok p /\ SRnd ((c2 - c1) * ival r) 1 (ival p) /\
  fin_ok s /\ SRnd (c1 * U + ival p) 1 (ival s) /\
  Z.min c1 c2 * U <= ival s <= Z.max c1 c2 * U.
Proof.
  intros Hc1 Hc2 Hr Hv p s. pose proof U_pos as PU.
  pose proof (OV_small 9 ltac:(lia)) as HOV. change (2 ^ 9) with 512 in HOV.
  destruct (of_int_core_exact (c2 - c1) ltac:(change (2 ^ 53) with 9007199254740992; lia))
    as [Hfd Hvd].
  destruct (of_int_core_exact c1 ltac:(change (2 ^ 53) with 9007199254740992; lia))
    as [Hfc Hvc].
  destruct (of_int_core_exact c2 ltac:(change (2 ^ 53) with 9007199254740992; lia))
    as [Hfc2 Hvc2].
  set (d := c2 - c1) in *. set (rv := ival r) in *.
  assert (Hdr : - (255 * U) <= d * rv <= 255 * U) by nia.
  (* the product *)
  assert (HP : rounds (ival (of_int_core d) * rv) U p).
  { apply SFmul_rounds; auto. rewrite Hvd. fold rv.
    replace (d * U * rv) with (d * rv * U) by ring.
    rewrite Z.abs_mul, (Z.abs_eq U) by lia.
    apply Z.mul_lt_mono_pos_r; lia. }
  destruct HP as [Hfp HP]. rewrite Hvd in HP.
  assert (HP1 : SRnd (d * rv) 1 (ival p)).
  { apply (SRnd_unscale _ _ _ U); try lia.
    replace (d * rv * U) with (d * U * rv) by ring.
    replace (1 * U) with U by ring. exact HP. }
  assert (Hpb : Z.min 0 d * U <= ival p <= Z.max 0 d * U).
  { destruct (Z_le_gt_dec 0 d) as [Hd|Hd].
    - rewrite Z.min_l, Z.max_r by lia. split.
      + change (0 * U) with (ival (S754_zero false)).
        apply (rounds_ge_float (d * rv) 1 p (S754_zero false) ltac:(lia)
                 (conj Hfp HP1) (fin_ok_zero false)).
        cbn [ival]. nia.
      + rewrite <- Hvd.
        apply (rounds_le_float (d * rv) 1 p (of_int_core d) ltac:(lia) (conj Hfp HP1) Hfd).
        rewrite Hvd. nia.
    - rewrite Z.min_r, Z.max_l by lia. split.
      + rewrite <- Hvd.
        apply (rounds_ge_float (d * rv) 1 p (of_int_core d) ltac:(lia) (conj Hfp HP1) Hfd).
        rewrite Hvd. nia.
      + change (0 * U) with (ival (S754_zero false)).
        apply (rounds_le_float (d * rv) 1 p (S754_zero false) ltac:(lia)
                 (conj Hfp HP1) (fin_ok_zero false)).
        cbn [ival]. nia. }
  (* the sum *)
  assert (Hsum : Z.min c1 c2 * U <= c1 * U + ival p <= Z.max c1 c2 * U) by (unfold d in *; nia).
  assert (HS : rounds (ival (of_int_core c1) + ival p) 1 s).
  { apply SFadd_rounds; auto. rewrite Hvc. nia. }
  destruct HS as [Hfs HS]. rewrite Hvc in HS.
  split; [exact Hfp|]. split; [exact HP1|]. split; [exact Hfs|]. split; [exact HS|].
  split.
  - destruct (Z_le_gt_dec c1 c2).
    + rewrite Z.min_l by lia. rewrite <- Hvc.
      apply (rounds_ge_float (c1 * U + ival p) 1 s (of_int_core c1) ltac:(lia) (conj Hfs HS) Hfc).
      rewrite Hvc. rewrite Z.min_l in Hsum by lia. lia.
    + rewrite Z.min_r by lia. rewrite <- Hvc2.
      apply (rounds_ge_float (c1 * U + ival p) 1 s (of_int_core c2) ltac:(lia) (conj Hfs HS) Hfc2).
      rewrite Hvc2. rewrite Z.min_r in Hsum by lia. lia.
  - destruct (Z_le_gt_dec c1 c2).
    + rewrite Z.max_r by lia. rewrite <- Hvc2.
      apply (rounds_le_float (c1 * U + ival p) 1 s (of_int_core c2) ltac:(lia) (conj Hfs HS) Hfc2).
      rewrite Hvc2. rewrite Z.max_r in Hsum by lia. lia.
    + rewrite Z.max_l by lia. rewrite <- Hvc.
      apply (rounds_le_float (c1 * U + ival p) 1 s (of_int_core c1) ltac:(lia) (conj Hfs HS) Hfc).
      rewrite Hvc. rewrite Z.max_l in Hsum by lia. lia.
Qed.

(** The code's [int(c1 + (c2 - c1) * ratio)] raises nothing and is the
    formula. *)
Lemma lerp_chan c1 c2 r :
  0 <= c1 <= 255 -> 0 <= c2 <= 255 -> fin_ok r -> 0 <= ival r <= U ->
  lerp c1 c2 r = Ok (chan c1 c2 r).
Proof.
  intros Hc1 Hc2 Hr Hv.
  destruct (chan_steps c1 c2 r Hc1 Hc2 Hr Hv) as (_ & _ & Hfs & _ & _).
  unfold lerp.
  destruct (of_int_small (c2 - c1) ltac:(change (2 ^ 53) with 9007199254740992; lia))
    as (-> & _ & _).
  destruct (of_int_small c1 ltac:(change (2 ^ 53) with 9007199254740992; lia))
    as (-> & _ & _).
  cbn [mbind result_bind]. apply to_int_fin, Hfs.
Qed.

Lemma chan_between c1 c2 r :
  0 <= c1 <= 255 -> 0 <= c2 <= 255 -> fin_ok r -> 0 <= ival r <= U ->
  Z.min c1 c2 <= chan c1 c2 r <= Z.max c1 c2.
Proof.
  intros Hc1 Hc2 Hr Hv.
  destruct (chan_steps c1 c2 r Hc1 Hc2 Hr Hv) as (_ & _ & Hfs & _ & Hb).
  unfold chan. apply trunc_between; assumption.
Qed.

(** The formula is monotone in the ratio, in the direction of the
    endpoints. *)
Lemma chan_mono c1 c2 r r' :
  0 <= c1 <= 255 -> 0 <= c2 <= 255 ->
  fin_ok r -> 0 <= ival r <= U -> fin_ok r' -> 0 <= ival r' <= U ->
  ival r <= ival r' ->
  (c1 <= c2 -> chan c1 c2 r <= chan c1 c2 r') /\
  (c2 <= c1 -> chan c1 c2 r' <= chan c1 c2 r).
Proof.
  intros Hc1 Hc2 Hr Hv Hr' Hv' Hle.
  destruct (chan_steps c1 c2 r Hc1 Hc2 Hr Hv) as (Hfp & HP & Hfs & HS & _).
  destruct (chan_steps c1 c2 r' Hc1 Hc2 Hr' Hv') as (Hfp' & HP' & Hfs' & HS' & _).
  cbv zeta in *.
  set (p := mul (of_int_core (c2 - c1)) r) in *.
  set (p' := mul (of_int_core (c2 - c1)) r') in *.
  split; intros Hd; unfold chan; apply trunc_mono; auto.
  - assert (ival p <= ival p').
    { apply (SRnd_mono _ 1 _ _ 1 _ ltac:(lia) ltac:(lia) HP HP'). nia. }
    apply (SRnd_mono _ 1 _ _ 1 _ ltac:(lia) ltac:(lia) HS HS'). lia.
  - assert (ival p' <= ival p).
    { apply (SRnd_mono _ 1 _ _ 1 _ ltac:(lia) ltac:(lia) HP' HP). nia. }
    apply (SRnd_mono _ 1 _ _ 1 _ ltac:(lia) ltac:(lia) HS' HS). lia.
Qed.

(** At ratio zero the formula returns the start colour. *)
Lemma chan_zero c1 c2 : 0 <= c1 <= 255 -> 0 <= c2 <= 255 ->
  chan c1 c2 (S754_zero false) = c1.
Proof.
  intros Hc1 Hc2. pose proof U_pos as PU.
  destruct (chan_steps c1 c2 (S754_zero false) Hc1 Hc2 (fin_ok_zero false)
              ltac:(cbn [ival]; lia)) as (Hfp & HP & Hfs & HS & _).
  cbv zeta in *. cbn [ival] in HP. rewrite Z.mul_0_r in HP.
  assert (Hp0 : ival (mul (of_int_core (c2 - c1)) (S754_zero false)) = 0).
  { apply (SRnd_unique 0 1); [lia|exact HP|apply SRnd_zero; lia]. }
  rewrite Hp0, Z.add_0_r in HS.
  assert (Hs : ival (add (of_int_core c1) (mul (of_int_core (c2 - c1)) (S754_zero false)))
               = c1 * U).
  { apply (SRnd_unique (c1 * U) 1); [lia|exact HS|].
    apply (SRnd_dyadic c1 2148); [change (2 ^ 53) with 9007199254740992|]; lia. }
  unfold chan.
  pose proof (trunc_between _ c1 c1 Hfs ltac:(rewrite Hs; lia)). lia.
Qed.

End ChanFacts.

(** ** Colours *)

Lemma hex_digit_range c v : hex_digit c = Some v -> 0 <= v <= 15.
Proof.
  unfold hex_digit. intros H.
  repeat match type of H with
         | (if ?b then _ else _) = _ => destruct b eqn:?
         end; inversion H; subst; lia.
Qed.

Lemma int16_pair a b va vb : hex_digit a = Some va -> hex_digit b = Some vb ->
  int16 (String a (String b EmptyString)) = Ok (16 * va + vb).
Proof.
  intros Ha Hb. cbn [int16 int16_digits]. rewrite Ha, Hb. reflexivity.
Qed.

Lemma is_hex_digit_value c : is_hex_digit c = true -> exists v, hex_digit c = Some v.
Proof. unfold is_hex_digit. destruct (hex_digit c); [eauto|discriminate]. Qed.

(** A ['#rrggbb'] string parses, in the code's way and in PIL's, into
    three bytes. *)
Lemma hex_color_channels color : is_hex_color color = true ->
  exists r g b, hex_channels color = Ok (r, g, b) /\ getrgb color = Ok (r, g, b) /\
                0 <= r <= 255 /\ 0 <= g <= 255 /\ 0 <= b <= 255.
Proof.
  intros H. unfold getrgb. rewrite H.
  destruct color as [|c0 [|c1 [|c2 [|c3 [|c4 [|c5 [|c6 [|? ?]]]]]]]]; try discriminate.
  cbn [is_hex_color] in H.
  repeat (apply andb_true_iff in H; destruct H as [H ?]).
  repeat match goal with
         | Hd : is_hex_digit _ = true |- _ =>
             apply is_hex_digit_value in Hd; destruct Hd as [? Hd]
         end.
  unfold hex_channels. cbn [substring].
  repeat match goal with
         | Ha : hex_digit ?a = Some _, Hb : hex_digit ?b = Some _
           |- context [int16 (String ?a (String ?b EmptyString))] =>
             rewrite (int16_pair a b _ _ Ha Hb)
         end.
  cbn [mbind result_bind mret result_ret].
  repeat match goal with
         | Hd : hex_digit _ = Some _ |- _ => apply hex_digit_range in Hd
         end.
  do 3 eexists. split; [reflexivity|]. split; [reflexivity|]. lia.
Qed.

Lemma clip8_id v : 0 <= v <= 255 -> clip8 v = v.
Proof. unfold clip8. lia. Qed.

(** ** Loops and the heap *)

Lemma elem_of_range x n : x ∈ range n <-> 0 <= x < n.
Proof.
  unfold range. rewrite list_elem_of_fmap. split.
  - intros (k & -> & Hk). apply elem_of_seq in Hk. lia.
  - intros Hx. exists (Z.to_nat x). split; [lia|]. apply elem_of_seq. lia.
Qed.

Lemma elem_of_all_coords x y width height :
  (x, y) ∈ all_coords width height <-> (0 <= x < width) /\ (0 <= y < height).
Proof.
  unfold all_coords. rewrite list_elem_of_bind. split.
  - intros (x' & Hy & Hx). apply list_elem_of_bind in Hy.
    destruct Hy as (y' & Hp & Hy). apply list_elem_of_singleton in Hp.
    inversion Hp; subst. rewrite <- !elem_of_range. auto.
  - intros [Hx Hy]. exists x. split; [|apply elem_of_range, Hx].
    apply list_elem_of_bind. exists y. split; [|apply elem_of_range, Hy].
    apply list_elem_of_singleton. reflexivity.
Qed.

Lemma filled_lookup width height fill x y :
  filled width height fill !! (x, y) =
  if decide ((0 <= x < width) /\ (0 <= y < height)) then Some fill else None.
Proof.
  unfold filled. destruct (decide _) as [Hin|Hout].
  - apply lookup_gset_to_gmap_Some. split; [|reflexivity].
    apply elem_of_list_to_set, elem_of_all_coords, Hin.
  - apply lookup_gset_to_gmap_None. rewrite elem_of_list_to_set, elem_of_all_coords.
    exact Hout.
Qed.

Lemma bind_run {A B} (m : M A) (f : A -> M B) (w : world) :
  (m ≫= f) w = match m w with
               | (Ok a, w') => f a w'
               | (Raise e, w') => (Raise e, w')
               end.
Proof. reflexivity. Qed.

(** A loop whose body never raises establishes an invariant indexed
    by the elements already handled. *)
Lemma for_invariant {A} (I : list A -> world -> Prop) (body : A -> M unit) (xs : list A) :
  (forall done x w, x ∈ xs -> I done w ->
     exists w', body x w = (Ok tt, w') /\ I (done ++ [x]) w') ->
  forall pre w, I pre w -> exists w', for_ xs body w = (Ok tt, w') /\ I (pre ++ xs) w'.
Proof.
  induction xs as [|x xs IH]; intros Hbody pre w HI.
  - exists w. rewrite app_nil_r. split; [reflexivity|exact HI].
  - destruct (Hbody pre x w ltac:(left) HI) as (w1 & Hb & HI1).
    destruct (IH ltac:(intros d y w0 Hy; apply Hbody; right; exact Hy) (pre ++ [x]) w1 HI1)
      as (w2 & Hf & HI2).
    exists w2. split.
    + cbn [for_]. rewrite bind_run, Hb. exact Hf.
    + rewrite <- app_assoc in HI2. exact HI2.
Qed.

(** ** The gradient *)

Lemma gradient_pixel_value width height color1 color2 r1 g1 b1 r2 g2 b2 x y :
  in_canvas width height x y ->
  hex_channels color1 = Ok (r1, g1, b1) -> rgb_bytes (r1, g1, b1) ->
  hex_channels color2 = Ok (r2, g2, b2) -> rgb_bytes (r2, g2, b2) ->
  exists ratio,
    F64.truediv (x + y) (width + height) = Ok ratio /\
    F64.rounds ((x + y) * F64.U) (width + height) ratio /\
    0 <= F64.ival ratio <= F64.U /\
    gradient_pixel width height color1 color2 x y =
      Ok (chan r1 r2 ratio, chan g1 g2 ratio, chan b1 b2 ratio).
Proof.
  intros [Hx Hy] H1 (Br1 & Bg1 & Bb1) H2 (Br2 & Bg2 & Bb2).
  destruct (F64Facts.truediv_ratio (x + y) (width + height) ltac:(lia))
    as (ratio & Hdiv & HR & Hb).
  exists ratio. split; [exact Hdiv|]. split; [exact HR|]. split; [exact Hb|].
  unfold gradient_pixel. rewrite Hdiv, H1, H2.
  cbn [mbind result_bind].
  rewrite !ChanFacts.lerp_chan by (try apply HR; assumption).
  reflexivity.
Qed.

Section GradientLoops.
Context (width height : Z) (color1 color2 : string).
Context (r1 g1 b1 r2 g2 b2 : Z).
Context (Hw : 0 < width) (Hh : 0 < height).
Context (Hc1 : hex_channels color1 = Ok (r1, g1, b1)) (B1 : rgb_bytes (r1, g1, b1)).
Context (Hc2 : hex_channels color2 = Ok (r2, g2, b2)) (B2 : rgb_bytes (r2, g2, b2)).
Context (h : gmap loc image) (lg : list event) (l : loc).

#[local] Abbreviation pix_ok := (pix_ok width height color1 color2).
#[local] Abbreviation at_store := (at_store h lg l width height).

Lemma gradient_pixel_bytes x y : in_canvas width height x y ->
  exists px, gradient_pixel width height color1 color2 x y = Ok px /\ rgb_bytes px.
Proof using Hw Hh Hc1 B1 Hc2 B2.
  intros Hin.
  destruct (gradient_pixel_value width height color1 color2 r1 g1 b1 r2 g2 b2 x y
              Hin Hc1 B1 Hc2 B2) as (ratio & _ & HR & Hb & Hpx).
  eexists. split; [exact Hpx|].
  destruct B1 as (? & ? & ?), B2 as (? & ? & ?). unfold rgb_bytes, is_byte in *.
  pose proof (ChanFacts.chan_between r1 r2 ratio ltac:(lia) ltac:(lia) (proj1 HR) Hb).
  pose proof (ChanFacts.chan_between g1 g2 ratio ltac:(lia) ltac:(lia) (proj1 HR) Hb).
  pose proof (ChanFacts.chan_between b1 b2 ratio ltac:(lia) ltac:(lia) (proj1 HR) Hb).
  lia.
Qed.

Lemma body_step handled m x y :
  in_canvas width height x y -> pix_ok handled m ->
  exists m',
    (px ← lift (gradient_pixel width height color1 color2 x y); putpixel l x y px) (at_store m)
      = (Ok tt, at_store m') /\
    pix_ok (fun x' y' => handled x' y' \/ (x' = x /\ y' = y)) m'.
Proof using Hw Hh Hc1 B1 Hc2 B2.
  intros Hin [Hdone Hout].
  destruct (gradient_pixel_bytes x y Hin) as ([[r g] b] & Hpx & Br & Bg & Bb).
  exists (<[(x, y) := (r, g, b)]> m). split.
  - rewrite bind_run. unfold lift. rewrite Hpx.
    unfold putpixel, at_store. cbn [w_heap w_log].
    rewrite lookup_insert_eq. cbn [im_width im_height im_pixels].
    destruct Hin as [Hx Hy].
    unfold wrap_index, in_image. cbn [im_width im_height].
    replace (x <? 0) with false by (symmetry; apply Z.ltb_ge; lia).
    replace (y <? 0) with false by (symmetry; apply Z.ltb_ge; lia).
    replace (0 <=? x) with true by (symmetry; apply Z.leb_le; lia).
    replace (x <? width) with true by (symmetry; apply Z.ltb_lt; lia).
    replace (0 <=? y) with true by (symmetry; apply Z.leb_le; lia).
    replace (y <? height) with true by (symmetry; apply Z.ltb_lt; lia).
    cbn [andb]. rewrite !clip8_id by assumption.
    rewrite insert_insert_eq. reflexivity.
  - split.
    + intros x' y' Hin' [Hh'|[-> ->]].
      * destruct (Hdone x' y' Hin' Hh') as (px & Hp & Hl).
        exists px. split; [exact Hp|].
        destruct (decide ((x, y) = (x', y'))) as [Heq|Hne].
        -- inversion Heq; subst. rewrite lookup_insert_eq.
           rewrite Hpx in Hp. inversion Hp. reflexivity.
        -- rewrite lookup_insert_ne by exact Hne. exact Hl.
      * exists (r, g, b). split; [exact Hpx|apply lookup_insert_eq].
    + intros x' y' Hnot. rewrite lookup_insert_ne; [apply Hout, Hnot|].
      intros Heq. inversion Heq; subst. contradiction.
Qed.

Lemma column_loop handled m x : 0 <= x < width -> pix_ok handled m ->
  exists m',
    for_ (range height) (fun y =>
      px ← lift (gradient_pixel width height color1 color2 x y); putpixel l x y px) (at_store m)
      = (Ok tt, at_store m') /\
    pix_ok (fun x' y' => handled x' y' \/ x' = x) m'.
Proof using Hw Hh Hc1 B1 Hc2 B2.
  intros Hx Hm.
  pose (I := fun (ys : list Z) (w : world) =>
               exists m', w = at_store m' /\
                 pix_ok (fun x' y' => handled x' y' \/ (x' = x /\ y' ∈ ys)) m').
  destruct (for_invariant I
              (fun y => px ← lift (gradient_pixel width height color1 color2 x y);
                        putpixel l x y px)
              (range height)) with (pre := @nil Z) (w := at_store m)
    as (w' & Hrun & (m' & -> & Hm')).
  - intros ys y w Hy (m0 & -> & Hm0).
    apply elem_of_range in Hy.
    destruct (body_step _ m0 x y ltac:(split; lia) Hm0) as (m1 & Hb & Hm1).
    exists (at_store m1). split; [exact Hb|]. exists m1. split; [reflexivity|].
    destruct Hm1 as [Hd1 Ho1]. split; [|exact Ho1].
    intros x' y' Hin' Hh'. apply Hd1; [exact Hin'|].
    destruct Hh' as [?|[-> Hy']]; [left; left; assumption|].
    apply elem_of_app in Hy'. destruct Hy' as [Hy'|Hy'].
    + left. right. split; [reflexivity|assumption].
    + apply list_elem_of_singleton in Hy'. right. split; [reflexivity|assumption].
  - exists m. split; [reflexivity|]. destruct Hm as [Hd Ho]. split; [|exact Ho].
    intros x' y' Hin' [?|[_ Hy']]; [apply Hd; assumption|].
    apply elem_of_nil in Hy'. contradiction.
  - exists m'. split; [exact Hrun|]. destruct Hm' as [Hd' Ho']. split; [|exact Ho'].
    intros x' y' Hin' Hh'. apply Hd'; [exact Hin'|].
    destruct Hh' as [?| ->]; [left; assumption|].
    right. split; [reflexivity|]. rewrite app_nil_l. apply elem_of_range, Hin'.
Qed.

Lemma canvas_loop m : pix_ok (fun _ _ => False) m ->
  exists m',
    for_ (range width) (fun x =>
      for_ (range height) (fun y =>
        px ← lift (gradient_pixel width height color1 color2 x y); putpixel l x y px))
      (at_store m)
      = (Ok tt, at_store m') /\
    pix_ok (fun _ _ => True) m'.
Proof using Hw Hh Hc1 B1 Hc2 B2.
  intros Hm.
  pose (I := fun (xs : list Z) (w : world) =>
               exists m', w = at_store m' /\ pix_ok (fun x' _ => x' ∈ xs) m').
  destruct (for_invariant I
              (fun x => for_ (range height) (fun y =>
                 px ← lift (gradient_pixel width height color1 color2 x y);
                 putpixel l x y px))
              (range width)) with (pre := @nil Z) (w := at_store m)
    as (w' & Hrun & (m' & -> & Hm')).
  - intros xs x w Hx (m0 & -> & Hm0).
    apply elem_of_range in Hx.
    destruct (column_loop _ m0 x Hx Hm0) as (m1 & Hb & Hm1).
    exists (at_store m1). split; [exact Hb|]. exists m1. split; [reflexivity|].
    destruct Hm1 as [Hd1 Ho1]. split; [|exact Ho1].
    intros x' y' Hin' Hh'. apply Hd1; [exact Hin'|].
    apply elem_of_app in Hh'. destruct Hh' as [?|Hs]; [left; assumption|].
    apply list_elem_of_singleton in Hs. right. exact Hs.
  - exists m. split; [reflexivity|]. destruct Hm as [Hd Ho]. split; [|exact Ho].
    intros x' y' _ Hx'. apply elem_of_nil in Hx'. contradiction.
  - exists m'. split; [exact Hrun|]. destruct Hm' as [Hd' Ho']. split; [|exact Ho'].
    intros x' y' Hin' _. apply Hd'; [exact Hin'|].
    rewrite app_nil_l. apply elem_of_range, Hin'.
Qed.

End GradientLoops.

(** [create_gradient_background] allocates one image and fills every
    pixel; nothing else in the world changes. *)
Lemma gradient_run width height color1 color2 w :
  0 < width -> 0 < height ->
  is_hex_color color1 = true -> is_hex_color color2 = true ->
  exists m,
    create_gradient_background width height color1 color2 w =
      (Ok (fresh (dom (w_heap w))),
       at_store (w_heap w) (w_log w ++ [EvNew (fresh (dom (w_heap w))) width height])
                (fresh (dom (w_heap w))) width height m) /\
    pix_ok width height color1 color2 (fun _ _ => True) m.
Proof.
  intros Hw Hh V1 V2.
  destruct (hex_color_channels color1 V1) as (r1 & g1 & b1 & Hc1 & Hg1 & B1).
  destruct (hex_color_channels color2 V2) as (r2 & g2 & b2 & Hc2 & _ & B2).
  set (l := fresh (dom (w_heap w))).
  destruct (canvas_loop width height color1 color2 r1 g1 b1 r2 g2 b2 Hw Hh
              Hc1 B1 Hc2 B2 (w_heap w) (w_log w ++ [EvNew l width height]) l
              (filled width height (r1, g1, b1))) as (m & Hrun & Hm).
  { split; [intros ? ? _ []|].
    intros x y Hout. rewrite filled_lookup. destruct (decide _) as [Hin|_]; [|reflexivity].
    exfalso. apply Hout. exact Hin. }
  exists m. split; [|exact Hm].
  unfold create_gradient_background. rewrite bind_run.
  unfold image_new.
  replace (width <? 0) with false by (symmetry; apply Z.ltb_ge; lia).
  replace (height <? 0) with false by (symmetry; apply Z.ltb_ge; lia).
  cbn [orb]. rewrite Hg1. fold l.
  rewrite bind_run. unfold at_store in Hrun |- *. rewrite Hrun. reflexivity.
Qed.

Lemma pix_ok_unique width height color1 color2 m m' :
  pix_ok width height color1 color2 (fun _ _ => True) m ->
  pix_ok width height color1 color2 (fun _ _ => True) m' -> m = m'.
Proof.
  intros [Hd Ho] [Hd' Ho']. apply map_eq. intros [x y].
  destruct (decide (in_canvas width height x y)) as [Hin|Hout].
  - destruct (Hd x y Hin I) as (px & Hp & ->).
    destruct (Hd' x y Hin I) as (px' & Hp' & ->). congruence.
  - rewrite Ho, Ho' by assumption. reflexivity.
Qed.

Lemma pix_ok_getpixel width height color1 color2 m x y :
  pix_ok width height color1 color2 (fun _ _ => True) m ->
  in_canvas width height x y ->
  getpixel (Image width height m) x y = gradient_pixel width height color1 color2 x y.
Proof.
  intros [Hd _] Hin. destruct (Hd x y Hin I) as (px & Hp & Hl).
  destruct Hin as [Hx Hy].
  unfold getpixel, wrap_index, in_image. cbn [im_width im_height im_pixels].
  replace (x <? 0) with false by (symmetry; apply Z.ltb_ge; lia).
  replace (y <? 0) with false by (symmetry; apply Z.ltb_ge; lia).
  replace (0 <=? x) with true by (symmetry; apply Z.leb_le; lia).
  replace (x <? width) with true by (symmetry; apply Z.ltb_lt; lia).
  replace (0 <=? y) with true by (symmetry; apply Z.leb_le; lia).
  replace (y <? height) with true by (symmetry; apply Z.ltb_lt; lia).
  cbn [andb]. rewrite Hl, Hp. reflexivity.
Qed.

(** ** The two cards *)

Lemma repaint_run l paint ev im h lg :
  repaint l paint ev (World (<[l := im]> h) lg) =
    (Ok tt, World (<[l := Image (im_width im) (im_height im) (paint im)]> h) (lg ++ [ev])).
Proof.
  unfold repaint. cbn [w_heap w_log]. rewrite lookup_insert_eq, insert_insert_eq. reflexivity.
Qed.

Lemma save_run E l path format quality optimize im h lg :
  save E l path format quality optimize (World (<[l := im]> h) lg) =
    if writable E path
    then (Ok tt, World (<[l := im]> h) (lg ++ [EvSave l path format quality optimize im]))
    else (Raise OSError, World (<[l := im]> h) lg).
Proof.
  unfold save. cbn [w_heap w_log]. rewrite lookup_insert_eq. reflexivity.
Qed.

Lemma load_fonts_ok E a b c : env_ok E ->
  font_ok (load_fonts E a b c).1.1 /\ font_ok (load_fonts E a b c).1.2 /\
  font_ok (load_fonts E a b c).2.
Proof.
  intros [Hdef Htt]. unfold load_fonts.
  destruct (truetype E bold_ttf a) eqn:H1; [|cbn; auto].
  destruct (truetype E regular_ttf b) eqn:H2; [|cbn; auto].
  destruct (truetype E regular_ttf c) eqn:H3; [|cbn; auto].
  cbn. split; [|split]; eapply Htt; eassumption.
Qed.

(** With a measured width that fits a machine integer, the offset is
    computed without exception and without rounding. *)
Lemma centred_exact f text : font_ok f ->
  exists x, centred f text x /\ F64.exactly x (WIDTH - text_width f text) 2.
Proof.
  intros Hf. specialize (Hf text). unfold centred.
  apply F64Facts.truediv_half. unfold WIDTH.
  change (2 ^ 32) with 4294967296 in Hf. change (2 ^ 53) with 9007199254740992. lia.
Qed.

Ltac draw_step :=
  cbv beta iota; rewrite bind_run;
  unfold draw_ellipse, draw_rectangle, draw_text;
  match goal with
  | |- context [repaint ?l ?paint ?ev (World (<[_ := ?im]> ?h) ?lg)] =>
      rewrite (repaint_run l paint ev im h lg)
  end;
  cbv beta iota; cbn [im_width im_height].

Ltac centre_step H :=
  cbv beta iota; rewrite bind_run; unfold lift; unfold centred in H; rewrite H; cbv beta iota.

Lemma og_run E w : env_ok E ->
  exists im title_x subtitle_x tagline_x,
    create_og_image E w =
      (Ok (fresh (dom (w_heap w))),
       World (<[fresh (dom (w_heap w)) := im]> (w_heap w))
             (w_log w ++ og_trace E (fresh (dom (w_heap w))) title_x subtitle_x tagline_x)) /\
    is_card im /\
    centred (og_fonts E).1.1 "JustLayMe" title_x /\
    centred (og_fonts E).1.2 "Unfiltered AI Conversations" subtitle_x /\
    centred (og_fonts E).2 "Chat Without Restrictions" tagline_x.
Proof.
  intros HE.
  destruct (gradient_run WIDTH HEIGHT DARK_BG ACCENT_CYAN w)
    as (m & Hgrad & _); try reflexivity.
  pose proof (load_fonts_ok E 90 48 36 HE) as HF.
  unfold og_trace, og_fonts in *.
  destruct (load_fonts E 90 48 36) as [[tf sf] gf] eqn:Hfonts. cbn [fst snd] in *.
  destruct HF as (F1 & F2 & F3).
  destruct (centred_exact _ "JustLayMe" F1) as (xt & Hxt & _).
  destruct (centred_exact _ "Unfiltered AI Conversations" F2) as (xs & Hxs & _).
  destruct (centred_exact _ "Chat Without Restrictions" F3) as (xg & Hxg & _).
  eexists _, xt, xs, xg. split; [|split; [|auto]].
  - unfold create_og_image. rewrite bind_run, Hgrad. unfold at_store.
    cbv beta iota. rewrite Hfonts.
    draw_step.
    centre_step Hxt. draw_step.
    centre_step Hxs. draw_step.
    centre_step Hxg. draw_step.
    rewrite <- !app_assoc. reflexivity.
  - split; reflexivity.
Qed.

Lemma twitter_run E w : env_ok E ->
  exists im title_x subtitle_x tagline_x,
    create_twitter_image E w =
      (Ok (fresh (dom (w_heap w))),
       World (<[fresh (dom (w_heap w)) := im]> (w_heap w))
             (w_log w ++ twitter_trace E (fresh (dom (w_heap w))) title_x subtitle_x tagline_x)) /\
    is_card im /\
    centred (twitter_fonts E).1.1 "JustLayMe" title_x /\
    centred (twitter_fonts E).1.2 "Unfiltered AI Conversations" subtitle_x /\
    centred (twitter_fonts E).2 "Chat Without Restrictions" tagline_x.
Proof.
  intros HE.
  destruct (gradient_run WIDTH HEIGHT DARK_BG ACCENT_PURPLE w)
    as (m & Hgrad & _); try reflexivity.
  pose proof (load_fonts_ok E 85 42 32 HE) as HF.
  unfold twitter_trace, twitter_fonts in *.
  destruct (load_fonts E 85 42 32) as [[tf sf] gf] eqn:Hfonts. cbn [fst snd] in *.
  destruct HF as (F1 & F2 & F3).
  destruct (centred_exact _ "JustLayMe" F1) as (xt & Hxt & _).
  destruct (centred_exact _ "Unfiltered AI Conversations" F2) as (xs & Hxs & _).
  destruct (centred_exact _ "Chat Without Restrictions" F3) as (xg & Hxg & _).
  eexists _, xt, xs, xg. split; [|split; [|auto]].
  - unfold create_twitter_image. rewrite bind_run, Hgrad. unfold at_store.
    cbv beta iota. rewrite Hfonts.
    draw_step.
    centre_step Hxt. draw_step.
    centre_step Hxs. draw_step.
    centre_step Hxg. draw_step.
    rewrite <- !app_assoc. reflexivity.
  - split; reflexivity.
Qed.

(** ** The run *)

Lemma for_print lines w :
  for_ lines print w = (Ok tt, World (w_heap w) (w_log w ++ (EvPrint <$> lines))).
Proof.
  revert w. induction lines as [|line lines IH]; intros w.
  - cbn. rewrite app_nil_r. destruct w; reflexivity.
  - cbn [for_]. rewrite bind_run. unfold print at 1, emit.
    rewrite IH. cbn [w_heap w_log]. rewrite <- app_assoc. reflexivity.
Qed.

Lemma main_run E w : env_ok E ->
  exists l1 im1 t1 l2 im2 t2,
    l1 = fresh (dom (w_heap w)) /\ is_card im1 /\ og_card E l1 t1 /\
    l2 = fresh (dom (<[l1 := im1]> (w_heap w))) /\ is_card im2 /\ twitter_card E l2 t2 /\
    main E w = main_outcome E w l1 im1 t1 l2 im2 t2.
Proof.
  intros HE.
  set (w0 := World (w_heap w) (w_log w ++ [EvPrint "Generating OG and Twitter Card images..."])).
  destruct (og_run E w0 HE) as (im1 & a1 & b1 & c1 & Hog & Hcard1 & Ha1 & Hb1 & Hc1).
  cbn [w_heap w_log w0] in Hog.
  set (l1 := fresh (dom (w_heap w))) in *.
  set (t1 := og_trace E l1 a1 b1 c1) in *.
  set (lg1 := (w_log w ++ [EvPrint "Generating OG and Twitter Card images..."]) ++ t1) in *.
  set (w1 := World (<[l1 := im1]> (w_heap w))
                   ((lg1 ++ [EvSave l1 og_path "JPEG" 90 true im1]) ++
                    [EvPrint ("Created: " +:+ og_path)])).
  destruct (twitter_run E w1 HE) as (im2 & a2 & b2 & c2 & Htw & Hcard2 & Ha2 & Hb2 & Hc2).
  cbn [w_heap w_log w1] in Htw.
  set (l2 := fresh (dom (<[l1 := im1]> (w_heap w)))) in *.
  set (t2 := twitter_trace E l2 a2 b2 c2) in *.
  exists l1, im1, t1, l2, im2, t2.
  split; [reflexivity|]. split; [exact Hcard1|].
  split; [exists a1, b1, c1; auto|].
  split; [reflexivity|]. split; [exact Hcard2|].
  split; [exists a2, b2, c2; auto|].
  unfold main, main_outcome, stage_done, stage_twitter, stage_og_saved, stage_og.
  rewrite bind_run. unfold print at 1, emit. cbv beta iota. fold w0.
  rewrite bind_run, Hog. cbv beta iota.
  rewrite bind_run, save_run.
  destruct (writable E og_path); cbv beta iota.
  - rewrite bind_run. unfold print at 1, emit. cbv beta iota.
    cbn [w_heap w_log]. fold w1. rewrite bind_run, Htw. cbv beta iota.
    rewrite bind_run, save_run.
    destruct (writable E twitter_path); cbv beta iota.
    + rewrite bind_run. unfold print at 1, emit. cbv beta iota.
      rewrite for_print. cbn [w_heap w_log].
      unfold lg1. rewrite <- !app_assoc. reflexivity.
    + unfold lg1. rewrite <- !app_assoc. reflexivity.
  - unfold lg1. rewrite <- !app_assoc. reflexivity.
Qed.

(** The whole script, by the environment. *)
Lemma script_run E w : env_ok E ->
  exists l1 im1 t1 l2 im2 t2,
    l1 = fresh (dom (w_heap w)) /\ is_card im1 /\ og_card E l1 t1 /\
    l2 = fresh (dom (<[l1 := im1]> (w_heap w))) /\ is_card im2 /\ twitter_card E l2 t2 /\
    script E w =
      if pil_installed E then
        match main_outcome E w l1 im1 t1 l2 im2 t2 with
        | (Ok _, w') => (Exited 0, w')
        | (Raise e, w') => (Uncaught e, w')
        end
      else (Exited 1, World (w_heap w) (w_log w ++ (EvPrint <$> remediation))).
Proof.
  intros HE.
  destruct (main_run E w HE) as (l1 & im1 & t1 & l2 & im2 & t2 & H1 & C1 & T1 & H2 & C2 & T2 & Hm).
  exists l1, im1, t1, l2, im2, t2. repeat (split; [assumption|]).
  unfold script. rewrite bind_run. unfold import_pil.
  destruct (pil_installed E).
  - rewrite Hm. unfold main_outcome.
    destruct (writable E og_path); [destruct (writable E twitter_path)|]; reflexivity.
  - rewrite for_print. reflexivity.
Qed.

(** ** The canvas of a gradient *)

Lemma fresh_absent (h : gmap loc image) : h !! fresh (dom h) = None.
Proof. apply not_elem_of_dom, is_fresh. Qed.

(** The canvas [create_gradient_background] returns: a new object of
    the requested size whose pixels are what the loop body computes. *)
Lemma gradient_canvas width height color1 color2 w :
  0 < width -> 0 < height ->
  is_hex_color color1 = true -> is_hex_color color2 = true ->
  exists canvas,
    create_gradient_background width height color1 color2 w =
      (Ok (fresh (dom (w_heap w))),
       World (<[fresh (dom (w_heap w)) := canvas]> (w_heap w))
             (w_log w ++ [EvNew (fresh (dom (w_heap w))) width height])) /\
    im_width canvas = width /\ im_height canvas = height /\
    pix_ok width height color1 color2 (fun _ _ => True) (im_pixels canvas) /\
    forall x y, in_canvas width height x y ->
      getpixel canvas x y = gradient_pixel width height color1 color2 x y.
Proof.
  intros Hw Hh V1 V2.
  destruct (gradient_run width height color1 color2 w Hw Hh V1 V2) as (m & Hrun & Hm).
  exists (Image width height m). split; [exact Hrun|].
  split; [reflexivity|]. split; [reflexivity|]. split; [exact Hm|].
  intros x y Hin. apply (pix_ok_getpixel _ _ _ _ _ _ _ Hm Hin).
Qed.

Lemma hex_channels_bytes color r g b :
  is_hex_color color = true -> hex_channels color = Ok (r, g, b) -> rgb_bytes (r, g, b).
Proof.
  intros V H. destruct (hex_color_channels color V) as (r' & g' & b' & H' & _ & B).
  rewrite H in H'. inversion H'; subst. exact B.
Qed.

(** ** Traces and environments *)

Lemma env_ok_sample pil fonts can_write tw :
  Z.abs tw < 2 ^ 32 -> env_ok (sample_env pil fonts can_write tw).
Proof.
  intros Htw. split.
  - intros text. cbn. rewrite Z.sub_0_r. exact Htw.
  - intros path size f Hf. cbn in Hf. destruct fonts; [|discriminate].
    inversion Hf; subst. intros text. cbn. rewrite Z.sub_0_r. exact Htw.
Qed.

(** What the computed offset is worth: exactly half the free width, so
    the text ends inside the canvas whenever it is no wider than it. *)
Lemma centred_facts f text x : font_ok f -> centred f text x ->
  F64.exactly x (WIDTH - text_width f text) 2 /\
  (text_width f text <= WIDTH -> fits x (text_width f text) WIDTH).
Proof.
  intros Hf Hx. destruct (centred_exact f text Hf) as (x' & Hx' & Hex).
  unfold centred in *. rewrite Hx in Hx'. inversion Hx'; subst x'.
  split; [exact Hex|]. intros Hle. destruct Hex as [_ Hv]. unfold fits.
  pose proof F64Facts.U_pos. nia.
Qed.

Lemma printed_app l1 l2 : printed (l1 ++ l2) = printed l1 ++ printed l2.
Proof. apply omap_app. Qed.

Lemma saved_app l1 l2 : saved (l1 ++ l2) = saved l1 ++ saved l2.
Proof. apply omap_app. Qed.

Lemma text_events_app l1 l2 : text_events (l1 ++ l2) = text_events l1 ++ text_events l2.
Proof. apply omap_app. Qed.

Lemma printed_prints lines : printed (EvPrint <$> lines) = lines.
Proof. induction lines as [|? ? IH]; [reflexivity|]. cbn. f_equal. exact IH. Qed.

Lemma saved_prints lines : saved (EvPrint <$> lines) = [].
Proof. induction lines as [|? ? IH]; [reflexivity|exact IH]. Qed.

Lemma paths_differ : og_path <> twitter_path.
Proof. vm_compute. discriminate. Qed.

(** How the script ends depends on whether PIL is there and on whether
    the two files can be written, and on nothing else. *)
Lemma script_termination E w : env_ok E ->
  fst (script E w) =
    if pil_installed E then
      if writable E og_path then
        if writable E twitter_path then Exited 0 else Uncaught OSError
      else Uncaught OSError
    else Exited 1.
Proof.
  intros HE.
  destruct (script_run E w HE) as (l1 & im1 & t1 & l2 & im2 & t2 & _ & _ & _ & _ & _ & _ & ->).
  unfold main_outcome.
  destruct (pil_installed E); [|reflexivity].
  destruct (writable E og_path); [destruct (writable E twitter_path)|]; reflexivity.
Qed.

Lemma script_without_pil E w : pil_installed E = false ->
  script E w = (Exited 1, World (w_heap w) (w_log w ++ (EvPrint <$> remediation))).
Proof.
  intros Hp. unfold script. rewrite bind_run. unfold import_pil. rewrite Hp.
  rewrite for_print. reflexivity.
Qed.

Lemma same_but_lettering_refl E im : same_but_lettering E im im.
Proof. exists im, [], []. split; [constructor|]. split; reflexivity. Qed.

Lemma same_but_glyphs_refl E t : Forall2 (same_but_glyphs E) t t.
Proof.
  induction t as [|ev t IH]; constructor; [|exact IH].
  destruct ev; cbn; auto 10 using same_but_lettering_refl.
Qed.

Lemma script_added E w : env_ok E ->
  exists l1 im1 t1 l2 im2 t2,
    l1 = fresh (dom (w_heap w)) /\ is_card im1 /\ og_card E l1 t1 /\
    l2 = fresh (dom (<[l1 := im1]> (w_heap w))) /\ is_card im2 /\ twitter_card E l2 t2 /\
    added w (snd (script E w)) (script_trace E l1 im1 t1 l2 im2 t2).
Proof.
  intros HE.
  destruct (script_run E w HE)
    as (l1 & im1 & t1 & l2 & im2 & t2 & H1 & C1 & T1 & H2 & C2 & T2 & ->).
  exists l1, im1, t1, l2, im2, t2. repeat (split; [assumption|]).
  unfold script_trace, main_outcome, added.
  destruct (pil_installed E); [|reflexivity].
  destruct (writable E og_path); [destruct (writable E twitter_path)|]; reflexivity.
Qed.

Lemma second_loc (h : gmap loc image) l im im' :
  fresh (dom (<[l := im]> h)) = fresh (dom (<[l := im']> h)).
Proof. rewrite !dom_insert_L. reflexivity. Qed.

(** Every sum [x + y] that occurs on the 1200x630 canvas, divided by
    1830 in binary64, lands in [0, 1). *)
Lemma ratio_check_all :
  forallb (ratio_check WIDTH HEIGHT) (range (WIDTH + HEIGHT - 1)) = true.
Proof. vm_compute. reflexivity. Qed.

(** ** The pictures on the cards *)

(** The OG card, with the picture it ends up holding: the gradient
    canvas, which no font enters, with shape and text drawn over it. *)
Lemma og_picture_run E w : env_ok E ->
  exists m title_x subtitle_x tagline_x,
    pix_ok WIDTH HEIGHT DARK_BG ACCENT_CYAN (fun _ _ => True) m /\
    create_og_image E w =
      (Ok (fresh (dom (w_heap w))),
       World (<[fresh (dom (w_heap w)) :=
                  og_picture E (Image WIDTH HEIGHT m) title_x subtitle_x tagline_x]> (w_heap w))
             (w_log w ++ og_trace E (fresh (dom (w_heap w))) title_x subtitle_x tagline_x)).
Proof.
  intros HE.
  destruct (gradient_run WIDTH HEIGHT DARK_BG ACCENT_CYAN w)
    as (m & Hgrad & Hm); try reflexivity.
  pose proof (load_fonts_ok E 90 48 36 HE) as HF.
  unfold og_picture, og_trace, og_fonts in *.
  destruct (load_fonts E 90 48 36) as [[tf sf] gf] eqn:Hfonts. cbn [fst snd] in *.
  destruct HF as (F1 & F2 & F3).
  destruct (centred_exact _ "JustLayMe" F1) as (xt & Hxt & _).
  destruct (centred_exact _ "Unfiltered AI Conversations" F2) as (xs & Hxs & _).
  destruct (centred_exact _ "Chat Without Restrictions" F3) as (xg & Hxg & _).
  exists m, xt, xs, xg. split; [exact Hm|].
  unfold create_og_image. rewrite bind_run, Hgrad. unfold at_store.
  cbv beta iota. rewrite Hfonts.
  draw_step.
  centre_step Hxt. draw_step.
  centre_step Hxs. draw_step.
  centre_step Hxg. draw_step.
  rewrite <- !app_assoc. reflexivity.
Qed.

Lemma twitter_picture_run E w : env_ok E ->
  exists m title_x subtitle_x tagline_x,
    pix_ok WIDTH HEIGHT DARK_BG ACCENT_PURPLE (fun _ _ => True) m /\
    create_twitter_image E w =
      (Ok (fresh (dom (w_heap w))),
       World (<[fresh (dom (w_heap w)) :=
                  twitter_picture E (Image WIDTH HEIGHT m) title_x subtitle_x tagline_x]> (w_heap w))
             (w_log w ++ twitter_trace E (fresh (dom (w_heap w))) title_x subtitle_x tagline_x)).
Proof.
  intros HE.
  destruct (gradient_run WIDTH HEIGHT DARK_BG ACCENT_PURPLE w)
    as (m & Hgrad & Hm); try reflexivity.
  pose proof (load_fonts_ok E 85 42 32 HE) as HF.
  unfold twitter_picture, twitter_trace, twitter_fonts in *.
  destruct (load_fonts E 85 42 32) as [[tf sf] gf] eqn:Hfonts. cbn [fst snd] in *.
  destruct HF as (F1 & F2 & F3).
  destruct (centred_exact _ "JustLayMe" F1) as (xt & Hxt & _).
  destruct (centred_exact _ "Unfiltered AI Conversations" F2) as (xs & Hxs & _).
  destruct (centred_exact _ "Chat Without Restrictions" F3) as (xg & Hxg & _).
  exists m, xt, xs, xg. split; [exact Hm|].
  unfold create_twitter_image. rewrite bind_run, Hgrad. unfold at_store.
  cbv beta iota. rewrite Hfonts.
  draw_step.
  centre_step Hxt. draw_step.
  centre_step Hxs. draw_step.
  centre_step Hxg. draw_step.
  rewrite <- !app_assoc. reflexivity.
Qed.

(** The run of [main], with the pictures it saves. *)
Lemma main_run_pictures E w : env_ok E ->
  exists m1 a1 b1 c1 m2 a2 b2 c2,
    pix_ok WIDTH HEIGHT DARK_BG ACCENT_CYAN (fun _ _ => True) m1 /\
    pix_ok WIDTH HEIGHT DARK_BG ACCENT_PURPLE (fun _ _ => True) m2 /\
    let l1 := fresh (dom (w_heap w)) in
    let im1 := og_picture E (Image WIDTH HEIGHT m1) a1 b1 c1 in
    let l2 := fresh (dom (<[l1 := im1]> (w_heap w))) in
    let im2 := twitter_picture E (Image WIDTH HEIGHT m2) a2 b2 c2 in
    main E w = main_outcome E w l1 im1 (og_trace E l1 a1 b1 c1) l2 im2 (twitter_trace E l2 a2 b2 c2).
Proof.
  intros HE.
  set (w0 := World (w_heap w) (w_log w ++ [EvPrint "Generating OG and Twitter Card images..."])).
  destruct (og_picture_run E w0 HE) as (m1 & a1 & b1 & c1 & Hm1 & Hog).
  cbn [w_heap w_log w0] in Hog.
  set (l1 := fresh (dom (w_heap w))) in *.
  set (im1 := og_picture E (Image WIDTH HEIGHT m1) a1 b1 c1) in *.
  set (t1 := og_trace E l1 a1 b1 c1) in *.
  set (lg1 := (w_log w ++ [EvPrint "Generating OG and Twitter Card images..."]) ++ t1) in *.
  set (w1 := World (<[l1 := im1]> (w_heap w))
                   ((lg1 ++ [EvSave l1 og_path "JPEG" 90 true im1]) ++
                    [EvPrint ("Created: " +:+ og_path)])).
  destruct (twitter_picture_run E w1 HE) as (m2 & a2 & b2 & c2 & Hm2 & Htw).
  cbn [w_heap w_log w1] in Htw.
  set (l2 := fresh (dom (<[l1 := im1]> (w_heap w)))) in *.
  set (im2 := twitter_picture E (Image WIDTH HEIGHT m2) a2 b2 c2) in *.
  set (t2 := twitter_trace E l2 a2 b2 c2) in *.
  exists m1, a1, b1, c1, m2, a2, b2, c2.
  split; [exact Hm1|]. split; [exact Hm2|]. cbv zeta.
  fold l1. fold im1. fold l2. fold im2. fold t1. fold t2.
  unfold main, main_outcome, stage_done, stage_twitter, stage_og_saved, stage_og.
  rewrite bind_run. unfold print at 1, emit. cbv beta iota. fold w0.
  rewrite bind_run, Hog. cbv beta iota.
  rewrite bind_run, save_run.
  destruct (writable E og_path); cbv beta iota.
  - rewrite bind_run. unfold print at 1, emit. cbv beta iota.
    cbn [w_heap w_log]. fold w1. rewrite bind_run, Htw. cbv beta iota.
    rewrite bind_run, save_run.
    destruct (writable E twitter_path); cbv beta iota.
    + rewrite bind_run. unfold print at 1, emit. cbv beta iota.
      rewrite for_print. cbn [w_heap w_log].
      unfold lg1. rewrite <- !app_assoc. reflexivity.
    + unfold lg1. rewrite <- !app_assoc. reflexivity.
  - unfold lg1. rewrite <- !app_assoc. reflexivity.
Qed.

(** The trace of the script, with the pictures it saves. *)
Lemma script_pictures E w : env_ok E ->
  exists m1 a1 b1 c1 m2 a2 b2 c2,
    pix_ok WIDTH HEIGHT DARK_BG ACCENT_CYAN (fun _ _ => True) m1 /\
    pix_ok WIDTH HEIGHT DARK_BG ACCENT_PURPLE (fun _ _ => True) m2 /\
    let l1 := fresh (dom (w_heap w)) in
    let im1 := og_picture E (Image WIDTH HEIGHT m1) a1 b1 c1 in
    let l2 := fresh (dom (<[l1 := im1]> (w_heap w))) in
    let im2 := twitter_picture E (Image WIDTH HEIGHT m2) a2 b2 c2 in
    added w (snd (script E w))
      (script_trace E l1 im1 (og_trace E l1 a1 b1 c1) l2 im2 (twitter_trace E l2 a2 b2 c2)).
Proof.
  intros HE.
  destruct (main_run_pictures E w HE) as (m1 & a1 & b1 & c1 & m2 & a2 & b2 & c2 & Hm1 & Hm2 & Hm).
  exists m1, a1, b1, c1, m2, a2, b2, c2. split; [exact Hm1|]. split; [exact Hm2|].
  cbv zeta in *. unfold script. rewrite bind_run. unfold import_pil.
  unfold script_trace, added.
  destruct (pil_installed E).
  - rewrite Hm. unfold main_outcome.
    destruct (writable E og_path); [destruct (writable E twitter_path)|]; reflexivity.
  - rewrite for_print. reflexivity.
Qed.

(** Each card's picture is its backdrop with three lines lettered over
    it. *)
Lemma og_picture_lettered E canvas a b c :
  og_picture E canvas a b c =
    lettered E
      (repainted canvas
         (paint_ellipse E (WIDTH - 120 * 2 - 50, HEIGHT - 120 * 2 - 30, WIDTH - 50, HEIGHT - 30)
                        ACCENT_PURPLE 3))
      [ (a, 150, "JustLayMe", WHITE, (og_fonts E).1.1);
        (b, 280, "Unfiltered AI Conversations", ACCENT_CYAN, (og_fonts E).1.2);
        (c, 370, "Chat Without Restrictions", LIGHT_GRAY, (og_fonts E).2) ].
Proof. reflexivity. Qed.

Lemma twitter_picture_lettered E canvas a b c :
  twitter_picture E canvas a b c =
    lettered E
      (repainted canvas (paint_rectangle E (50, 50, 100, 100) ACCENT_PURPLE 3))
      [ (a, 120, "JustLayMe", WHITE, (twitter_fonts E).1.1);
        (b, 250, "Unfiltered AI Conversations", ACCENT_PURPLE, (twitter_fonts E).1.2);
        (c, 340, "Chat Without Restrictions", WHITE, (twitter_fonts E).2) ].
Proof. reflexivity. Qed.

(** Other fonts change the lettering of a card and nothing else. *)
Lemma og_pictures_alike E tt dflt canvas a b c a' b' c' :
  same_but_lettering E (og_picture E canvas a b c)
                       (og_picture (with_fonts E tt dflt) canvas a' b' c').
Proof.
  exists (repainted canvas
            (paint_ellipse E (WIDTH - 120 * 2 - 50, HEIGHT - 120 * 2 - 30, WIDTH - 50, HEIGHT - 30)
                           ACCENT_PURPLE 3)),
    [ (a, 150, "JustLayMe", WHITE, (og_fonts E).1.1);
      (b, 280, "Unfiltered AI Conversations", ACCENT_CYAN, (og_fonts E).1.2);
      (c, 370, "Chat Without Restrictions", LIGHT_GRAY, (og_fonts E).2) ],
    [ (a', 150, "JustLayMe", WHITE, (og_fonts (with_fonts E tt dflt)).1.1);
      (b', 280, "Unfiltered AI Conversations", ACCENT_CYAN, (og_fonts (with_fonts E tt dflt)).1.2);
      (c', 370, "Chat Without Restrictions", LIGHT_GRAY, (og_fonts (with_fonts E tt dflt)).2) ].
  split; [repeat constructor|]. split; reflexivity.
Qed.

Lemma twitter_pictures_alike E tt dflt canvas a b c a' b' c' :
  same_but_lettering E (twitter_picture E canvas a b c)
                       (twitter_picture (with_fonts E tt dflt) canvas a' b' c').
Proof.
  exists (repainted canvas (paint_rectangle E (50, 50, 100, 100) ACCENT_PURPLE 3)),
    [ (a, 120, "JustLayMe", WHITE, (twitter_fonts E).1.1);
      (b, 250, "Unfiltered AI Conversations", ACCENT_PURPLE, (twitter_fonts E).1.2);
      (c, 340, "Chat Without Restrictions", WHITE, (twitter_fonts E).2) ],
    [ (a', 120, "JustLayMe", WHITE, (twitter_fonts (with_fonts E tt dflt)).1.1);
      (b', 250, "Unfiltered AI Conversations", ACCENT_PURPLE,
       (twitter_fonts (with_fonts E tt dflt)).1.2);
      (c', 340, "Chat Without Restrictions", WHITE, (twitter_fonts (with_fonts E tt dflt)).2) ].
  split; [repeat constructor|]. split; reflexivity.
Qed.

(** Lettering keeps the size of the picture, and every pixel that
    drawing text does not reach. *)
Lemma lettered_size E base lines :
  im_width (lettered E base lines) = im_width base /\
  im_height (lettered E base lines) = im_height base.
Proof.
  revert base. induction lines as [|[[[[x y] text] fill] f] lines IH]; intros base.
  - split; reflexivity.
  - destruct (IH (repainted base (paint_text E x y text fill f))) as [Hw Hh].
    split; [exact Hw|exact Hh].
Qed.

Lemma lettered_leaves E base lines p : text_leaves E p ->
  im_pixels (lettered E base lines) !! p = im_pixels base !! p.
Proof.
  intros Hp. revert base. induction lines as [|[[[[x y] text] fill] f] lines IH]; intros base.
  - reflexivity.
  - change (lettered E base ((x, y, text, fill, f) :: lines))
      with (lettered E (repainted base (paint_text E x y text fill f)) lines).
    rewrite IH. apply Hp.
Qed.

Lemma same_but_lettering_agree E im im' : same_but_lettering E im im' ->
  im_width im = im_width im' /\ im_height im = im_height im' /\
  forall p, text_leaves E p -> im_pixels im !! p = im_pixels im' !! p.
Proof.
  intros (base & lines & lines' & _ & -> & ->).
  destruct (lettered_size E base lines) as [-> ->].
  destruct (lettered_size E base lines') as [-> ->].
  split; [reflexivity|]. split; [reflexivity|].
  intros p Hp. rewrite !lettered_leaves by exact Hp. reflexivity.
Qed.

(* ================================================================== *)
(** * Part III: the properties of the specification                    *)
(* ================================================================== *)

(** C1.  For every width and height above zero and two ['#rrggbb']
    colours, [create_gradient_background] returns a canvas of that size
    whose pixel [(x, y)], for [x] in [0, width) and [y] in [0, height),
    holds per channel [c1 + (c2 - c1) * r] truncated to an integer, where
    [r = (x + y) / (width + height)]; the arithmetic is Python's
    (binary64) and raises nothing. *)
Theorem gradient_pixel_formula width height color1 color2 r1 g1 b1 r2 g2 b2 w :
  0 < width -> 0 < height ->
  is_hex_color color1 = true -> hex_channels color1 = Ok (r1, g1, b1) ->
  is_hex_color color2 = true -> hex_channels color2 = Ok (r2, g2, b2) ->
  exists l w' canvas,
    create_gradient_background width height color1 color2 w = (Ok l, w') /\
    w_heap w' !! l = Some canvas /\
    im_width canvas = width /\ im_height canvas = height /\
    forall x y, 0 <= x < width -> 0 <= y < height ->
      exists r,
        F64.truediv (x + y) (width + height) = Ok r /\
        getpixel canvas x y = Ok (chan r1 r2 r, chan g1 g2 r, chan b1 b2 r).
Proof.
  intros Hw Hh V1 H1 V2 H2.
  destruct (gradient_canvas width height color1 color2 w Hw Hh V1 V2)
    as (canvas & Hrun & Wd & Ht & _ & Hpx).
  eexists _, _, canvas. split; [exact Hrun|].
  split; [apply lookup_insert_eq|]. split; [exact Wd|]. split; [exact Ht|].
  intros x y Hx Hy.
  destruct (gradient_pixel_value width height color1 color2 r1 g1 b1 r2 g2 b2 x y
              (conj Hx Hy) H1 (hex_channels_bytes _ _ _ _ V1 H1)
              H2 (hex_channels_bytes _ _ _ _ V2 H2)) as (r & Hr & _ & _ & Hv).
  exists r. split; [exact Hr|]. rewrite Hpx by (split; assumption). exact Hv.
Qed.

Lemma gradient_pixel_formula_witness :
  exists l w' canvas,
    create_gradient_background 2 3 DARK_BG ACCENT_CYAN empty_world = (Ok l, w') /\
    w_heap w' !! l = Some canvas /\
    im_width canvas = 2 /\ im_height canvas = 3 /\
    forall x y, 0 <= x < 2 -> 0 <= y < 3 ->
      exists r,
        F64.truediv (x + y) (2 + 3) = Ok r /\
        getpixel canvas x y = Ok (chan 15 6 r, chan 15 182 r, chan 35 212 r).
Proof.
  apply (gradient_pixel_formula 2 3 DARK_BG ACCENT_CYAN 15 15 35 6 182 212 empty_world);
    [lia | lia | reflexivity | reflexivity | reflexivity | reflexivity].
Defined.

(** C2, as stated, fails: the code truncates where the property rounds.  On
    the OG background the green channel of pixel (10, 0) is
    [int(15.91...) = 15], while [round(15.91...)] is 16. *)
Lemma rounded_channel_differs :
  exists l w' canvas,
    create_gradient_background WIDTH HEIGHT DARK_BG ACCENT_CYAN empty_world = (Ok l, w') /\
    w_heap w' !! l = Some canvas /\
    hex_channels DARK_BG = Ok (15, 15, 35) /\
    hex_channels ACCENT_CYAN = Ok (6, 182, 212) /\
    getpixel canvas 10 0 = Ok (14, 15, 35) /\
    spec_rounded_channel 15 182 10 0 WIDTH HEIGHT = Ok 16.
Proof.
  destruct (gradient_canvas WIDTH HEIGHT DARK_BG ACCENT_CYAN empty_world)
    as (canvas & Hrun & _ & _ & _ & Hpx); try reflexivity.
  eexists _, _, canvas. split; [exact Hrun|]. split; [apply lookup_insert_eq|].
  split; [reflexivity|]. split; [reflexivity|].
  split; [|vm_compute; reflexivity].
  rewrite Hpx by (unfold in_canvas, WIDTH, HEIGHT; lia).
  vm_compute. reflexivity.
Qed.

(** C2, amended.  At every pixel of the canvas each channel is the
    truncation [int(c1 + (c2 - c1) * r)] with [r = (x + y) / (width +
    height)], not the rounded value; it already lies in [0, 255], so
    that clamping leaves it alone; and pixel (0, 0) is the start colour
    exactly. *)
Theorem gradient_pixel_truncates width height color1 color2 r1 g1 b1 r2 g2 b2 w :
  0 < width -> 0 < height ->
  is_hex_color color1 = true -> hex_channels color1 = Ok (r1, g1, b1) ->
  is_hex_color color2 = true -> hex_channels color2 = Ok (r2, g2, b2) ->
  exists l w' canvas,
    create_gradient_background width height color1 color2 w = (Ok l, w') /\
    w_heap w' !! l = Some canvas /\
    (forall x y, 0 <= x < width -> 0 <= y < height ->
       exists ratio,
         F64.truediv (x + y) (width + height) = Ok ratio /\
         let r := F64.trunc (F64.add (F64.of_int_core r1)
                                     (F64.mul (F64.of_int_core (r2 - r1)) ratio)) in
         let g := F64.trunc (F64.add (F64.of_int_core g1)
                                     (F64.mul (F64.of_int_core (g2 - g1)) ratio)) in
         let b := F64.trunc (F64.add (F64.of_int_core b1)
                                     (F64.mul (F64.of_int_core (b2 - b1)) ratio)) in
         getpixel canvas x y = Ok (r, g, b) /\
         0 <= r <= 255 /\ 0 <= g <= 255 /\ 0 <= b <= 255 /\
         clip8 r = r /\ clip8 g = g /\ clip8 b = b) /\
    getpixel canvas 0 0 = Ok (r1, g1, b1).
Proof.
  intros Hw Hh V1 H1 V2 H2.
  destruct (gradient_canvas width height color1 color2 w Hw Hh V1 V2)
    as (canvas & Hrun & _ & _ & _ & Hpx).
  pose proof (hex_channels_bytes _ _ _ _ V1 H1) as B1.
  pose proof (hex_channels_bytes _ _ _ _ V2 H2) as B2.
  eexists _, _, canvas. split; [exact Hrun|]. split; [apply lookup_insert_eq|].
  split.
  - intros x y Hx Hy.
    destruct (gradient_pixel_value width height color1 color2 r1 g1 b1 r2 g2 b2 x y
                (conj Hx Hy) H1 B1 H2 B2) as (r & Hr & HR & Hb & Hv).
    destruct B1 as (? & ? & ?), B2 as (? & ? & ?). unfold is_byte in *.
    pose proof (ChanFacts.chan_between r1 r2 r ltac:(lia) ltac:(lia) (proj1 HR) Hb).
    pose proof (ChanFacts.chan_between g1 g2 r ltac:(lia) ltac:(lia) (proj1 HR) Hb).
    pose proof (ChanFacts.chan_between b1 b2 r ltac:(lia) ltac:(lia) (proj1 HR) Hb).
    exists r. split; [exact Hr|]. cbv zeta.
    fold (chan r1 r2 r). fold (chan g1 g2 r). fold (chan b1 b2 r).
    split; [rewrite Hpx by (split; assumption); exact Hv|].
    rewrite !clip8_id by lia. repeat split; lia.
  - destruct (gradient_pixel_value width height color1 color2 r1 g1 b1 r2 g2 b2 0 0
                ltac:(unfold in_canvas; lia) H1 B1 H2 B2) as (r & Hr & _ & _ & Hv).
    assert (r = S754_zero false) as ->.
    { unfold F64.truediv in Hr. change (0 + 0) with 0 in Hr.
      destruct (Z.eqb_spec (width + height) 0); [lia|].
      change (0 =? 0) with true in Hr. cbv iota in Hr.
      replace (width + height <? 0) with false in Hr by (symmetry; apply Z.ltb_ge; lia).
      inversion Hr. reflexivity. }
    destruct B1 as (? & ? & ?), B2 as (? & ? & ?). unfold is_byte in *.
    rewrite !ChanFacts.chan_zero in Hv by lia.
    rewrite Hpx by (unfold in_canvas; lia). exact Hv.
Qed.

Lemma gradient_pixel_truncates_witness :
  exists l w' canvas,
    create_gradient_background 2 3 DARK_BG ACCENT_CYAN empty_world = (Ok l, w') /\
    w_heap w' !! l = Some canvas /\
    (forall x y, 0 <= x < 2 -> 0 <= y < 3 ->
       exists ratio,
         F64.truediv (x + y) (2 + 3) = Ok ratio /\
         let r := F64.trunc (F64.add (F64.of_int_core 15)
                                     (F64.mul (F64.of_int_core (6 - 15)) ratio)) in
         let g := F64.trunc (F64.add (F64.of_int_core 15)
                                     (F64.mul (F64.of_int_core (182 - 15)) ratio)) in
         let b := F64.trunc (F64.add (F64.of_int_core 35)
                                     (F64.mul (F64.of_int_core (212 - 35)) ratio)) in
         getpixel canvas x y = Ok (r, g, b) /\
         0 <= r <= 255 /\ 0 <= g <= 255 /\ 0 <= b <= 255 /\
         clip8 r = r /\ clip8 g = g /\ clip8 b = b) /\
    getpixel canvas 0 0 = Ok (15, 15, 35).
Proof.
  apply (gradient_pixel_truncates 2 3 DARK_BG ACCENT_CYAN 15 15 35 6 182 212 empty_world);
    [lia | lia | reflexivity | reflexivity | reflexivity | reflexivity].
Defined.

(** C3.  On the 1200x630 canvas the ratio [(x + y) / (width + height)]
    from which [create_gradient_background] computes the pixel at
    [(x, y)] satisfies [0 <= r < 1] at every pixel, the far corner
    (1199, 629) included: each pixel of the canvas is the interpolation
    at such a ratio, whatever the two colours. *)
Theorem ratio_below_one color1 color2 r1 g1 b1 r2 g2 b2 w :
  is_hex_color color1 = true -> hex_channels color1 = Ok (r1, g1, b1) ->
  is_hex_color color2 = true -> hex_channels color2 = Ok (r2, g2, b2) ->
  exists l w' canvas,
    create_gradient_background WIDTH HEIGHT color1 color2 w = (Ok l, w') /\
    w_heap w' !! l = Some canvas /\
    forall x y, 0 <= x < WIDTH -> 0 <= y < HEIGHT ->
      exists r,
        F64.truediv (x + y) (WIDTH + HEIGHT) = Ok r /\
        in_unit_interval r = true /\
        r <> one /\
        gradient_pixel WIDTH HEIGHT color1 color2 x y =
          Ok (chan r1 r2 r, chan g1 g2 r, chan b1 b2 r) /\
        getpixel canvas x y = Ok (chan r1 r2 r, chan g1 g2 r, chan b1 b2 r).
Proof.
  intros V1 H1 V2 H2.
  destruct (gradient_canvas WIDTH HEIGHT color1 color2 w ltac:(reflexivity) ltac:(reflexivity)
              V1 V2) as (canvas & Hrun & _ & _ & _ & Hpx).
  pose proof (hex_channels_bytes _ _ _ _ V1 H1) as B1.
  pose proof (hex_channels_bytes _ _ _ _ V2 H2) as B2.
  eexists _, _, canvas. split; [exact Hrun|]. split; [apply lookup_insert_eq|].
  intros x y Hx Hy.
  destruct (gradient_pixel_value WIDTH HEIGHT color1 color2 r1 g1 b1 r2 g2 b2 x y
              (conj Hx Hy) H1 B1 H2 B2) as (r & Hr & _ & _ & Hv).
  assert (Hunit : in_unit_interval r = true).
  { pose proof ratio_check_all as Hall. rewrite forallb_forall in Hall.
    specialize (Hall (x + y)). unfold ratio_check in Hall. rewrite Hr in Hall.
    apply Hall. apply list_elem_of_In, elem_of_range. unfold WIDTH, HEIGHT in *. lia. }
  exists r. split; [exact Hr|]. split; [exact Hunit|].
  split; [intros ->; vm_compute in Hunit; discriminate|].
  split; [exact Hv|]. rewrite Hpx by (split; assumption). exact Hv.
Qed.

Lemma ratio_below_one_witness :
  exists l w' canvas,
    create_gradient_background WIDTH HEIGHT DARK_BG ACCENT_CYAN empty_world = (Ok l, w') /\
    w_heap w' !! l = Some canvas /\
    forall x y, 0 <= x < WIDTH -> 0 <= y < HEIGHT ->
      exists r,
        F64.truediv (x + y) (WIDTH + HEIGHT) = Ok r /\
        in_unit_interval r = true /\
        r <> one /\
        gradient_pixel WIDTH HEIGHT DARK_BG ACCENT_CYAN x y =
          Ok (chan 15 6 r, chan 15 182 r, chan 35 212 r) /\
        getpixel canvas x y = Ok (chan 15 6 r, chan 15 182 r, chan 35 212 r).
Proof.
  apply (ratio_below_one DARK_BG ACCENT_CYAN 15 15 35 6 182 212 empty_world); reflexivity.
Defined.

(** C4, as stated, fails in its second half: the code never compares
    the measured width with the canvas.  With a font under which
    "JustLayMe" measures 1300 pixels the title is drawn at
    [x = (1200 - 1300) / 2 = -50.0], and [x + 1300 = 1250 > 1200]. *)
Lemma wide_text_overflows :
  exists l w' x,
    create_og_image wide_env empty_world = (Ok l, w') /\
    (x, "JustLayMe", load_default wide_env) ∈ text_events (w_log w') /\
    text_width (load_default wide_env) "JustLayMe" = 1300 /\
    F64.exactly x (WIDTH - 1300) 2 /\
    ~ fits x 1300 WIDTH.
Proof.
  assert (env_ok wide_env) as HE by (apply env_ok_sample; reflexivity).
  destruct (og_run wide_env empty_world HE) as (im & a & b & c & Hrun & _ & Ha & _ & _).
  eexists _, _, a.
  split; [exact Hrun|].
  assert (F64.exactly a (WIDTH - 1300) 2) as Hex.
  { apply (centred_facts (load_default wide_env) "JustLayMe" a); [apply HE|exact Ha]. }
  split; [cbn; left|].
  split; [reflexivity|].
  split; [exact Hex|].
  destruct Hex as [_ Hv]. unfold fits, WIDTH in *.
  pose proof F64Facts.U_pos. lia.
Qed.

(** C4, amended.  Every line of text either card draws is placed at
    exactly [(1200 - T) / 2], [T] its measured width under the font in
    use; it ends inside the canvas, [x + T <= 1200], when [T <= 1200]. *)
Theorem text_is_centred E w :
  env_ok E ->
  exists l1 w1 t1 l2 w2 t2,
    create_og_image E w = (Ok l1, w1) /\ added w w1 t1 /\
    create_twitter_image E w = (Ok l2, w2) /\ added w w2 t2 /\
    length (text_events t1) = 3%nat /\ length (text_events t2) = 3%nat /\
    forall x text f, (x, text, f) ∈ text_events t1 ++ text_events t2 ->
      centred f text x /\
      F64.exactly x (WIDTH - text_width f text) 2 /\
      (text_width f text <= WIDTH -> fits x (text_width f text) WIDTH).
Proof.
  intros HE.
  destruct (og_run E w HE) as (im1 & a1 & b1 & c1 & Hrun1 & _ & Ha1 & Hb1 & Hc1).
  destruct (twitter_run E w HE) as (im2 & a2 & b2 & c2 & Hrun2 & _ & Ha2 & Hb2 & Hc2).
  destruct (load_fonts_ok E 90 48 36 HE) as (F1 & F2 & F3).
  destruct (load_fonts_ok E 85 42 32 HE) as (G1 & G2 & G3).
  eexists _, _, _, _, _, _.
  split; [exact Hrun1|]. split; [reflexivity|].
  split; [exact Hrun2|]. split; [reflexivity|].
  split; [reflexivity|]. split; [reflexivity|].
  intros x text f Hin.
  assert (font_ok f /\ centred f text x) as [Hf Hx].
  { cbn in Hin.
    repeat (apply elem_of_cons in Hin as [Hin|Hin];
            [inversion Hin; subst; split; assumption|]).
    apply elem_of_nil in Hin. destruct Hin. }
  split; [exact Hx|]. apply centred_facts; assumption.
Qed.

Lemma text_is_centred_witness :
  exists l1 w1 t1 l2 w2 t2,
    create_og_image narrow_env empty_world = (Ok l1, w1) /\ added empty_world w1 t1 /\
    create_twitter_image narrow_env empty_world = (Ok l2, w2) /\ added empty_world w2 t2 /\
    length (text_events t1) = 3%nat /\ length (text_events t2) = 3%nat /\
    forall x text f, (x, text, f) ∈ text_events t1 ++ text_events t2 ->
      centred f text x /\
      F64.exactly x (WIDTH - text_width f text) 2 /\
      (text_width f text <= WIDTH -> fits x (text_width f text) WIDTH).
Proof.
  apply (text_is_centred narrow_env empty_world).
  split.
  - intros text. vm_compute. reflexivity.
  - intros path size f Hf. vm_compute in Hf. discriminate.
Defined.

(** C5.  Whatever fonts are on disk, and so both when the truetype
    fonts load and when a load fails and the default font is taken, each
    card is drawn without an exception on a canvas of exactly 1200x630.
    Replacing the fonts by any others changes only the glyphs: each card
    is the same picture underneath with the same words drawn over it,
    so that every pixel that drawing text does not reach is the same;
    the trace of the script is the same up to the offsets and fonts of
    the text and the glyphs of the saved pictures, and the script ends
    the same way.  The fonts never make the run fail: with PIL installed
    and both files writable it ends with status 0, and the only
    exception that can end it is the [OSError] of a file that cannot be
    written. *)
Theorem fonts_change_only_glyphs E tt dflt w :
  env_ok E -> env_ok (with_fonts E tt dflt) ->
  (exists l w1 w1' pic pic',
     create_og_image E w = (Ok l, w1) /\
     create_og_image (with_fonts E tt dflt) w = (Ok l, w1') /\
     w_heap w1 !! l = Some pic /\ w_heap w1' !! l = Some pic' /\
     (im_width pic = 1200 /\ im_height pic = 630) /\
     (im_width pic' = 1200 /\ im_height pic' = 630) /\
     same_but_lettering E pic pic' /\
     (forall p, text_leaves E p -> im_pixels pic !! p = im_pixels pic' !! p)) /\
  (exists l w1 w1' pic pic',
     create_twitter_image E w = (Ok l, w1) /\
     create_twitter_image (with_fonts E tt dflt) w = (Ok l, w1') /\
     w_heap w1 !! l = Some pic /\ w_heap w1' !! l = Some pic' /\
     (im_width pic = 1200 /\ im_height pic = 630) /\
     (im_width pic' = 1200 /\ im_height pic' = 630) /\
     same_but_lettering E pic pic' /\
     (forall p, text_leaves E p -> im_pixels pic !! p = im_pixels pic' !! p)) /\
  fst (script (with_fonts E tt dflt) w) = fst (script E w) /\
  (pil_installed E = true -> writable E og_path = true -> writable E twitter_path = true ->
     fst (script E w) = Exited 0 /\ fst (script (with_fonts E tt dflt) w) = Exited 0) /\
  (forall e, fst (script E w) = Uncaught e \/ fst (script (with_fonts E tt dflt) w) = Uncaught e ->
     e = OSError /\ (writable E og_path = false \/ writable E twitter_path = false)) /\
  exists t t',
    added w (snd (script E w)) t /\
    added w (snd (script (with_fonts E tt dflt) w)) t' /\
    Forall2 (same_but_glyphs E) t t' /\
    forall path im, (path, im) ∈ saved t ++ saved t' ->
      im_width im = 1200 /\ im_height im = 630.
Proof.
  intros HE HE'.
  assert (Hterm : forall E0, env_ok E0 -> pil_installed E0 = pil_installed E ->
                    writable E0 = writable E ->
                    (pil_installed E = true -> writable E og_path = true ->
                     writable E twitter_path = true -> fst (script E0 w) = Exited 0) /\
                    (forall e, fst (script E0 w) = Uncaught e ->
                       e = OSError /\
                       (writable E og_path = false \/ writable E twitter_path = false))).
  { intros E0 H0 Hp Hwr. rewrite (script_termination E0 w H0), Hp, Hwr.
    split.
    - intros -> -> ->. reflexivity.
    - intros e. destruct (pil_installed E); [|discriminate].
      destruct (writable E og_path); [destruct (writable E twitter_path)|];
        intros Heq; inversion Heq; auto. }
  split; [|split; [|split; [|split; [|split]]]].
  - destruct (og_picture_run E w HE) as (m & a & b & c & Hm & Hrun).
    destruct (og_picture_run (with_fonts E tt dflt) w HE') as (m' & a' & b' & c' & Hm' & Hrun').
    assert (m' = m) as -> by (apply (pix_ok_unique _ _ _ _ _ _ Hm' Hm)).
    eexists _, _, _, _, _. split; [exact Hrun|]. split; [exact Hrun'|].
    split; [apply lookup_insert_eq|]. split; [apply lookup_insert_eq|].
    split; [split; reflexivity|]. split; [split; reflexivity|].
    split; [apply og_pictures_alike|].
    apply (same_but_lettering_agree E), og_pictures_alike.
  - destruct (twitter_picture_run E w HE) as (m & a & b & c & Hm & Hrun).
    destruct (twitter_picture_run (with_fonts E tt dflt) w HE')
      as (m' & a' & b' & c' & Hm' & Hrun').
    assert (m' = m) as -> by (apply (pix_ok_unique _ _ _ _ _ _ Hm' Hm)).
    eexists _, _, _, _, _. split; [exact Hrun|]. split; [exact Hrun'|].
    split; [apply lookup_insert_eq|]. split; [apply lookup_insert_eq|].
    split; [split; reflexivity|]. split; [split; reflexivity|].
    split; [apply twitter_pictures_alike|].
    apply (same_but_lettering_agree E), twitter_pictures_alike.
  - rewrite !script_termination by assumption. reflexivity.
  - intros Hp Hog Htw. split.
    + apply (Hterm E HE); auto.
    + apply (Hterm (with_fonts E tt dflt) HE'); auto.
  - intros e [He|He].
    + apply (Hterm E HE); auto.
    + apply (Hterm (with_fonts E tt dflt) HE'); auto.
  - destruct (script_pictures E w HE)
      as (m1 & a1 & b1 & c1 & m2 & a2 & b2 & c2 & Hm1 & Hm2 & Hadd).
    destruct (script_pictures (with_fonts E tt dflt) w HE')
      as (m1' & a1' & b1' & c1' & m2' & a2' & b2' & c2' & Hm1' & Hm2' & Hadd').
    assert (m1' = m1) as -> by (apply (pix_ok_unique _ _ _ _ _ _ Hm1' Hm1)).
    assert (m2' = m2) as -> by (apply (pix_ok_unique _ _ _ _ _ _ Hm2' Hm2)).
    cbv zeta in Hadd, Hadd'.
    rewrite (second_loc (w_heap w) _
               (og_picture (with_fonts E tt dflt) (Image WIDTH HEIGHT m1) a1' b1' c1')
               (og_picture E (Image WIDTH HEIGHT m1) a1 b1 c1)) in Hadd'.
    set (l1 := fresh (dom (w_heap w))) in *.
    set (im1 := og_picture E (Image WIDTH HEIGHT m1) a1 b1 c1) in *.
    set (l2 := fresh (dom (<[l1 := im1]> (w_heap w)))) in *.
    set (im2 := twitter_picture E (Image WIDTH HEIGHT m2) a2 b2 c2) in *.
    set (im1' := og_picture (with_fonts E tt dflt) (Image WIDTH HEIGHT m1) a1' b1' c1') in *.
    set (im2' := twitter_picture (with_fonts E tt dflt) (Image WIDTH HEIGHT m2) a2' b2' c2') in *.
    assert (A1 : same_but_lettering E im1 im1') by apply og_pictures_alike.
    assert (A2 : same_but_lettering E im2 im2') by apply twitter_pictures_alike.
    assert (D1 : im_width im1 = 1200 /\ im_height im1 = 630) by (split; reflexivity).
    assert (D2 : im_width im2 = 1200 /\ im_height im2 = 630) by (split; reflexivity).
    assert (D1' : im_width im1' = 1200 /\ im_height im1' = 630) by (split; reflexivity).
    assert (D2' : im_width im2' = 1200 /\ im_height im2' = 630) by (split; reflexivity).
    clearbody im1 im2 im1' im2' l1 l2.
    eexists _, _. split; [exact Hadd|]. split; [exact Hadd'|].
    unfold script_trace. change (pil_installed (with_fonts E tt dflt)) with (pil_installed E).
    change (writable (with_fonts E tt dflt)) with (writable E).
    unfold stage_done, stage_twitter, stage_og_saved, stage_og, og_trace, twitter_trace.
    split.
    + destruct (pil_installed E); [|apply same_but_glyphs_refl].
      destruct (writable E og_path); [destruct (writable E twitter_path)|];
        repeat first [ apply List.Forall2_cons | apply List.Forall2_nil
                     | apply (same_but_glyphs_refl E (EvPrint <$> usage_hint))
                     | apply List.Forall2_app ];
        unfold same_but_glyphs; auto 10.
    + intros path im.
      destruct (pil_installed E); [|rewrite !saved_prints; intros Hin; inversion Hin].
      destruct (writable E og_path); [destruct (writable E twitter_path)|];
        rewrite ?saved_app, ?saved_prints; cbn; intros Hin;
        repeat (apply elem_of_cons in Hin as [Hin|Hin];
                [inversion Hin; subst; assumption|]);
        apply elem_of_nil in Hin; destruct Hin.
Qed.

Lemma fonts_change_only_glyphs_witness :
  (exists l w1 w1' pic pic',
     create_og_image narrow_env empty_world = (Ok l, w1) /\
     create_og_image (with_fonts narrow_env (truetype fonts_env) (load_default fonts_env))
                     empty_world = (Ok l, w1') /\
     w_heap w1 !! l = Some pic /\ w_heap w1' !! l = Some pic' /\
     (im_width pic = 1200 /\ im_height pic = 630) /\
     (im_width pic' = 1200 /\ im_height pic' = 630) /\
     same_but_lettering narrow_env pic pic' /\
     (forall p, text_leaves narrow_env p -> im_pixels pic !! p = im_pixels pic' !! p)) /\
  (exists l w1 w1' pic pic',
     create_twitter_image narrow_env empty_world = (Ok l, w1) /\
     create_twitter_image (with_fonts narrow_env (truetype fonts_env) (load_default fonts_env))
                          empty_world = (Ok l, w1') /\
     w_heap w1 !! l = Some pic /\ w_heap w1' !! l = Some pic' /\
     (im_width pic = 1200 /\ im_height pic = 630) /\
     (im_width pic' = 1200 /\ im_height pic' = 630) /\
     same_but_lettering narrow_env pic pic' /\
     (forall p, text_leaves narrow_env p -> im_pixels pic !! p = im_pixels pic' !! p)) /\
  fst (script (with_fonts narrow_env (truetype fonts_env) (load_default fonts_env)) empty_world) =
    fst (script narrow_env empty_world) /\
  (pil_installed narrow_env = true -> writable narrow_env og_path = true ->
   writable narrow_env twitter_path = true ->
     fst (script narrow_env empty_world) = Exited 0 /\
     fst (script (with_fonts narrow_env (truetype fonts_env) (load_default fonts_env))
                 empty_world) = Exited 0) /\
  (forall e,
     fst (script narrow_env empty_world) = Uncaught e \/
     fst (script (with_fonts narrow_env (truetype fonts_env) (load_default fonts_env))
                 empty_world) = Uncaught e ->
     e = OSError /\
     (writable narrow_env og_path = false \/ writable narrow_env twitter_path = false)) /\
  exists t t',
    added empty_world (snd (script narrow_env empty_world)) t /\
    added empty_world
      (snd (script (with_fonts narrow_env (truetype fonts_env) (load_default fonts_env))
                   empty_world)) t' /\
    Forall2 (same_but_glyphs narrow_env) t t' /\
    forall path im, (path, im) ∈ saved t ++ saved t' ->
      im_width im = 1200 /\ im_height im = 630.
Proof.
  apply (fonts_change_only_glyphs narrow_env (truetype fonts_env) (load_default fonts_env)
           empty_world).
  - split.
    + intros text. vm_compute. reflexivity.
    + intros path size f Hf. vm_compute in Hf. discriminate.
  - split.
    + intros text. vm_compute. reflexivity.
    + intros path size f Hf. cbn in Hf. inversion Hf; subst.
      intros text. vm_compute. reflexivity.
Defined.

(** C6, as stated, fails in its second half: with PIL installed the
    script need not run to completion.  [img.save] raises when the file
    cannot be written (the output directory is a fixed absolute path),
    and only [ImportError] is handled: the run stops with the exception
    after the first line of progress, without the usage hint. *)
Lemma readonly_run_aborts :
  pil_installed readonly_env = true /\
  fst (script readonly_env empty_world) = Uncaught OSError /\
  printed (w_log (snd (script readonly_env empty_world))) =
    ["Generating OG and Twitter Card images..."].
Proof.
  assert (env_ok readonly_env) as HE by (apply env_ok_sample; reflexivity).
  split; [reflexivity|]. split.
  - rewrite (script_termination readonly_env empty_world HE). reflexivity.
  - destruct (script_added readonly_env empty_world HE)
      as (l1 & im1 & t1 & l2 & im2 & t2 & _ & _ & T1 & _ & _ & _ & Hadd).
    rewrite Hadd. destruct T1 as (a & b & c & -> & _). reflexivity.
Qed.

(** C6, amended.  Without PIL the script prints the four remediation
    lines and exits with status 1, having drawn and written nothing.
    With PIL, and both output files writable, it runs to completion
    (status 0) and prints the progress lines and the usage hint. *)
Theorem script_outcome E w :
  (pil_installed E = false ->
     script E w = (Exited 1, World (w_heap w) (w_log w ++ (EvPrint <$> remediation))) /\
     exit_status (fst (script E w)) = 1) /\
  (pil_installed E = true -> env_ok E ->
     writable E og_path = true -> writable E twitter_path = true ->
     exists w' t,
       script E w = (Exited 0, w') /\ added w w' t /\
       printed t =
         ["Generating OG and Twitter Card images...";
          "Created: " +:+ og_path; "Created: " +:+ twitter_path] ++ usage_hint).
Proof.
  split.
  - intros Hp. rewrite (script_without_pil E w Hp). split; reflexivity.
  - intros Hp HE Hog Htw.
    destruct (script_run E w HE)
      as (l1 & im1 & t1 & l2 & im2 & t2 & _ & _ & T1 & _ & _ & T2 & Hrun).
    unfold main_outcome in Hrun. rewrite Hp, Hog, Htw in Hrun.
    eexists _, _. split; [exact Hrun|]. split; [reflexivity|].
    destruct T1 as (a1 & b1 & c1 & -> & _), T2 as (a2 & b2 & c2 & -> & _).
    unfold stage_done, stage_twitter, stage_og_saved, stage_og.
    rewrite !printed_app, printed_prints. reflexivity.
Qed.

Lemma script_outcome_witness :
  (script (sample_env false false true 300) empty_world =
     (Exited 1, World ∅ (EvPrint <$> remediation)) /\
   exit_status (fst (script (sample_env false false true 300) empty_world)) = 1) /\
  exists w' t,
    script narrow_env empty_world = (Exited 0, w') /\ added empty_world w' t /\
    printed t =
      ["Generating OG and Twitter Card images...";
       "Created: " +:+ og_path; "Created: " +:+ twitter_path] ++ usage_hint.
Proof.
  split.
  - apply (proj1 (script_outcome (sample_env false false true 300) empty_world)).
    reflexivity.
  - apply (proj2 (script_outcome narrow_env empty_world)).
    + reflexivity.
    + split.
      * intros text. vm_compute. reflexivity.
      * intros path size f Hf. vm_compute in Hf. discriminate.
    + reflexivity.
    + reflexivity.
Defined.

(** C7, as stated, fails in its first half: with PIL installed the
    script need not produce two files.  Where the output directory
    cannot be written the first [img.save] raises and no file is made. *)
Lemma readonly_run_writes_nothing :
  pil_installed readonly_env = true /\
  saved (w_log (snd (script readonly_env empty_world))) = [].
Proof.
  assert (env_ok readonly_env) as HE by (apply env_ok_sample; reflexivity).
  split; [reflexivity|].
  destruct (script_added readonly_env empty_world HE)
    as (l1 & im1 & t1 & l2 & im2 & t2 & _ & _ & T1 & _ & _ & _ & Hadd).
  rewrite Hadd. destruct T1 as (a & b & c & -> & _). reflexivity.
Qed.

(** C7, amended.  With PIL installed and both output files writable the
    script writes exactly two files, the OG card and then the Twitter
    card, to two different paths, each a 1200x630 picture.  Every
    outside call made before the OG card is saved leaves the Twitter
    image alone, the Twitter image is only created after that save, and
    no call after it touches the OG image, which is saved as it finally
    is. *)
Theorem two_files_in_order E w :
  env_ok E -> pil_installed E = true ->
  writable E og_path = true -> writable E twitter_path = true ->
  exists w' t l1 im1 l2 im2 before after,
    script E w = (Exited 0, w') /\ added w w' t /\
    saved t = [(og_path, im1); (twitter_path, im2)] /\
    og_path <> twitter_path /\
    is_card im1 /\ is_card im2 /\
    l1 <> l2 /\ w_heap w' !! l1 = Some im1 /\ w_heap w' !! l2 = Some im2 /\
    t = before ++ [EvSave l1 og_path "JPEG" 90 true im1] ++ after /\
    (forall ev, ev ∈ before -> touches l2 ev = false) /\
    EvNew l1 WIDTH HEIGHT ∈ before /\
    EvNew l2 WIDTH HEIGHT ∈ after /\
    (forall ev, ev ∈ after -> touches l1 ev = false).
Proof.
  intros HE Hp Hog Htw.
  destruct (script_run E w HE)
    as (l1 & im1 & t1 & l2 & im2 & t2 & H1 & C1 & T1 & H2 & C2 & T2 & Hrun).
  unfold main_outcome in Hrun. rewrite Hp, Hog, Htw in Hrun.
  assert (l1 <> l2) as Hne.
  { intros Heq. pose proof (fresh_absent (<[l1 := im1]> (w_heap w))) as Hf.
    rewrite <- H2, <- Heq, lookup_insert_eq in Hf. discriminate. }
  assert (bool_decide (l1 = l2) = false) as D12 by (apply bool_decide_eq_false; exact Hne).
  assert (bool_decide (l2 = l1) = false) as D21
    by (apply bool_decide_eq_false; intros Heq; apply Hne; symmetry; exact Heq).
  destruct T1 as (a1 & b1 & c1 & -> & _), T2 as (a2 & b2 & c2 & -> & _).
  exists (World (<[l2 := im2]> (<[l1 := im1]> (w_heap w)))
                (w_log w ++ stage_done l1 im1 (og_trace E l1 a1 b1 c1) l2 im2
                                       (twitter_trace E l2 a2 b2 c2))),
    (stage_done l1 im1 (og_trace E l1 a1 b1 c1) l2 im2 (twitter_trace E l2 a2 b2 c2)),
    l1, im1, l2, im2,
    (stage_og (og_trace E l1 a1 b1 c1)),
    ([EvPrint ("Created: " +:+ og_path)] ++ twitter_trace E l2 a2 b2 c2 ++
     [EvSave l2 twitter_path "JPEG" 90 true im2; EvPrint ("Created: " +:+ twitter_path)] ++
     (EvPrint <$> usage_hint)).
  split; [exact Hrun|]. split; [reflexivity|].
  split.
  { unfold stage_done, stage_twitter, stage_og_saved, stage_og.
    rewrite !saved_app, saved_prints. reflexivity. }
  split; [exact paths_differ|]. split; [exact C1|]. split; [exact C2|].
  split; [exact Hne|].
  split. { cbn. rewrite lookup_insert_ne by (intros Heq; apply Hne; symmetry; exact Heq).
           apply lookup_insert_eq. }
  split; [apply lookup_insert_eq|].
  split.
  { unfold stage_done, stage_twitter, stage_og_saved.
    rewrite <- !app_assoc. reflexivity. }
  split.
  { intros ev Hin. unfold stage_og, og_trace in Hin. cbn [app] in Hin.
    repeat (apply elem_of_cons in Hin as [Hin|Hin]; [subst ev; first [reflexivity|exact D12]|]).
    apply elem_of_nil in Hin. destruct Hin. }
  split; [unfold stage_og, og_trace; cbn [app]; right; left|].
  split; [unfold twitter_trace; cbn [app]; right; left|].
  intros ev Hin. unfold twitter_trace in Hin. cbn [app] in Hin.
  repeat (apply elem_of_cons in Hin as [Hin|Hin]; [subst ev; first [reflexivity|exact D21]|]).
  apply elem_of_nil in Hin. destruct Hin.
Qed.

Lemma two_files_in_order_witness :
  exists w' t l1 im1 l2 im2 before after,
    script narrow_env empty_world = (Exited 0, w') /\ added empty_world w' t /\
    saved t = [(og_path, im1); (twitter_path, im2)] /\
    og_path <> twitter_path /\
    is_card im1 /\ is_card im2 /\
    l1 <> l2 /\ w_heap w' !! l1 = Some im1 /\ w_heap w' !! l2 = Some im2 /\
    t = before ++ [EvSave l1 og_path "JPEG" 90 true im1] ++ after /\
    (forall ev, ev ∈ before -> touches l2 ev = false) /\
    EvNew l1 WIDTH HEIGHT ∈ before /\
    EvNew l2 WIDTH HEIGHT ∈ after /\
    (forall ev, ev ∈ after -> touches l1 ev = false).
Proof.
  apply (two_files_in_order narrow_env empty_world).
  - split.
    + intros text. vm_compute. reflexivity.
    + intros path size f Hf. vm_compute in Hf. discriminate.
  - reflexivity.
  - reflexivity.
  - reflexivity.
Defined.

(** C8.  [create_gradient_background] is a function of its arguments
    alone: in every world it returns the same canvas, as a new object;
    the objects that existed keep their state, and nothing is printed,
    drawn or written (the trace only records the allocation). *)
Theorem gradient_is_pure width height color1 color2 :
  0 < width -> 0 < height ->
  is_hex_color color1 = true -> is_hex_color color2 = true ->
  exists canvas, forall w,
    let l := fresh (dom (w_heap w)) in
    create_gradient_background width height color1 color2 w =
      (Ok l, World (<[l := canvas]> (w_heap w)) (w_log w ++ [EvNew l width height])) /\
    w_heap w !! l = None /\
    (forall l' im, w_heap w !! l' = Some im -> <[l := canvas]> (w_heap w) !! l' = Some im).
Proof.
  intros Hw Hh V1 V2.
  destruct (gradient_canvas width height color1 color2 empty_world Hw Hh V1 V2)
    as (canvas & _ & Wd & Ht & Hm & _).
  exists canvas. intros w l.
  destruct (gradient_canvas width height color1 color2 w Hw Hh V1 V2)
    as (canvas' & Hrun & Wd' & Ht' & Hm' & _).
  assert (canvas' = canvas) as ->.
  { destruct canvas as [cw ch cm], canvas' as [cw' ch' cm']. cbn in *. subst.
    f_equal. apply (pix_ok_unique _ _ _ _ _ _ Hm' Hm). }
  split; [exact Hrun|]. split; [apply fresh_absent|].
  intros l' im Hl'. rewrite lookup_insert_ne; [exact Hl'|].
  intros <-. unfold l in Hl'. rewrite fresh_absent in Hl'. discriminate.
Qed.

Lemma gradient_is_pure_witness :
  exists canvas, forall w,
    let l := fresh (dom (w_heap w)) in
    create_gradient_background 2 3 DARK_BG ACCENT_CYAN w =
      (Ok l, World (<[l := canvas]> (w_heap w)) (w_log w ++ [EvNew l 2 3])) /\
    w_heap w !! l = None /\
    (forall l' im, w_heap w !! l' = Some im -> <[l := canvas]> (w_heap w) !! l' = Some im).
Proof.
  apply (gradient_is_pure 2 3 DARK_BG ACCENT_CYAN); [lia | lia | reflexivity | reflexivity].
Defined.

(** C9.  For two ['#rrggbb'] colours every channel value the loops
    compute and assign lies between the two end values of its channel,
    hence in [0, 255]: storing it as a byte changes nothing, and the
    ratio it is computed from lies in [0, 1]. *)
Theorem gradient_channels_are_bytes width height color1 color2 r1 g1 b1 r2 g2 b2 w :
  0 < width -> 0 < height ->
  is_hex_color color1 = true -> hex_channels color1 = Ok (r1, g1, b1) ->
  is_hex_color color2 = true -> hex_channels color2 = Ok (r2, g2, b2) ->
  exists l w' canvas,
    create_gradient_background width height color1 color2 w = (Ok l, w') /\
    w_heap w' !! l = Some canvas /\
    forall x y, 0 <= x < width -> 0 <= y < height ->
      exists r g b,
        gradient_pixel width height color1 color2 x y = Ok (r, g, b) /\
        getpixel canvas x y = Ok (r, g, b) /\
        Z.min r1 r2 <= r <= Z.max r1 r2 /\
        Z.min g1 g2 <= g <= Z.max g1 g2 /\
        Z.min b1 b2 <= b <= Z.max b1 b2 /\
        rgb_bytes (r, g, b) /\
        (clip8 r, clip8 g, clip8 b) = (r, g, b).
Proof.
  intros Hw Hh V1 H1 V2 H2.
  destruct (gradient_canvas width height color1 color2 w Hw Hh V1 V2)
    as (canvas & Hrun & _ & _ & _ & Hpx).
  eexists _, _, canvas. split; [exact Hrun|]. split; [apply lookup_insert_eq|].
  intros x y Hx Hy.
  pose proof (hex_channels_bytes _ _ _ _ V1 H1) as B1.
  pose proof (hex_channels_bytes _ _ _ _ V2 H2) as B2.
  destruct (gradient_pixel_value width height color1 color2 r1 g1 b1 r2 g2 b2 x y
              (conj Hx Hy) H1 B1 H2 B2) as (r & _ & HR & Hb & Hv).
  destruct B1 as (? & ? & ?), B2 as (? & ? & ?). unfold is_byte in *.
  pose proof (ChanFacts.chan_between r1 r2 r ltac:(lia) ltac:(lia) (proj1 HR) Hb).
  pose proof (ChanFacts.chan_between g1 g2 r ltac:(lia) ltac:(lia) (proj1 HR) Hb).
  pose proof (ChanFacts.chan_between b1 b2 r ltac:(lia) ltac:(lia) (proj1 HR) Hb).
  exists (chan r1 r2 r), (chan g1 g2 r), (chan b1 b2 r).
  split; [exact Hv|]. split; [rewrite Hpx by (split; assumption); exact Hv|].
  split; [assumption|]. split; [assumption|]. split; [assumption|].
  split; [unfold rgb_bytes, is_byte; lia|].
  rewrite !clip8_id by lia. reflexivity.
Qed.

Lemma gradient_channels_are_bytes_witness :
  exists l w' canvas,
    create_gradient_background 2 3 DARK_BG ACCENT_PURPLE empty_world = (Ok l, w') /\
    w_heap w' !! l = Some canvas /\
    forall x y, 0 <= x < 2 -> 0 <= y < 3 ->
      exists r g b,
        gradient_pixel 2 3 DARK_BG ACCENT_PURPLE x y = Ok (r, g, b) /\
        getpixel canvas x y = Ok (r, g, b) /\
        Z.min 15 139 <= r <= Z.max 15 139 /\
        Z.min 15 92 <= g <= Z.max 15 92 /\
        Z.min 35 246 <= b <= Z.max 35 246 /\
        rgb_bytes (r, g, b) /\
        (clip8 r, clip8 g, clip8 b) = (r, g, b).
Proof.
  apply (gradient_channels_are_bytes 2 3 DARK_BG ACCENT_PURPLE 15 15 35 139 92 246 empty_world);
    [lia | lia | reflexivity | reflexivity | reflexivity | reflexivity].
Defined.

(** C10.  Each channel is monotone along the diagonal: of two pixels the
    one with the larger [x + y] has the larger or equal value when the
    channel of the end colour is at least that of the start colour, and
    the smaller or equal value when it is at most that. *)
Theorem gradient_monotone_along_diagonal width height color1 color2 r1 g1 b1 r2 g2 b2 w :
  0 < width -> 0 < height ->
  is_hex_color color1 = true -> hex_channels color1 = Ok (r1, g1, b1) ->
  is_hex_color color2 = true -> hex_channels color2 = Ok (r2, g2, b2) ->
  exists l w' canvas,
    create_gradient_background width height color1 color2 w = (Ok l, w') /\
    w_heap w' !! l = Some canvas /\
    forall x y x' y',
      0 <= x < width -> 0 <= y < height -> 0 <= x' < width -> 0 <= y' < height ->
      x + y <= x' + y' ->
      exists r g b r' g' b',
        getpixel canvas x y = Ok (r, g, b) /\
        getpixel canvas x' y' = Ok (r', g', b') /\
        (r1 <= r2 -> r <= r') /\ (r2 <= r1 -> r' <= r) /\
        (g1 <= g2 -> g <= g') /\ (g2 <= g1 -> g' <= g) /\
        (b1 <= b2 -> b <= b') /\ (b2 <= b1 -> b' <= b).
Proof.
  intros Hw Hh V1 H1 V2 H2.
  destruct (gradient_canvas width height color1 color2 w Hw Hh V1 V2)
    as (canvas & Hrun & _ & _ & _ & Hpx).
  eexists _, _, canvas. split; [exact Hrun|]. split; [apply lookup_insert_eq|].
  intros x y x' y' Hx Hy Hx' Hy' Hle.
  pose proof (hex_channels_bytes _ _ _ _ V1 H1) as B1.
  pose proof (hex_channels_bytes _ _ _ _ V2 H2) as B2.
  destruct (gradient_pixel_value width height color1 color2 r1 g1 b1 r2 g2 b2 x y
              (conj Hx Hy) H1 B1 H2 B2) as (r & _ & HR & Hb & Hv).
  destruct (gradient_pixel_value width height color1 color2 r1 g1 b1 r2 g2 b2 x' y'
              (conj Hx' Hy') H1 B1 H2 B2) as (r' & _ & HR' & Hb' & Hv').
  assert (Hmono : F64.ival r <= F64.ival r').
  { apply (F64Facts.rounds_mono ((x + y) * F64.U) (width + height) r
                                 ((x' + y') * F64.U) (width + height) r'
                                 ltac:(lia) ltac:(lia) HR HR').
    pose proof F64Facts.U_pos.
    apply Z.mul_le_mono_nonneg_r; [lia|]. apply Z.mul_le_mono_nonneg_r; lia. }
  destruct B1 as (? & ? & ?), B2 as (? & ? & ?). unfold is_byte in *.
  destruct (ChanFacts.chan_mono r1 r2 r r' ltac:(lia) ltac:(lia)
              (proj1 HR) Hb (proj1 HR') Hb' Hmono).
  destruct (ChanFacts.chan_mono g1 g2 r r' ltac:(lia) ltac:(lia)
              (proj1 HR) Hb (proj1 HR') Hb' Hmono).
  destruct (ChanFacts.chan_mono b1 b2 r r' ltac:(lia) ltac:(lia)
              (proj1 HR) Hb (proj1 HR') Hb' Hmono).
  eexists _, _, _, _, _, _.
  split; [rewrite Hpx by (split; assumption); exact Hv|].
  split; [rewrite Hpx by (split; assumption); exact Hv'|].
  repeat split; assumption.
Qed.

Lemma gradient_monotone_along_diagonal_witness :
  exists l w' canvas,
    create_gradient_background 2 3 DARK_BG ACCENT_CYAN empty_world = (Ok l, w') /\
    w_heap w' !! l = Some canvas /\
    forall x y x' y',
      0 <= x < 2 -> 0 <= y < 3 -> 0 <= x' < 2 -> 0 <= y' < 3 ->
      x + y <= x' + y' ->
      exists r g b r' g' b',
        getpixel canvas x y = Ok (r, g, b) /\
        getpixel canvas x' y' = Ok (r', g', b') /\
        (15 <= 6 -> r <= r') /\ (6 <= 15 -> r' <= r) /\
        (15 <= 182 -> g <= g') /\ (182 <= 15 -> g' <= g) /\
        (35 <= 212 -> b <= b') /\ (212 <= 35 -> b' <= b).
Proof.
  apply (gradient_monotone_along_diagonal 2 3 DARK_BG ACCENT_CYAN 15 15 35 6 182 212 empty_world);
    [lia | lia | reflexivity | reflexivity | reflexivity | reflexivity].
Defined.

(* ================================================================== *)
(** * Part IV: further properties of the code                          *)
(* ================================================================== *)

(** ** Loops and empty canvases *)

(** A loop whose body does nothing does nothing. *)
Lemma for_skip {A} (xs : list A) (body : A -> M unit) w :
  (forall x w', body x w' = (Ok tt, w')) -> for_ xs body w = (Ok tt, w).
Proof.
  intros Hbody. induction xs as [|x xs IH]; [reflexivity|].
  cbn [for_]. rewrite bind_run, Hbody. exact IH.
Qed.

(** Two loops with bodies that agree run alike. *)
Lemma for_ext {A} (xs : list A) (body body' : A -> M unit) :
  (forall x w, body x w = body' x w) -> forall w, for_ xs body w = for_ xs body' w.
Proof.
  intros Hbody. induction xs as [|x xs IH]; intros w; [reflexivity|].
  cbn [for_]. rewrite !bind_run, Hbody.
  destruct (body' x w) as [[[]|e] w']; [apply IH|reflexivity].
Qed.

Lemma filled_empty width height fill :
  width = 0 \/ height = 0 -> filled width height fill = ∅.
Proof.
  intros H0. apply map_eq. intros [x y]. rewrite filled_lookup, lookup_empty.
  destruct (decide _) as [[Hx Hy]|_]; [lia|reflexivity].
Qed.

(** ** Exact values of the ratio and of the interpolation *)

Module RatioFacts.
Import F64 F64Facts ChanFacts.

Lemma U_split k : 0 <= k <= 2148 -> U = 2 ^ (2148 - k) * 2 ^ k.
Proof.
  intros Hk. unfold U. rewrite <- pow2_split by lia. f_equal. lia.
Qed.

(** A quotient that lies at or below [1 - 2^-j] rounds to a double at
    or below it: [1 - 2^-j] is itself a double for [j <= 53]. *)
Lemma ratio_upper s t j r : 0 < t -> 1 <= j <= 53 ->
  s * 2 ^ j <= (2 ^ j - 1) * t ->
  rounds (s * U) t r -> ival r <= (2 ^ j - 1) * 2 ^ (2148 - j).
Proof.
  intros Ht Hj Hle [_ HR].
  pose proof (pow2_pos j ltac:(lia)) as PJ.
  pose proof (pow2_pos (2148 - j) ltac:(lia)) as PK.
  assert (HJ : 2 ^ j <= 2 ^ 53) by (apply pow2_le; lia).
  change (2 ^ 53) with 9007199254740992 in HJ.
  pose proof (SRnd_dyadic (2 ^ j - 1) (2148 - j)
                ltac:(change (2 ^ 53) with 9007199254740992; rewrite Z.abs_eq by lia; lia)
                ltac:(lia)) as HD.
  pose proof (U_split j ltac:(lia)) as HU.
  set (J := 2 ^ j) in *. set (K := 2 ^ (2148 - j)) in *. clearbody J K.
  apply (SRnd_mono (s * U) t (ival r) ((J - 1) * K) 1 _ Ht ltac:(lia) HR HD).
  rewrite HU.
  replace (s * (K * J) * 1) with (s * J * K) by ring.
  replace ((J - 1) * K * t) with ((J - 1) * t * K) by ring.
  apply Z.mul_le_mono_nonneg_r; lia.
Qed.

(** The unit as a multiple of [2^k], the power left abstract. *)
Lemma U_units k : 0 <= k <= 2148 ->
  exists K, K = 2 ^ k /\ 0 < K /\ U = 2 ^ (2148 - k) * K.
Proof.
  intros Hk. exists (2 ^ k). split; [reflexivity|]. split; [apply pow2_pos; lia|].
  apply U_split, Hk.
Qed.

(** A canonical double with a value in [0, 1) compares as such. *)
Lemma below_one r : fin_ok r -> 0 <= ival r < U -> in_unit_interval r = true.
Proof.
  intros Hf [Hlo Hhi].
  destruct (fin_ok_cases _ Hf) as [[s ->]|(s & m & e & ->)].
  - destruct s; reflexivity.
  - destruct (fin_ok_inv _ _ _ Hf) as (He & Hm & Hc).
    pose proof (pow2_pos (e + 2148) ltac:(lia)) as PE.
    rewrite ival_finite in Hlo, Hhi.
    destruct s; cbn [cond_Zopp] in Hlo, Hhi; [exfalso; nia|].
    unfold in_unit_interval, zero, SFleb, SFltb.
    replace one with (S754_finite false 4503599627370496 (-52)) by (vm_compute; reflexivity).
    cbn [SFcompare andb].
    destruct (Z.compare_spec e (-52)) as [Heq|Hlt|Hgt]; [|reflexivity|]; exfalso.
    + subst e. destruct Hc as [Hc|Hc]; [lia|].
      destruct (U_units 2096 ltac:(lia)) as (A & HA & PA & HU).
      change (2148 - 2096) with 52 in HU. change (2 ^ 52) with 4503599627370496 in HU, Hc.
      change (-52 + 2148) with 2096 in Hhi. rewrite <- HA in Hhi. clear HA PE Hlo.
      rewrite HU in Hhi. nia.
    + destruct Hc as [Hc|Hc]; [lia|].
      destruct (U_units 2096 ltac:(lia)) as (A & HA & PA & HU).
      change (2148 - 2096) with 52 in HU. change (2 ^ 52) with 4503599627370496 in HU, Hc.
      assert (Hp : 2 * A <= 2 ^ (e + 2148)).
      { rewrite HA. replace (e + 2148) with (e + 52 + 2096) by lia.
        rewrite pow2_split by lia.
        assert (2 ^ 1 <= 2 ^ (e + 52)) by (apply pow2_le; lia).
        change (2 ^ 1) with 2 in *.
        apply Z.mul_le_mono_nonneg_r; [apply Z.lt_le_incl, pow2_pos|]; lia. }
      clear HA PE. set (B := 2 ^ (e + 2148)) in *. clearbody B.
      rewrite HU in Hhi. nia.
Qed.

Lemma ulp32_pos : 0 < ulp32.
Proof. apply pow2_pos. lia. Qed.

Lemma U_ulp32 : U = 4294967296 * ulp32.
Proof. apply (U_split 2116). lia. Qed.

Lemma SRnd_ulp32 z : Z.abs z < 9007199254740992 -> SRnd (z * ulp32) 1 (z * ulp32).
Proof. intros Hz. apply SRnd_dyadic; [exact Hz|lia]. Qed.

(** At a ratio that is a multiple of 2^-32 the interpolation
    [c1 + (c2 - c1) * ratio] is computed without rounding. *)
Lemma chan_at_dyadic c1 c2 r n :
  0 <= c1 <= 255 -> 0 <= c2 <= 255 -> fin_ok r ->
  0 <= n <= 4294967296 -> ival r = n * ulp32 ->
  fin_ok (add (of_int_core c1) (mul (of_int_core (c2 - c1)) r)) /\
  ival (add (of_int_core c1) (mul (of_int_core (c2 - c1)) r)) =
    (c1 * 4294967296 + (c2 - c1) * n) * ulp32.
Proof.
  intros Hc1 Hc2 Hr Hn Hv.
  pose proof ulp32_pos as PK. pose proof U_ulp32 as HU.
  assert (Hb : 0 <= ival r <= U) by (rewrite Hv, HU; nia).
  destruct (chan_steps c1 c2 r Hc1 Hc2 Hr Hb) as (_ & HP & Hfs & HS & _).
  cbv zeta in *.
  set (p := mul (of_int_core (c2 - c1)) r) in *.
  set (s := add (of_int_core c1) p) in *.
  assert (Hp : ival p = (c2 - c1) * n * ulp32).
  { apply (SRnd_unique ((c2 - c1) * ival r) 1); [lia|exact HP|].
    rewrite Hv. replace ((c2 - c1) * (n * ulp32)) with ((c2 - c1) * n * ulp32) by ring.
    apply SRnd_ulp32. nia. }
  split; [exact Hfs|].
  apply (SRnd_unique (c1 * U + ival p) 1); [lia|exact HS|].
  rewrite Hp, HU.
  replace (c1 * (4294967296 * ulp32) + (c2 - c1) * n * ulp32)
    with ((c1 * 4294967296 + (c2 - c1) * n) * ulp32) by ring.
  apply SRnd_ulp32. nia.
Qed.

(** Below a ratio that is a multiple of 2^-32, a channel that increases
    stays at or below the exact value at that ratio. *)
Lemma chan_upper c1 c2 r n :
  0 <= c1 <= 255 -> 0 <= c2 <= 255 -> c1 <= c2 -> fin_ok r ->
  0 <= n <= 4294967296 -> 0 <= ival r <= n * ulp32 ->
  fin_ok (add (of_int_core c1) (mul (of_int_core (c2 - c1)) r)) /\
  0 <= ival (add (of_int_core c1) (mul (of_int_core (c2 - c1)) r)) <=
    (c1 * 4294967296 + (c2 - c1) * n) * ulp32.
Proof.
  intros Hc1 Hc2 Hle Hr Hn Hv.
  pose proof ulp32_pos as PK. pose proof U_ulp32 as HU. pose proof U_pos as PU.
  assert (Hb : 0 <= ival r <= U) by (rewrite HU; nia).
  destruct (chan_steps c1 c2 r Hc1 Hc2 Hr Hb) as (_ & HP & Hfs & HS & Hmin & _).
  cbv zeta in *.
  set (p := mul (of_int_core (c2 - c1)) r) in *.
  set (s := add (of_int_core c1) p) in *.
  assert (Hp : ival p <= (c2 - c1) * n * ulp32).
  { apply (SRnd_mono ((c2 - c1) * ival r) 1 (ival p) ((c2 - c1) * n * ulp32) 1 _
             ltac:(lia) ltac:(lia) HP).
    - apply SRnd_ulp32. nia.
    - nia. }
  split; [exact Hfs|]. split; [rewrite Z.min_l in Hmin by lia; nia|].
  apply (SRnd_mono (c1 * U + ival p) 1 (ival s)
           ((c1 * 4294967296 + (c2 - c1) * n) * ulp32) 1 _ ltac:(lia) ltac:(lia) HS).
  - apply SRnd_ulp32. nia.
  - rewrite HU. nia.
Qed.

(** A ratio [s / t] with [s < t <= 2^32] is at most [1 - 2^-32]. *)
Lemma ratio_upper32 s t r : 0 <= s < t -> t <= 4294967296 ->
  rounds (s * U) t r -> ival r <= 4294967295 * ulp32.
Proof.
  intros Hs Ht HR.
  exact (ratio_upper s t 32 r ltac:(lia) ltac:(lia)
           ltac:(change (2 ^ 32) with 4294967296; lia) HR).
Qed.

(** A ratio [s / t] with [s + 2 <= t <= 2^54] is below 1. *)
Lemma ratio_below_unit s t r : 0 <= s -> s + 2 <= t -> t <= 18014398509481984 ->
  rounds (s * U) t r -> ival r < U.
Proof.
  intros Hs Hst Ht HR.
  pose proof (ratio_upper s t 53 r ltac:(lia) ltac:(lia)
                ltac:(change (2 ^ 53) with 9007199254740992; lia) HR) as Hup.
  destruct (U_units 2095 ltac:(lia)) as (K & HK & PK & HU).
  change (2148 - 2095) with 53 in HU. change (2148 - 53) with 2095 in Hup.
  rewrite <- HK in Hup. clear HK.
  change (2 ^ 53) with 9007199254740992 in *.
  rewrite HU. lia.
Qed.

(** The ratio of a pixel on the middle anti-diagonal is one half. *)
Lemma ratio_half s r : 0 < s -> rounds (s * U) (2 * s) r -> ival r = 2147483648 * ulp32.
Proof.
  intros Hs [_ HR]. pose proof U_ulp32 as HU.
  apply (SRnd_unique (s * U) (2 * s)); [lia|exact HR|].
  rewrite HU.
  replace (s * (4294967296 * ulp32)) with (2147483648 * ulp32 * (2 * s)) by ring.
  replace (2 * s) with (1 * (2 * s)) at 2 by ring.
  apply SRnd_scale; [lia|lia|]. apply SRnd_ulp32. lia.
Qed.

(** The interpolation at ratio one half. *)
Lemma chan_half c1 c2 r : 0 <= c1 <= 255 -> 0 <= c2 <= 255 -> fin_ok r ->
  ival r = 2147483648 * ulp32 -> chan c1 c2 r = (c1 + c2) / 2.
Proof.
  intros Hc1 Hc2 Hfr Hr.
  pose proof ulp32_pos as PK. pose proof U_ulp32 as HU.
  destruct (chan_at_dyadic c1 c2 r 2147483648 Hc1 Hc2 Hfr ltac:(lia) Hr) as [Hfs Hs].
  unfold chan. rewrite trunc_ival by exact Hfs. rewrite Hs, HU.
  replace (c1 * 4294967296 + (c2 - c1) * 2147483648) with ((c1 + c2) * 2147483648) by ring.
  rewrite Z.quot_div_nonneg by nia.
  rewrite Z.div_mul_cancel_r by lia.
  change 4294967296 with (2 * 2147483648).
  rewrite Z.div_mul_cancel_r by lia. reflexivity.
Qed.

(** An increasing channel stays below its end value while the ratio is
    at most [1 - 2^-32]. *)
Lemma chan_short c1 c2 r : 0 <= c1 <= 255 -> 0 <= c2 <= 255 -> c1 < c2 -> fin_ok r ->
  0 <= ival r <= 4294967295 * ulp32 -> chan c1 c2 r < c2.
Proof.
  intros Hc1 Hc2 Hlt Hfr Hr.
  pose proof ulp32_pos as PK. pose proof U_ulp32 as HU. pose proof U_pos as PU.
  destruct (chan_upper c1 c2 r 4294967295 Hc1 Hc2 ltac:(lia) Hfr ltac:(lia) Hr)
    as (Hfs & Hs0 & Hs).
  unfold chan. rewrite trunc_ival by exact Hfs.
  rewrite Z.quot_div_nonneg by lia.
  apply Z.div_lt_upper_bound; [exact PU|].
  rewrite HU. nia.
Qed.

End RatioFacts.

(** ** The gradient *)

(** X1.  With width 0 or height 0 the loops run no iteration: the call
    returns a new canvas of that size without a pixel and raises
    nothing.  The second colour is never read, so any string will do
    for it. *)
Theorem gradient_of_empty_canvas width height color1 color2 w :
  0 <= width -> 0 <= height -> width = 0 \/ height = 0 ->
  is_hex_color color1 = true ->
  create_gradient_background width height color1 color2 w =
    (Ok (fresh (dom (w_heap w))),
     World (<[fresh (dom (w_heap w)) := Image width height ∅]> (w_heap w))
           (w_log w ++ [EvNew (fresh (dom (w_heap w))) width height])).
Proof.
  intros Hw Hh H0 V1.
  destruct (hex_color_channels color1 V1) as (r1 & g1 & b1 & _ & Hg1 & _).
  unfold create_gradient_background. rewrite bind_run. unfold image_new.
  replace (width <? 0) with false by (symmetry; apply Z.ltb_ge; lia).
  replace (height <? 0) with false by (symmetry; apply Z.ltb_ge; lia).
  cbn [orb]. rewrite Hg1, (filled_empty width height _ H0), bind_run.
  destruct H0 as [->| ->]; [reflexivity|].
  rewrite for_skip; reflexivity.
Qed.

Lemma gradient_of_empty_canvas_witness :
  create_gradient_background 5 0 DARK_BG "no colour" empty_world =
    (Ok (fresh (dom (w_heap empty_world))),
     World (<[fresh (dom (w_heap empty_world)) := Image 5 0 ∅]> (w_heap empty_world))
           (w_log empty_world ++ [EvNew (fresh (dom (w_heap empty_world))) 5 0])).
Proof.
  apply (gradient_of_empty_canvas 5 0 DARK_BG "no colour" empty_world);
    [lia | lia | right; reflexivity | reflexivity].
Defined.

(** X2.  A negative width or height is refused by [Image.new] with
    [ValueError] before anything is allocated or any colour is read. *)
Theorem gradient_rejects_negative_size width height color1 color2 w :
  width < 0 \/ height < 0 ->
  create_gradient_background width height color1 color2 w = (Raise ValueError, w).
Proof.
  intros Hneg. unfold create_gradient_background. rewrite bind_run. unfold image_new.
  replace ((width <? 0) || (height <? 0)) with true; [reflexivity|].
  symmetry. apply orb_true_iff. rewrite !Z.ltb_lt. exact Hneg.
Qed.

Lemma gradient_rejects_negative_size_witness :
  create_gradient_background (-1) 630 DARK_BG ACCENT_CYAN empty_world =
    (Raise ValueError, empty_world).
Proof.
  apply (gradient_rejects_negative_size (-1) 630 DARK_BG ACCENT_CYAN empty_world).
  left. lia.
Defined.

(** X3.  The canvas depends on the two colour strings only through the
    three bytes read from each: the case of the hexadecimal digits does
    not matter, and of the second colour only characters 1 to 6 are ever
    looked at. *)
Theorem gradient_reads_channels_only width height color1 color1' color2 color2' px1 px2 w :
  is_hex_color color1 = true -> is_hex_color color1' = true ->
  hex_channels color1 = Ok px1 -> hex_channels color1' = Ok px1 ->
  hex_channels color2 = Ok px2 -> hex_channels color2' = Ok px2 ->
  create_gradient_background width height color1 color2 w =
  create_gradient_background width height color1' color2' w.
Proof.
  intros V1 V1' H1 H1' H2 H2'.
  assert (Hpx : forall x y, gradient_pixel width height color1 color2 x y =
                            gradient_pixel width height color1' color2' x y).
  { intros x y. unfold gradient_pixel. rewrite H1, H1', H2, H2'. reflexivity. }
  unfold create_gradient_background. rewrite !bind_run.
  assert (Hnew : image_new width height color1 w = image_new width height color1' w).
  { unfold image_new, getrgb. rewrite V1, V1', H1, H1'. reflexivity. }
  rewrite Hnew. destruct (image_new width height color1' w) as [[l|e] w1]; [|reflexivity].
  rewrite !bind_run.
  rewrite (for_ext (range width) _
             (fun x => for_ (range height) (fun y =>
                px ← lift (gradient_pixel width height color1' color2' x y);
                putpixel l x y px))); [reflexivity|].
  intros x w2. apply for_ext. intros y w3. rewrite !bind_run, Hpx. reflexivity.
Qed.

Lemma gradient_reads_channels_only_witness :
  create_gradient_background 2 3 "#0F0f23" "#06b6d4" empty_world =
  create_gradient_background 2 3 "#0f0F23" "x06B6D4ff" empty_world.
Proof.
  apply (gradient_reads_channels_only 2 3 "#0F0f23" "#0f0F23" "#06b6d4" "x06B6D4ff"
           (15, 15, 35) (6, 182, 212) empty_world); reflexivity.
Defined.

(** X4.  The gradient is diagonal: the colour of a pixel depends on
    [x + y] and on [width + height] alone.  Pixels on one anti-diagonal
    are equal, and so are the canvases of [width] x [height] and of
    [height] x [width] after transposition. *)
Theorem gradient_constant_on_antidiagonals width height width' height' color1 color2 w w' :
  0 < width -> 0 < height -> 0 < width' -> 0 < height' ->
  is_hex_color color1 = true -> is_hex_color color2 = true ->
  width + height = width' + height' ->
  exists l w1 canvas l' w1' canvas',
    create_gradient_background width height color1 color2 w = (Ok l, w1) /\
    w_heap w1 !! l = Some canvas /\
    create_gradient_background width' height' color1 color2 w' = (Ok l', w1') /\
    w_heap w1' !! l' = Some canvas' /\
    forall x y x' y',
      0 <= x < width -> 0 <= y < height -> 0 <= x' < width' -> 0 <= y' < height' ->
      x + y = x' + y' ->
      getpixel canvas x y = getpixel canvas' x' y'.
Proof.
  intros Hw Hh Hw' Hh' V1 V2 Hsum.
  destruct (gradient_canvas width height color1 color2 w Hw Hh V1 V2)
    as (canvas & Hrun & _ & _ & _ & Hpx).
  destruct (gradient_canvas width' height' color1 color2 w' Hw' Hh' V1 V2)
    as (canvas' & Hrun' & _ & _ & _ & Hpx').
  eexists _, _, canvas, _, _, canvas'.
  split; [exact Hrun|]. split; [apply lookup_insert_eq|].
  split; [exact Hrun'|]. split; [apply lookup_insert_eq|].
  intros x y x' y' Hx Hy Hx' Hy' Heq.
  rewrite Hpx, Hpx' by (split; assumption).
  unfold gradient_pixel. rewrite Hsum, Heq. reflexivity.
Qed.

Lemma gradient_constant_on_antidiagonals_witness :
  exists l w1 canvas l' w1' canvas',
    create_gradient_background 2 3 DARK_BG ACCENT_CYAN empty_world = (Ok l, w1) /\
    w_heap w1 !! l = Some canvas /\
    create_gradient_background 3 2 DARK_BG ACCENT_CYAN empty_world = (Ok l', w1') /\
    w_heap w1' !! l' = Some canvas' /\
    forall x y x' y',
      0 <= x < 2 -> 0 <= y < 3 -> 0 <= x' < 3 -> 0 <= y' < 2 ->
      x + y = x' + y' ->
      getpixel canvas x y = getpixel canvas' x' y'.
Proof.
  apply (gradient_constant_on_antidiagonals 2 3 3 2 DARK_BG ACCENT_CYAN empty_world empty_world);
    [lia | lia | lia | lia | reflexivity | reflexivity | reflexivity].
Defined.

(** X5.  On every canvas whose width and height add up to 2^54 at most
    the ratio [(x + y) / (width + height)] from which
    [create_gradient_background] computes a pixel stays below 1.0:
    each pixel of the canvas is the interpolation at a ratio [r] with
    [0 <= r < 1], whatever the two colours. *)
Theorem ratio_stays_below_one width height color1 color2 r1 g1 b1 r2 g2 b2 w :
  0 < width -> 0 < height -> width + height <= 2 ^ 54 ->
  is_hex_color color1 = true -> hex_channels color1 = Ok (r1, g1, b1) ->
  is_hex_color color2 = true -> hex_channels color2 = Ok (r2, g2, b2) ->
  exists l w' canvas,
    create_gradient_background width height color1 color2 w = (Ok l, w') /\
    w_heap w' !! l = Some canvas /\
    forall x y, 0 <= x < width -> 0 <= y < height ->
      exists r,
        F64.truediv (x + y) (width + height) = Ok r /\
        in_unit_interval r = true /\
        gradient_pixel width height color1 color2 x y =
          Ok (chan r1 r2 r, chan g1 g2 r, chan b1 b2 r) /\
        getpixel canvas x y = Ok (chan r1 r2 r, chan g1 g2 r, chan b1 b2 r).
Proof.
  intros Hw Hh Hsz V1 H1 V2 H2. change (2 ^ 54) with 18014398509481984 in Hsz.
  destruct (gradient_canvas width height color1 color2 w Hw Hh V1 V2)
    as (canvas & Hrun & _ & _ & _ & Hpx).
  pose proof (hex_channels_bytes _ _ _ _ V1 H1) as B1.
  pose proof (hex_channels_bytes _ _ _ _ V2 H2) as B2.
  eexists _, _, canvas. split; [exact Hrun|]. split; [apply lookup_insert_eq|].
  intros x y Hx Hy.
  destruct (gradient_pixel_value width height color1 color2 r1 g1 b1 r2 g2 b2 x y
              (conj Hx Hy) H1 B1 H2 B2) as (r & Hr & HR & Hb & Hv).
  exists r. split; [exact Hr|]. split.
  - apply RatioFacts.below_one; [apply HR|]. split; [apply Hb|].
    apply (RatioFacts.ratio_below_unit (x + y) (width + height) r); [lia|lia|lia|exact HR].
  - split; [exact Hv|]. rewrite Hpx by (split; assumption). exact Hv.
Qed.

Lemma ratio_stays_below_one_witness :
  exists l w' canvas,
    create_gradient_background 1920 1080 DARK_BG ACCENT_CYAN empty_world = (Ok l, w') /\
    w_heap w' !! l = Some canvas /\
    forall x y, 0 <= x < 1920 -> 0 <= y < 1080 ->
      exists r,
        F64.truediv (x + y) (1920 + 1080) = Ok r /\
        in_unit_interval r = true /\
        gradient_pixel 1920 1080 DARK_BG ACCENT_CYAN x y =
          Ok (chan 15 6 r, chan 15 182 r, chan 35 212 r) /\
        getpixel canvas x y = Ok (chan 15 6 r, chan 15 182 r, chan 35 212 r).
Proof.
  apply (ratio_stays_below_one 1920 1080 DARK_BG ACCENT_CYAN 15 15 35 6 182 212 empty_world);
    [lia | lia | lia | reflexivity | reflexivity | reflexivity | reflexivity].
Defined.

(** X6.  Where [2 * (x + y) = width + height] (the centre pixel, when
    width and height are even) the ratio is exactly 0.5 and each
    channel is the mean of the two colours, rounded down. *)
Theorem gradient_midpoint_is_mean width height color1 color2 r1 g1 b1 r2 g2 b2 w :
  0 < width -> 0 < height ->
  is_hex_color color1 = true -> hex_channels color1 = Ok (r1, g1, b1) ->
  is_hex_color color2 = true -> hex_channels color2 = Ok (r2, g2, b2) ->
  exists l w' canvas,
    create_gradient_background width height color1 color2 w = (Ok l, w') /\
    w_heap w' !! l = Some canvas /\
    forall x y, 0 <= x < width -> 0 <= y < height ->
      2 * (x + y) = width + height ->
      getpixel canvas x y = Ok ((r1 + r2) / 2, (g1 + g2) / 2, (b1 + b2) / 2).
Proof.
  intros Hw Hh V1 H1 V2 H2.
  destruct (gradient_canvas width height color1 color2 w Hw Hh V1 V2)
    as (canvas & Hrun & _ & _ & _ & Hpx).
  pose proof (hex_channels_bytes _ _ _ _ V1 H1) as B1.
  pose proof (hex_channels_bytes _ _ _ _ V2 H2) as B2.
  eexists _, _, canvas. split; [exact Hrun|]. split; [apply lookup_insert_eq|].
  intros x y Hx Hy Hmid.
  destruct (gradient_pixel_value width height color1 color2 r1 g1 b1 r2 g2 b2 x y
              (conj Hx Hy) H1 B1 H2 B2) as (r & _ & HR & _ & Hv).
  rewrite Hpx by (split; assumption). rewrite Hv.
  rewrite <- Hmid in HR.
  pose proof (RatioFacts.ratio_half (x + y) r ltac:(lia) HR) as Hr.
  destruct B1 as (? & ? & ?), B2 as (? & ? & ?). unfold is_byte in *.
  rewrite !(RatioFacts.chan_half _ _ r) by (try apply HR; assumption).
  reflexivity.
Qed.

Lemma gradient_midpoint_is_mean_witness :
  exists l w' canvas,
    create_gradient_background WIDTH HEIGHT DARK_BG ACCENT_CYAN empty_world = (Ok l, w') /\
    w_heap w' !! l = Some canvas /\
    forall x y, 0 <= x < WIDTH -> 0 <= y < HEIGHT ->
      2 * (x + y) = WIDTH + HEIGHT ->
      getpixel canvas x y = Ok ((15 + 6) / 2, (15 + 182) / 2, (35 + 212) / 2).
Proof.
  apply (gradient_midpoint_is_mean WIDTH HEIGHT DARK_BG ACCENT_CYAN 15 15 35 6 182 212 empty_world);
    reflexivity.
Defined.

(** X7.  The gradient stops short of its end colour: a channel in which
    the second colour is above the first stays strictly below the second
    colour at every pixel (for a width and height that add up to 2^32 at
    most). *)
Theorem gradient_stops_short_of_end_colour width height color1 color2 r1 g1 b1 r2 g2 b2 w :
  0 < width -> 0 < height -> width + height <= 2 ^ 32 ->
  is_hex_color color1 = true -> hex_channels color1 = Ok (r1, g1, b1) ->
  is_hex_color color2 = true -> hex_channels color2 = Ok (r2, g2, b2) ->
  exists l w' canvas,
    create_gradient_background width height color1 color2 w = (Ok l, w') /\
    w_heap w' !! l = Some canvas /\
    forall x y, 0 <= x < width -> 0 <= y < height ->
      exists r g b,
        getpixel canvas x y = Ok (r, g, b) /\
        (r1 < r2 -> r < r2) /\ (g1 < g2 -> g < g2) /\ (b1 < b2 -> b < b2).
Proof.
  intros Hw Hh Hsz V1 H1 V2 H2. change (2 ^ 32) with 4294967296 in Hsz.
  destruct (gradient_canvas width height color1 color2 w Hw Hh V1 V2)
    as (canvas & Hrun & _ & _ & _ & Hpx).
  pose proof (hex_channels_bytes _ _ _ _ V1 H1) as B1.
  pose proof (hex_channels_bytes _ _ _ _ V2 H2) as B2.
  eexists _, _, canvas. split; [exact Hrun|]. split; [apply lookup_insert_eq|].
  intros x y Hx Hy.
  destruct (gradient_pixel_value width height color1 color2 r1 g1 b1 r2 g2 b2 x y
              (conj Hx Hy) H1 B1 H2 B2) as (r & _ & HR & Hb & Hv).
  rewrite Hpx by (split; assumption). rewrite Hv.
  eexists _, _, _. split; [reflexivity|].
  pose proof (RatioFacts.ratio_upper32 (x + y) (width + height) r ltac:(lia) Hsz HR) as Hup.
  destruct B1 as (? & ? & ?), B2 as (? & ? & ?). unfold is_byte in *.
  repeat split; intros; apply RatioFacts.chan_short; try assumption; try apply HR; lia.
Qed.

Lemma gradient_stops_short_of_end_colour_witness :
  exists l w' canvas,
    create_gradient_background WIDTH HEIGHT DARK_BG ACCENT_CYAN empty_world = (Ok l, w') /\
    w_heap w' !! l = Some canvas /\
    forall x y, 0 <= x < WIDTH -> 0 <= y < HEIGHT ->
      exists r g b,
        getpixel canvas x y = Ok (r, g, b) /\
        (15 < 6 -> r < 6) /\ (15 < 182 -> g < 182) /\ (35 < 212 -> b < 212).
Proof.
  apply (gradient_stops_short_of_end_colour WIDTH HEIGHT DARK_BG ACCENT_CYAN
           15 15 35 6 182 212 empty_world);
    [reflexivity | reflexivity | unfold WIDTH, HEIGHT; lia
    | reflexivity | reflexivity | reflexivity | reflexivity].
Defined.

(** ** The two cards *)

(** X8.  Each card is drawn in place on the gradient canvas: the image
    returned is the object [create_gradient_background] allocated (the
    only one the call adds to the heap), and it holds the shape and the
    three lines painted over the gradient in the order of the calls. *)
Theorem cards_are_painted_gradients E w :
  env_ok E ->
  let l := fresh (dom (w_heap w)) in
  (exists canvas title_x subtitle_x tagline_x,
     create_gradient_background WIDTH HEIGHT DARK_BG ACCENT_CYAN w =
       (Ok l, World (<[l := canvas]> (w_heap w)) (w_log w ++ [EvNew l WIDTH HEIGHT])) /\
     create_og_image E w =
       (Ok l, World (<[l := og_picture E canvas title_x subtitle_x tagline_x]> (w_heap w))
                    (w_log w ++ og_trace E l title_x subtitle_x tagline_x))) /\
  (exists canvas title_x subtitle_x tagline_x,
     create_gradient_background WIDTH HEIGHT DARK_BG ACCENT_PURPLE w =
       (Ok l, World (<[l := canvas]> (w_heap w)) (w_log w ++ [EvNew l WIDTH HEIGHT])) /\
     create_twitter_image E w =
       (Ok l, World (<[l := twitter_picture E canvas title_x subtitle_x tagline_x]> (w_heap w))
                    (w_log w ++ twitter_trace E l title_x subtitle_x tagline_x))).
Proof.
  intros HE l. unfold l. split.
  - destruct (gradient_run WIDTH HEIGHT DARK_BG ACCENT_CYAN w)
      as (m & Hgrad & _); try reflexivity.
    pose proof (load_fonts_ok E 90 48 36 HE) as HF.
    unfold og_picture, og_trace, og_fonts in *.
    destruct (load_fonts E 90 48 36) as [[tf sf] gf] eqn:Hfonts. cbn [fst snd] in *.
    destruct HF as (F1 & F2 & F3).
    destruct (centred_exact _ "JustLayMe" F1) as (xt & Hxt & _).
    destruct (centred_exact _ "Unfiltered AI Conversations" F2) as (xs & Hxs & _).
    destruct (centred_exact _ "Chat Without Restrictions" F3) as (xg & Hxg & _).
    exists (Image WIDTH HEIGHT m), xt, xs, xg. split; [exact Hgrad|].
    unfold create_og_image. rewrite bind_run, Hgrad. unfold at_store.
    cbv beta iota. rewrite Hfonts.
    draw_step.
    centre_step Hxt. draw_step.
    centre_step Hxs. draw_step.
    centre_step Hxg. draw_step.
    rewrite <- !app_assoc. reflexivity.
  - destruct (gradient_run WIDTH HEIGHT DARK_BG ACCENT_PURPLE w)
      as (m & Hgrad & _); try reflexivity.
    pose proof (load_fonts_ok E 85 42 32 HE) as HF.
    unfold twitter_picture, twitter_trace, twitter_fonts in *.
    destruct (load_fonts E 85 42 32) as [[tf sf] gf] eqn:Hfonts. cbn [fst snd] in *.
    destruct HF as (F1 & F2 & F3).
    destruct (centred_exact _ "JustLayMe" F1) as (xt & Hxt & _).
    destruct (centred_exact _ "Unfiltered AI Conversations" F2) as (xs & Hxs & _).
    destruct (centred_exact _ "Chat Without Restrictions" F3) as (xg & Hxg & _).
    exists (Image WIDTH HEIGHT m), xt, xs, xg. split; [exact Hgrad|].
    unfold create_twitter_image. rewrite bind_run, Hgrad. unfold at_store.
    cbv beta iota. rewrite Hfonts.
    draw_step.
    centre_step Hxt. draw_step.
    centre_step Hxs. draw_step.
    centre_step Hxg. draw_step.
    rewrite <- !app_assoc. reflexivity.
Qed.

Lemma cards_are_painted_gradients_witness :
  let l := fresh (dom (w_heap empty_world)) in
  (exists canvas title_x subtitle_x tagline_x,
     create_gradient_background WIDTH HEIGHT DARK_BG ACCENT_CYAN empty_world =
       (Ok l, World (<[l := canvas]> (w_heap empty_world))
                    (w_log empty_world ++ [EvNew l WIDTH HEIGHT])) /\
     create_og_image narrow_env empty_world =
       (Ok l, World (<[l := og_picture narrow_env canvas title_x subtitle_x tagline_x]>
                       (w_heap empty_world))
                    (w_log empty_world ++ og_trace narrow_env l title_x subtitle_x tagline_x))) /\
  (exists canvas title_x subtitle_x tagline_x,
     create_gradient_background WIDTH HEIGHT DARK_BG ACCENT_PURPLE empty_world =
       (Ok l, World (<[l := canvas]> (w_heap empty_world))
                    (w_log empty_world ++ [EvNew l WIDTH HEIGHT])) /\
     create_twitter_image narrow_env empty_world =
       (Ok l, World (<[l := twitter_picture narrow_env canvas title_x subtitle_x tagline_x]>
                       (w_heap empty_world))
                    (w_log empty_world ++ twitter_trace narrow_env l title_x subtitle_x tagline_x))).
Proof.
  apply (cards_are_painted_gradients narrow_env empty_world).
  apply env_ok_sample. reflexivity.
Defined.

(** X9.  The fonts of a card are all three the truetype fonts or all
    three the default font, never a mix: one load that fails replaces
    the fonts that did load as well.  So it is for both cards. *)
Theorem fonts_all_or_none E w :
  env_ok E ->
  exists l1 w1 t1 l2 w2 t2,
    create_og_image E w = (Ok l1, w1) /\ added w w1 t1 /\
    create_twitter_image E w = (Ok l2, w2) /\ added w w2 t2 /\
    text_fonts t1 =
      match truetype_fonts E 90 48 36 with
      | (Some title_font, Some subtitle_font, Some tagline_font) =>
          [title_font; subtitle_font; tagline_font]
      | _ => [load_default E; load_default E; load_default E]
      end /\
    text_fonts t2 =
      match truetype_fonts E 85 42 32 with
      | (Some title_font, Some subtitle_font, Some tagline_font) =>
          [title_font; subtitle_font; tagline_font]
      | _ => [load_default E; load_default E; load_default E]
      end.
Proof.
  intros HE.
  destruct (og_run E w HE) as (im1 & a1 & b1 & c1 & Hrun1 & _).
  destruct (twitter_run E w HE) as (im2 & a2 & b2 & c2 & Hrun2 & _).
  eexists _, _, _, _, _, _.
  split; [exact Hrun1|]. split; [reflexivity|].
  split; [exact Hrun2|]. split; [reflexivity|].
  unfold text_fonts, og_trace, twitter_trace, og_fonts, twitter_fonts, load_fonts, truetype_fonts.
  split.
  - destruct (truetype E bold_ttf 90); [|reflexivity].
    destruct (truetype E regular_ttf 48); [|reflexivity].
    destruct (truetype E regular_ttf 36); reflexivity.
  - destruct (truetype E bold_ttf 85); [|reflexivity].
    destruct (truetype E regular_ttf 42); [|reflexivity].
    destruct (truetype E regular_ttf 32); reflexivity.
Qed.

Lemma fonts_all_or_none_witness :
  exists l1 w1 t1 l2 w2 t2,
    create_og_image bold_only_env empty_world = (Ok l1, w1) /\ added empty_world w1 t1 /\
    create_twitter_image bold_only_env empty_world = (Ok l2, w2) /\ added empty_world w2 t2 /\
    text_fonts t1 =
      match truetype_fonts bold_only_env 90 48 36 with
      | (Some title_font, Some subtitle_font, Some tagline_font) =>
          [title_font; subtitle_font; tagline_font]
      | _ => [load_default bold_only_env; load_default bold_only_env; load_default bold_only_env]
      end /\
    text_fonts t2 =
      match truetype_fonts bold_only_env 85 42 32 with
      | (Some title_font, Some subtitle_font, Some tagline_font) =>
          [title_font; subtitle_font; tagline_font]
      | _ => [load_default bold_only_env; load_default bold_only_env; load_default bold_only_env]
      end.
Proof.
  apply (fonts_all_or_none bold_only_env empty_world).
  split.
  - intros text. vm_compute. reflexivity.
  - intros path size f Hf. cbn in Hf.
    destruct (String.eqb path bold_ttf); [|discriminate].
    inversion Hf; subst. intros text. vm_compute. reflexivity.
Defined.

(** ** The run as a whole *)

(** The trace of a run, case by case, with the traces of the two cards
    left abstract. *)
Lemma saved_script_trace E l1 im1 t1 l2 im2 t2 :
  og_card E l1 t1 -> twitter_card E l2 t2 ->
  saved (script_trace E l1 im1 t1 l2 im2 t2) =
    if pil_installed E then
      if writable E og_path then
        (og_path, im1) :: (if writable E twitter_path then [(twitter_path, im2)] else [])
      else []
    else [].
Proof.
  intros (a1 & b1 & c1 & -> & _) (a2 & b2 & c2 & -> & _).
  unfold script_trace, stage_done, stage_twitter, stage_og_saved, stage_og.
  destruct (pil_installed E); [|apply saved_prints].
  destruct (writable E og_path); [destruct (writable E twitter_path)|];
    rewrite ?saved_app, ?saved_prints; reflexivity.
Qed.

Lemma printed_script_trace E l1 im1 t1 l2 im2 t2 :
  og_card E l1 t1 -> twitter_card E l2 t2 ->
  printed (script_trace E l1 im1 t1 l2 im2 t2) =
    if pil_installed E then
      "Generating OG and Twitter Card images..." ::
      (if writable E og_path then
         ("Created: " +:+ og_path) ::
         (if writable E twitter_path then ("Created: " +:+ twitter_path) :: usage_hint else [])
       else [])
    else remediation.
Proof.
  intros (a1 & b1 & c1 & -> & _) (a2 & b2 & c2 & -> & _).
  unfold script_trace, stage_done, stage_twitter, stage_og_saved, stage_og.
  destruct (pil_installed E); [|apply printed_prints].
  destruct (writable E og_path); [destruct (writable E twitter_path)|];
    rewrite ?printed_app, ?printed_prints; reflexivity.
Qed.

(** X10.  The files a run writes are a prefix of [og-image.jpg;
    twitter-image.jpg]: nothing without PIL or when the first file cannot
    be written, the OG card alone when only the second cannot (the run
    then stops with the exception and the first file stays). *)
Theorem files_written_by_run E w :
  env_ok E ->
  exists t,
    added w (snd (script E w)) t /\
    saved_paths t =
      if pil_installed E && writable E og_path
      then og_path :: (if writable E twitter_path then [twitter_path] else [])
      else [].
Proof.
  intros HE.
  destruct (script_added E w HE)
    as (l1 & im1 & t1 & l2 & im2 & t2 & _ & _ & T1 & _ & _ & T2 & Hadd).
  eexists. split; [exact Hadd|].
  unfold saved_paths. rewrite (saved_script_trace E l1 im1 t1 l2 im2 t2 T1 T2).
  destruct (pil_installed E), (writable E og_path), (writable E twitter_path); reflexivity.
Qed.

Lemma files_written_by_run_witness :
  exists t,
    added empty_world (snd (script (sample_env true true false 300) empty_world)) t /\
    saved_paths t = [].
Proof.
  apply (files_written_by_run (sample_env true true false 300) empty_world).
  apply env_ok_sample. reflexivity.
Defined.

(** X11.  The exit status is 0 exactly when both files have been written,
    and 1 otherwise ([exit(1)] without PIL, uncaught exception when a
    file cannot be written). *)
Theorem exit_status_tells_files E w :
  env_ok E ->
  exists t,
    added w (snd (script E w)) t /\
    exit_status (fst (script E w)) =
      (if decide (saved_paths t = [og_path; twitter_path]) then 0 else 1).
Proof.
  intros HE.
  destruct (script_added E w HE)
    as (l1 & im1 & t1 & l2 & im2 & t2 & _ & _ & T1 & _ & _ & T2 & Hadd).
  eexists. split; [exact Hadd|].
  unfold saved_paths. rewrite (saved_script_trace E l1 im1 t1 l2 im2 t2 T1 T2).
  rewrite (script_termination E w HE).
  destruct (pil_installed E), (writable E og_path), (writable E twitter_path);
    cbn [fmap list_fmap fst exit_status];
    destruct (decide _) as [Heq|Hne]; try reflexivity; try discriminate Heq;
    exfalso; apply Hne; reflexivity.
Qed.

Lemma exit_status_tells_files_witness :
  exists t,
    added empty_world (snd (script narrow_env empty_world)) t /\
    exit_status (fst (script narrow_env empty_world)) =
      (if decide (saved_paths t = [og_path; twitter_path]) then 0 else 1).
Proof.
  apply (exit_status_tells_files narrow_env empty_world).
  apply env_ok_sample. reflexivity.
Defined.

(** X12.  A run never announces a file it has not written: every line
    ["Created: <path>"] it prints names a path it has saved, whatever
    fails. *)
Theorem created_lines_name_saved_files E w :
  env_ok E ->
  exists t,
    added w (snd (script E w)) t /\
    forall path, ("Created: " +:+ path) ∈ printed t -> path ∈ saved_paths t.
Proof.
  intros HE.
  destruct (script_added E w HE)
    as (l1 & im1 & t1 & l2 & im2 & t2 & _ & _ & T1 & _ & _ & T2 & Hadd).
  eexists. split; [exact Hadd|].
  intros path. unfold saved_paths.
  rewrite (saved_script_trace E l1 im1 t1 l2 im2 t2 T1 T2).
  rewrite (printed_script_trace E l1 im1 t1 l2 im2 t2 T1 T2).
  destruct (pil_installed E), (writable E og_path), (writable E twitter_path);
    cbn [fmap list_fmap fst]; intros Hin;
    repeat (apply elem_of_cons in Hin as [Hin|Hin];
            [first [ vm_compute in Hin; discriminate Hin
                   | apply (String.app_inj "Created: ") in Hin; subst path;
                     first [left | right; left] ]|]);
    apply elem_of_nil in Hin; destruct Hin.
Qed.

Lemma created_lines_name_saved_files_witness :
  exists t,
    added empty_world (snd (script narrow_env empty_world)) t /\
    forall path, ("Created: " +:+ path) ∈ printed t -> path ∈ saved_paths t.
Proof.
  apply (created_lines_name_saved_files narrow_env empty_world).
  apply env_ok_sample. reflexivity.
Defined.

(** X13.  A run reports success only after both files are written: the
    line ["\nImages generated successfully!"] appears only in a run that
    saved both cards and exits with status 0. *)
Theorem success_line_means_both_saved E w :
  env_ok E ->
  exists t,
    added w (snd (script E w)) t /\
    ((nl +:+ "Images generated successfully!") ∈ printed t ->
     saved_paths t = [og_path; twitter_path] /\ fst (script E w) = Exited 0).
Proof.
  intros HE.
  destruct (script_added E w HE)
    as (l1 & im1 & t1 & l2 & im2 & t2 & _ & _ & T1 & _ & _ & T2 & Hadd).
  eexists. split; [exact Hadd|].
  unfold saved_paths.
  rewrite (saved_script_trace E l1 im1 t1 l2 im2 t2 T1 T2).
  rewrite (printed_script_trace E l1 im1 t1 l2 im2 t2 T1 T2).
  rewrite (script_termination E w HE).
  destruct (pil_installed E), (writable E og_path), (writable E twitter_path);
    cbn [fmap list_fmap fst]; intros Hin; try (split; reflexivity);
    exfalso;
    repeat (apply elem_of_cons in Hin as [Hin|Hin]; [vm_compute in Hin; discriminate Hin|]);
    apply elem_of_nil in Hin; destruct Hin.
Qed.

Lemma success_line_means_both_saved_witness :
  exists t,
    added empty_world (snd (script narrow_env empty_world)) t /\
    ((nl +:+ "Images generated successfully!") ∈ printed t ->
     saved_paths t = [og_path; twitter_path] /\
     fst (script narrow_env empty_world) = Exited 0).
Proof.
  apply (success_line_means_both_saved narrow_env empty_world).
  apply env_ok_sample. reflexivity.
Defined.
